(** * stonehenge-flash: the supervision-and-feedback loop

    A shallow embedding of the Go package [agent] (agent.go, the process
    manager, the WebSocket server, the configuration types and the hot-token
    tracker) together with the properties its design document states about it.

    Conventions of the embedding.
    - A Go [error] is a message; [option error] is a possibly-nil error.
    - A [*Config] is a location of the heap; a slice is a header that names
      its backing array, so that two headers may share one array.
    - [float64] volumes are only ever compared.  They are decoded from JSON,
      so they are finite, and comparing finite doubles is comparing the
      rationals they denote: volumes are modelled in [Q].
    - Calls that leave the program (the operating system, the child process,
      the toml/json codecs, [sort.Slice]) take their outcome from an
      environment record or from a class that states their contract. *)

From Stdlib Require Import QArith Lqa.
From stdpp Require Import base gmap sets list strings sorting.

Local Open Scope string_scope.
Local Open Scope list_scope.
Local Open Scope nat_scope.

(** Go spells comparisons [len(x) > n] and [n >= 2]. *)
#[global] Instance nat_gt_dec : RelDecision gt := λ x y, decide (y < x).
#[global] Instance nat_ge_dec : RelDecision ge := λ x y, decide (y ≤ x).

(** ** Go values *)

Definition error := string.

(** A buffered channel: the queued values, oldest first, and the capacity
    given to [make]. *)
Record chan (A : Type) := Chan { chan_buf : list A; chan_cap : nat }.
Arguments Chan {A} _ _.
Arguments chan_buf {A} _.
Arguments chan_cap {A} _.

Definition make_chan {A} (cap : nat) : chan A := Chan [] cap.

(** [c <- x]: possible only while the buffer has room; [None] is a sender
    that has to wait. *)
Definition chan_send {A} (x : A) (c : chan A) : option (chan A) :=
  if decide (length (chan_buf c) < chan_cap c)
  then Some (Chan (chan_buf c ++ [x]) (chan_cap c))
  else None.

(** [<-c]: possible only when a value is queued. *)
Definition chan_recv {A} (c : chan A) : option (A * chan A) :=
  match chan_buf c with
  | [] => None
  | x :: rest => Some (x, Chan rest (chan_cap c))
  end.

(** ** Configuration (part_002: Config, MintConfig)

    The records are parametric in the representation of their slices: with
    lists they are the values a configuration denotes, with slice headers
    they are the structs as they lie in memory. *)

Record MintConfigOf (S : Type) := MkMintConfig {
  Mint : string;
  PumpPoolList : S;
  RaydiumPoolList : S;
  RaydiumCPPoolList : S;
  MeteoraPoolList : S;
  LookupTableAccounts : S;
  ProcessDelay : Z
}.
Arguments MkMintConfig {S} _ _ _ _ _ _ _.
Arguments Mint {S} _.
Arguments PumpPoolList {S} _.
Arguments RaydiumPoolList {S} _.
Arguments RaydiumCPPoolList {S} _.
Arguments MeteoraPoolList {S} _.
Arguments LookupTableAccounts {S} _.
Arguments ProcessDelay {S} _.

(** The anonymous struct shared by [compute_unit_price] and [tip_config]. *)
Record RangeConfig := MkRange {
  Strategy : string; From : Z; To : Z; Count : Z
}.

Record SpamConfigOf (S : Type) := MkSpam {
  Spam_Enabled : bool;
  SendingRPCURLs : S;
  ComputeUnitPrice : RangeConfig;
  MaxRetries : Z;
  EnableSimpleSend : bool
}.
Arguments MkSpam {S} _ _ _ _ _.
Arguments Spam_Enabled {S} _.
Arguments SendingRPCURLs {S} _.
Arguments ComputeUnitPrice {S} _.
Arguments MaxRetries {S} _.
Arguments EnableSimpleSend {S} _.

Record JitoConfigOf (S : Type) := MkJito {
  Jito_Enabled : bool;
  BlockEngineURLs : S;
  UUID : string;
  IPAddresses : S;
  TipConfig : RangeConfig
}.
Arguments MkJito {S} _ _ _ _ _.
Arguments Jito_Enabled {S} _.
Arguments BlockEngineURLs {S} _.
Arguments UUID {S} _.
Arguments IPAddresses {S} _.
Arguments TipConfig {S} _.

Record BotConfig := MkBot { ComputeUnitLimit : Z; MergeMints : bool }.

(** [S] represents a [[]string], [M] a [[]MintConfig]. *)
Record ConfigOf (S M : Type) := MkConfig {
  MintConfigList : M;            (* Routing.MintConfigList *)
  RPC_URL : string;              (* RPC.URL *)
  Spam : SpamConfigOf S;
  Jito : JitoConfigOf S;
  KaminoFlashloan_Enabled : bool;
  Bot : BotConfig
}.
Arguments MkConfig {S M} _ _ _ _ _ _.
Arguments MintConfigList {S M} _.
Arguments RPC_URL {S M} _.
Arguments Spam {S M} _.
Arguments Jito {S M} _.
Arguments KaminoFlashloan_Enabled {S M} _.
Arguments Bot {S M} _.

(** Values. *)
Definition MintConfig := MintConfigOf (list string).
Definition Config := ConfigOf (list string) (list MintConfig).

Definition zeroRange : RangeConfig := MkRange "" 0 0 0.
Definition zeroConfig : Config :=
  MkConfig [] "" (MkSpam false [] zeroRange 0 false)
           (MkJito false [] "" [] zeroRange) false (MkBot 0 false).

(** Field assignments [c.F = x]. *)
Definition set_MintConfigList {S M} (l : M) (c : ConfigOf S M) : ConfigOf S M :=
  MkConfig l (RPC_URL c) (Spam c) (Jito c) (KaminoFlashloan_Enabled c) (Bot c).
Definition set_RPC_URL {S M} (u : string) (c : ConfigOf S M) : ConfigOf S M :=
  MkConfig (MintConfigList c) u (Spam c) (Jito c) (KaminoFlashloan_Enabled c) (Bot c).
Definition set_Spam_Enabled {S M} (b : bool) (c : ConfigOf S M) : ConfigOf S M :=
  let s := Spam c in
  MkConfig (MintConfigList c) (RPC_URL c)
    (MkSpam b (SendingRPCURLs s) (ComputeUnitPrice s) (MaxRetries s) (EnableSimpleSend s))
    (Jito c) (KaminoFlashloan_Enabled c) (Bot c).
Definition set_Jito_Enabled {S M} (b : bool) (c : ConfigOf S M) : ConfigOf S M :=
  let j := Jito c in
  MkConfig (MintConfigList c) (RPC_URL c) (Spam c)
    (MkJito b (BlockEngineURLs j) (UUID j) (IPAddresses j) (TipConfig j))
    (KaminoFlashloan_Enabled c) (Bot c).
Definition set_KaminoFlashloan_Enabled {S M} (b : bool) (c : ConfigOf S M) : ConfigOf S M :=
  MkConfig (MintConfigList c) (RPC_URL c) (Spam c) (Jito c) b (Bot c).
Definition set_Bot_MergeMints {S M} (b : bool) (c : ConfigOf S M) : ConfigOf S M :=
  MkConfig (MintConfigList c) (RPC_URL c) (Spam c) (Jito c) (KaminoFlashloan_Enabled c)
    (MkBot (ComputeUnitLimit (Bot c)) b).

(** ** Memory

    A slice header names its backing array and its length; the capacity is
    the length of the array.  Nil and empty slices denote the same list, the
    only thing the program observes of them being [len]. *)

Definition loc := nat.

Inductive slice := SliceNil | Slice (arr : loc) (len : nat).

Definition MintConfigH := MintConfigOf slice.
Definition ConfigH := ConfigOf slice slice.

Inductive cell :=
| CConfig (c : ConfigH)
| CStrings (a : list string)
| CMints (a : list MintConfigH).

Abbreviation heap := (gmap loc cell).

Definition zeroMintH : MintConfigH :=
  MkMintConfig "" SliceNil SliceNil SliceNil SliceNil SliceNil 0.

(** Reading the value a header denotes; [None] for a header whose array is
    not (or no longer of the right kind) in the heap. *)
Definition read_strings (h : heap) (s : slice) : option (list string) :=
  match s with
  | SliceNil => Some []
  | Slice a n =>
      match h !! a with
      | Some (CStrings l) => Some (take n l)
      | _ => None
      end
  end.

Definition read_mint (h : heap) (m : MintConfigH) : option MintConfig :=
  p ← read_strings h (PumpPoolList m);
  r ← read_strings h (RaydiumPoolList m);
  c ← read_strings h (RaydiumCPPoolList m);
  t ← read_strings h (MeteoraPoolList m);
  l ← read_strings h (LookupTableAccounts m);
  Some (MkMintConfig (Mint m) p r c t l (ProcessDelay m)).

Definition read_mints (h : heap) (s : slice) : option (list MintConfig) :=
  match s with
  | SliceNil => Some []
  | Slice a n =>
      match h !! a with
      | Some (CMints l) => mapM (read_mint h) (take n l)
      | _ => None
      end
  end.

Definition read_configH (h : heap) (c : ConfigH) : option Config :=
  ms ← read_mints h (MintConfigList c);
  su ← read_strings h (SendingRPCURLs (Spam c));
  be ← read_strings h (BlockEngineURLs (Jito c));
  ip ← read_strings h (IPAddresses (Jito c));
  Some (MkConfig ms (RPC_URL c)
          (MkSpam (Spam_Enabled (Spam c)) su (ComputeUnitPrice (Spam c))
                  (MaxRetries (Spam c)) (EnableSimpleSend (Spam c)))
          (MkJito (Jito_Enabled (Jito c)) be (UUID (Jito c)) ip (TipConfig (Jito c)))
          (KaminoFlashloan_Enabled c) (Bot c)).

Definition read_config (h : heap) (p : loc) : option Config :=
  match h !! p with
  | Some (CConfig c) => read_configH h c
  | _ => None
  end.

(** Allocation returns a location the heap does not use yet. *)
Definition alloc (c : cell) (h : heap) : loc * heap :=
  let l := fresh (dom h) in (l, <[l := c]> h).

(** A fresh array holding [l]. *)
Definition new_strings (l : list string) (h : heap) : slice * heap :=
  match l with
  | [] => (SliceNil, h)
  | _ => let '(a, h1) := alloc (CStrings l) h in (Slice a (length l), h1)
  end.

Definition new_mint (m : MintConfig) (h : heap) : MintConfigH * heap :=
  let '(p, h) := new_strings (PumpPoolList m) h in
  let '(r, h) := new_strings (RaydiumPoolList m) h in
  let '(c, h) := new_strings (RaydiumCPPoolList m) h in
  let '(t, h) := new_strings (MeteoraPoolList m) h in
  let '(l, h) := new_strings (LookupTableAccounts m) h in
  (MkMintConfig (Mint m) p r c t l (ProcessDelay m), h).

Fixpoint new_mint_list (ms : list MintConfig) (h : heap) : list MintConfigH * heap :=
  match ms with
  | [] => ([], h)
  | m :: rest =>
      let '(mh, h) := new_mint m h in
      let '(resth, h) := new_mint_list rest h in
      (mh :: resth, h)
  end.

(** A fresh array holding [ms], with room for [spare] more elements (the
    decoder grows a slice geometrically, so its capacity may exceed its
    length). *)
Definition new_mints (ms : list MintConfig) (spare : nat) (h : heap) : slice * heap :=
  match ms, spare with
  | [], 0 => (SliceNil, h)
  | _, _ =>
      let '(msh, h) := new_mint_list ms h in
      let '(a, h) := alloc (CMints (msh ++ replicate spare zeroMintH)) h in
      (Slice a (length ms), h)
  end.

Definition new_configH (v : Config) (spare : nat) (h : heap) : ConfigH * heap :=
  let '(ms, h) := new_mints (MintConfigList v) spare h in
  let '(su, h) := new_strings (SendingRPCURLs (Spam v)) h in
  let '(be, h) := new_strings (BlockEngineURLs (Jito v)) h in
  let '(ip, h) := new_strings (IPAddresses (Jito v)) h in
  (MkConfig ms (RPC_URL v)
     (MkSpam (Spam_Enabled (Spam v)) su (ComputeUnitPrice (Spam v))
             (MaxRetries (Spam v)) (EnableSimpleSend (Spam v)))
     (MkJito (Jito_Enabled (Jito v)) be (UUID (Jito v)) ip (TipConfig (Jito v)))
     (KaminoFlashloan_Enabled v) (Bot v), h).

(** [&Config{...}]: the struct and all its arrays are fresh. *)
Definition new_config (v : Config) (spare : nat) (h : heap) : loc * heap :=
  let '(c, h) := new_configH v spare h in alloc (CConfig c) h.

(** ** The file system

    [SaveToFile] writes [toml.Marshal(c)]; the bytes are kept symbolically.
    [os.WriteFile] opens with O_TRUNC and then writes: a failure of the open
    leaves the file alone, a failure of the write leaves a prefix of the
    data ("a failure mid-operation can leave the file in a partially
    written state", package os). *)

Inductive FileData :=
| FileBytes (s : string)                  (* not written by this program *)
| FileToml (c : Config)                   (* toml.Marshal(c), complete *)
| FileTruncated (c : Config) (n : nat).   (* the first n bytes of it *)

Inductive WriteResult :=
| WriteOk
| OpenFailed (e : error)
| WriteFailed (e : error) (written : nat).

(** ** Agent settings (part_001: FlashAgentConfig); the logging and Solscan
    sections are not read by the code embedded here. *)
Record FlashAgentConfig := MkFlashAgentConfig {
  Ave_Token : string;
  Wechat_VerifyToken : string
}.

(** ** State of the three objects (agent.go, part_001) *)

Inductive CmdState :=
| CmdNil                      (* p.cmd == nil *)
| CmdNoProcess                (* p.cmd != nil, p.cmd.Process == nil *)
| CmdProcess (pid : nat).

Record ProcessManager := MkProcessManager {
  p_name : string;
  p_executable : string;
  p_args : list string;
  p_cmd : CmdState;
  p_isRunning : bool
}.

Definition conn := nat.

Record WebSocketServer := MkWebSocketServer {
  ws_addr : string;
  ws_clients : gset conn;
  ws_broadcast : chan string;
  ws_server : bool;             (* ws.server != nil *)
  ws_fanouts : nat              (* running broadcastMessages goroutines *)
}.

Record Agent := MkAgent {
  mevConfigPath : string;
  mevConfig : loc;
  agentConfig : option FlashAgentConfig;   (* None: a nil pointer *)
  isRunning : bool;
  manuallyStopped : bool;
  ctx_done : bool;                         (* a.ctx has been cancelled *)
  statusChecks : chan unit
}.

(** Where a [monitorStatus] goroutine stands.  Between releasing the read
    lock and taking the write lock (agent.go 260-261) it holds no lock. *)
Inductive MonitorPC :=
| MonSelect        (* waiting in [select] *)
| MonDecided       (* saw "not running, not manually stopped"; about to Lock *)
| MonExited.

Record World := MkWorld {
  agent : Agent;
  proc : ProcessManager;
  ws : WebSocketServer;
  mem : heap;
  disk : gmap string FileData;
  monitors : list MonitorPC;     (* one per [go a.monitorStatus()] *)
  trackers : nat                 (* [go hotTokensTracker.StartTracking()] *)
}.

Definition with_agent (f : Agent → Agent) (w : World) : World :=
  MkWorld (f (agent w)) (proc w) (ws w) (mem w) (disk w) (monitors w) (trackers w).
Definition with_proc (f : ProcessManager → ProcessManager) (w : World) : World :=
  MkWorld (agent w) (f (proc w)) (ws w) (mem w) (disk w) (monitors w) (trackers w).
Definition with_ws (f : WebSocketServer → WebSocketServer) (w : World) : World :=
  MkWorld (agent w) (proc w) (f (ws w)) (mem w) (disk w) (monitors w) (trackers w).
Definition with_mem (f : heap → heap) (w : World) : World :=
  MkWorld (agent w) (proc w) (ws w) (f (mem w)) (disk w) (monitors w) (trackers w).
Definition with_disk (f : gmap string FileData → gmap string FileData) (w : World) : World :=
  MkWorld (agent w) (proc w) (ws w) (mem w) (f (disk w)) (monitors w) (trackers w).
Definition with_monitors (f : list MonitorPC → list MonitorPC) (w : World) : World :=
  MkWorld (agent w) (proc w) (ws w) (mem w) (disk w) (f (monitors w)) (trackers w).
Definition with_trackers (f : nat → nat) (w : World) : World :=
  MkWorld (agent w) (proc w) (ws w) (mem w) (disk w) (monitors w) (f (trackers w)).

Definition set_mevConfigPath (path : string) (a : Agent) : Agent :=
  MkAgent path (mevConfig a) (agentConfig a) (isRunning a) (manuallyStopped a)
          (ctx_done a) (statusChecks a).
Definition set_mevConfig (p : loc) (a : Agent) : Agent :=
  MkAgent (mevConfigPath a) p (agentConfig a) (isRunning a) (manuallyStopped a)
          (ctx_done a) (statusChecks a).
Definition set_agentConfig (c : option FlashAgentConfig) (a : Agent) : Agent :=
  MkAgent (mevConfigPath a) (mevConfig a) c (isRunning a) (manuallyStopped a)
          (ctx_done a) (statusChecks a).
Definition set_isRunning (b : bool) (a : Agent) : Agent :=
  MkAgent (mevConfigPath a) (mevConfig a) (agentConfig a) b (manuallyStopped a)
          (ctx_done a) (statusChecks a).
Definition set_manuallyStopped (b : bool) (a : Agent) : Agent :=
  MkAgent (mevConfigPath a) (mevConfig a) (agentConfig a) (isRunning a) b
          (ctx_done a) (statusChecks a).
Definition set_ctx_done (b : bool) (a : Agent) : Agent :=
  MkAgent (mevConfigPath a) (mevConfig a) (agentConfig a) (isRunning a)
          (manuallyStopped a) b (statusChecks a).
Definition set_statusChecks (c : chan unit) (a : Agent) : Agent :=
  MkAgent (mevConfigPath a) (mevConfig a) (agentConfig a) (isRunning a)
          (manuallyStopped a) (ctx_done a) c.

Definition set_p_cmd (c : CmdState) (p : ProcessManager) : ProcessManager :=
  MkProcessManager (p_name p) (p_executable p) (p_args p) c (p_isRunning p).
Definition set_p_isRunning (b : bool) (p : ProcessManager) : ProcessManager :=
  MkProcessManager (p_name p) (p_executable p) (p_args p) (p_cmd p) b.

Definition set_ws_clients (s : gset conn) (s0 : WebSocketServer) : WebSocketServer :=
  MkWebSocketServer (ws_addr s0) s (ws_broadcast s0) (ws_server s0) (ws_fanouts s0).
Definition set_ws_broadcast (c : chan string) (s0 : WebSocketServer) : WebSocketServer :=
  MkWebSocketServer (ws_addr s0) (ws_clients s0) c (ws_server s0) (ws_fanouts s0).
Definition set_ws_server (b : bool) (s0 : WebSocketServer) : WebSocketServer :=
  MkWebSocketServer (ws_addr s0) (ws_clients s0) (ws_broadcast s0) b (ws_fanouts s0).
Definition set_ws_fanouts (n : nat) (s0 : WebSocketServer) : WebSocketServer :=
  MkWebSocketServer (ws_addr s0) (ws_clients s0) (ws_broadcast s0) (ws_server s0) n.

(** ** What a call leaves behind, for an observer *)

Record Response := MkResponse {
  r_action : string;
  r_data : option (option Config);   (* response["data"], as serialised *)
  r_message : option string;
  r_error : option string
}.

Inductive Frame :=
| FSystem (message : string)           (* {"type":"system", ...} *)
| FResponse (r : Response)             (* {"type":"response", ...} *)
| FNotification (message : string).    (* {"type":"notification", ...} *)

Inductive Event :=
| ELock | EUnlock                      (* a.mu.Lock / Unlock *)
| ERLock | ERUnlock                    (* a.mu.RLock / RUnlock *)
| ESetManuallyStopped (b : bool)
| ECancel                              (* a.cancelFunc() *)
| EProcStart | EProcStop               (* a.proc.Start() / a.proc.Stop() is called *)
| ESpawn (pid : nat)                   (* the child process is created *)
| ESignalTerm (pid : nat) | EKill (pid : nat)
| EExitObserved                        (* the exit observer clears p.isRunning *)
| EWsStart | EWsStop
| ESaveToFile (path : string)
| ESetMevConfig (p : loc)              (* a.mevConfig = p *)
| EBroadcast (message : string)        (* ws.broadcast <- message *)
| ECopy (src dst : loc)                (* dst = src.Copy() *)
| EUpdateConfig (p : loc)              (* a.UpdateConfig(p) is called *)
| EHttpError (body : string) (code : nat)
| EUpgrade (c : conn)
| ERegister (c : conn)                 (* ws.clients[c] = true *)
| EWriteJSON (c : conn) (f : Frame)
| EGoHandleMessages (c : conn).

(** ** The world outside, as one call sees it *)

Record Env := MkEnv {
  stat_not_exist : bool;          (* os.IsNotExist(err) of os.Stat(p.executable) *)
  spawn_err : option error;       (* p.cmd.Start() *)
  new_pid : nat;
  signal_err : option error;      (* Process.Signal(SIGTERM) *)
  kill_err : option error;        (* Process.Kill() *)
  exit_between : bool;            (* the exit observer gets p.mutex between
                                     a.proc.Stop() and a.proc.Start() *)
  marshal_err : option error;     (* toml.Marshal *)
  write_result : WriteResult;     (* os.WriteFile *)
  close_err : option error;       (* ws.server.Close() *)
  spare_cap : nat                 (* spare capacity the json decoder leaves *)
}.

(** ** The monad of method bodies

    A body runs to its return ([Done]), stops at a channel operation that
    cannot proceed ([Blocked]), or dereferences nil ([Panicked]); in each
    case it leaves a world and the events so far. *)

Inductive Res (A : Type) :=
| Done (a : A) (w : World) (tr : list Event)
| Blocked (w : World) (tr : list Event)
| Panicked (w : World) (tr : list Event).
Arguments Done {A} _ _ _.
Arguments Blocked {A} _ _.
Arguments Panicked {A} _ _.

Definition M (A : Type) : Type := Env → World → Res A.

Definition ret {A} (a : A) : M A := λ _ w, Done a w [].

Definition bind {A B} (m : M A) (k : A → M B) : M B := λ e w,
  match m e w with
  | Done a w1 tr1 =>
      match k a e w1 with
      | Done b w2 tr2 => Done b w2 (tr1 ++ tr2)
      | Blocked w2 tr2 => Blocked w2 (tr1 ++ tr2)
      | Panicked w2 tr2 => Panicked w2 (tr1 ++ tr2)
      end
  | Blocked w1 tr1 => Blocked w1 tr1
  | Panicked w1 tr1 => Panicked w1 tr1
  end.

Declare Scope go_scope.
Delimit Scope go_scope with go.
Notation "'let*' x := m 'in' k" := (bind m (λ x, k))
  (at level 10, x name, m at level 100, k at level 200) : go_scope.
Notation "m >> k" := (bind m (λ _, k))
  (at level 90, right associativity) : go_scope.
(** [if err := m; err != nil { return err }; k] *)
Notation "'iferr' m 'return_it' 'else' k" :=
  (bind m (λ err, match err with Some e => ret (Some e) | None => k end))
  (at level 10, m at level 100, k at level 200) : go_scope.
Local Open Scope go_scope.

Definition ask : M Env := λ e w, Done e w [].
Definition get : M World := λ _ w, Done w w [].
Definition modify (f : World → World) : M unit := λ _ w, Done tt (f w) [].
Definition emit (ev : Event) : M unit := λ _ w, Done tt w [ev].
Definition block {A} : M A := λ _ w, Blocked w [].
Definition panic {A} : M A := λ _ w, Panicked w [].

Definition trace_of {A} (r : Res A) : list Event :=
  match r with Done _ _ tr | Blocked _ tr | Panicked _ tr => tr end.
Definition world_of {A} (r : Res A) : World :=
  match r with Done _ w _ | Blocked w _ | Panicked w _ => w end.

(** [a.mu.Lock(); defer a.mu.Unlock(); body] *)
Definition locked {A} (body : M A) : M A :=
  emit ELock >> let* r := body in emit EUnlock >> ret r.

(** ** ProcessManager (agent.go, second file) *)

(** [p.Start()], lines 327-372. *)
Definition ProcessManager_Start : M (option error) :=
  emit EProcStart >>
  let* w := get in
  if p_isRunning (proc w) then ret None else
  let* e := ask in
  if stat_not_exist e
  then ret (Some ("找不到可执行文件: " +:+ p_executable (proc w)))
  else
    modify (with_proc (set_p_cmd CmdNoProcess)) >>
    match spawn_err e with
    | Some err => ret (Some err)
    | None =>
        modify (with_proc (set_p_cmd (CmdProcess (new_pid e)))) >>
        emit (ESpawn (new_pid e)) >>
        modify (with_proc (set_p_isRunning true)) >>
        ret None
    end.

(** [p.Stop()], lines 375-395.  It only sends the signal: [p.isRunning] is
    left for the exit observer to clear. *)
Definition ProcessManager_Stop : M (option error) :=
  emit EProcStop >>
  let* w := get in
  match p_isRunning (proc w), p_cmd (proc w) with
  | true, CmdProcess pid =>
      let* e := ask in
      emit (ESignalTerm pid) >>
      match signal_err e with
      | None => ret None
      | Some _ =>
          emit (EKill pid) >>
          match kill_err e with
          | Some err => ret (Some err)
          | None => ret None
          end
      end
  | _, _ => ret None
  end.

(** [p.IsRunning()], lines 398-402. *)
Definition ProcessManager_IsRunning : M bool :=
  let* w := get in ret (p_isRunning (proc w)).

(** The goroutine started at lines 356-369, once [p.cmd.Wait()] returns. *)
Definition exit_observer : M unit :=
  modify (with_proc (set_p_isRunning false)) >> emit EExitObserved.

(** The observer takes only [p.mutex], so it can run while a method of the
    agent holds [a.mu], in particular between its two calls of the process
    manager. *)
Definition exit_observer_may_run : M unit :=
  let* e := ask in
  let* w := get in
  if exit_between e && p_isRunning (proc w) then exit_observer else ret tt.

(** ** WebSocketServer: life cycle and broadcast (part_001) *)

(** [ws.BroadcastMessage(message)], lines 255-257: a plain channel send. *)
Definition BroadcastMessage (message : string) : M unit :=
  let* w := get in
  match chan_send message (ws_broadcast (ws w)) with
  | Some c => modify (with_ws (set_ws_broadcast c)) >> emit (EBroadcast message)
  | None => block
  end.

(** [ws.Start()], lines 50-74. *)
Definition WebSocketServer_Start : M (option error) :=
  emit EWsStart >>
  let* w := get in
  modify (with_ws (set_ws_fanouts (S (ws_fanouts (ws w))))) >>
  modify (with_ws (set_ws_server true)) >>
  ret None.

(** [ws.Stop()], lines 77-82. *)
Definition WebSocketServer_Stop : M (option error) :=
  emit EWsStop >>
  let* w := get in
  if ws_server (ws w)
  then let* e := ask in ret (close_err e)
  else ret None.

(** ** Config.SaveToFile (part_002, lines 80-89) *)

(** [os.WriteFile(name, data, 0644)].  Opening the empty path fails. *)
Definition os_WriteFile (name : string) (data : Config) : M (option error) :=
  if decide (name = "") then ret (Some "open : no such file or directory") else
  let* e := ask in
  match write_result e with
  | WriteOk => modify (with_disk <[name := FileToml data]>) >> ret None
  | OpenFailed err => ret (Some err)
  | WriteFailed err n =>
      modify (with_disk <[name := FileTruncated data n]>) >> ret (Some err)
  end.

Definition SaveToFile (c : loc) (configPath : string) : M (option error) :=
  emit (ESaveToFile configPath) >>
  let* e := ask in
  let* w := get in
  match read_config (mem w) c with
  | None => panic
  | Some data =>
      match marshal_err e with
      | Some err => ret (Some err)
      | None => os_WriteFile configPath data
      end
  end.

(** ** Agent (agent.go, first file) *)

Definition setManuallyStopped (b : bool) : M unit :=
  modify (with_agent (set_manuallyStopped b)) >> emit (ESetManuallyStopped b).

(** [a.Start()], lines 77-109. *)
Definition Agent_Start : M (option error) :=
  locked (
    let* w := get in
    if isRunning (agent w) then ret None else
    iferr WebSocketServer_Start return_it else
    let* err := ProcessManager_Start in
    match err with
    | Some e => WebSocketServer_Stop >> ret (Some e)
    | None =>
        modify (with_trackers S) >>
        modify (with_monitors (λ ms, ms ++ [MonSelect])) >>
        modify (with_agent (set_isRunning true)) >>
        ret None
    end).

(** [a.Stop()], lines 112-142. *)
Definition Agent_Stop : M (option error) :=
  locked (
    let* w := get in
    if negb (isRunning (agent w)) then ret None else
    setManuallyStopped true >>
    modify (with_agent (set_ctx_done true)) >> emit ECancel >>
    ProcessManager_Stop >>
    WebSocketServer_Stop >>
    modify (with_agent (set_isRunning false)) >>
    ret None).

(** [a.StopMEVBot()], lines 145-163. *)
Definition Agent_StopMEVBot : M (option error) :=
  locked (
    setManuallyStopped true >>
    iferr ProcessManager_Stop return_it else
    BroadcastMessage "MEV Bot已手动停止" >>
    ret None).

(** [a.StartMEVBot()], lines 166-184. *)
Definition Agent_StartMEVBot : M (option error) :=
  locked (
    setManuallyStopped false >>
    iferr ProcessManager_Start return_it else
    BroadcastMessage "MEV Bot已手动启动" >>
    ret None).

(** [a.RestartMEVBot()], lines 187-212. *)
Definition Agent_RestartMEVBot : M (option error) :=
  locked (
    iferr ProcessManager_Stop return_it else
    setManuallyStopped true >>
    exit_observer_may_run >>
    iferr ProcessManager_Start return_it else
    setManuallyStopped false >>
    BroadcastMessage "MEV Bot已重启" >>
    ret None).

(** [a.UpdateConfig(updatedConfig)], lines 215-242. *)
Definition Agent_UpdateConfig (updatedConfig : loc) : M (option error) :=
  emit (EUpdateConfig updatedConfig) >>
  locked (
    let* w := get in
    iferr SaveToFile updatedConfig (mevConfigPath (agent w)) return_it else
    modify (with_agent (set_mevConfig updatedConfig)) >>
    emit (ESetMevConfig updatedConfig) >>
    ProcessManager_Stop >>
    exit_observer_may_run >>
    iferr ProcessManager_Start return_it else
    BroadcastMessage "MEV Bot配置已更新并重启" >>
    ret None).

(** *** monitorStatus (lines 245-294), one [select] case at a time *)

(** [case <-ticker.C], the part under the read lock (254-260, 272-274):
    whether the tick goes on to restart the worker. *)
Definition monitor_tick_read : M bool :=
  emit ERLock >>
  let* running := ProcessManager_IsRunning in
  let* w := get in
  let restart := negb running && negb (manuallyStopped (agent w)) in
  emit ERUnlock >>
  ret restart.

(** The part under the write lock (261-271). *)
Definition monitor_tick_act : M unit :=
  locked (
    let* err := ProcessManager_Start in
    match err with
    | Some e => BroadcastMessage ("MEV Bot重启失败: " +:+ e)
    | None => BroadcastMessage "MEV Bot已自动重启"
    end).

(** [case <-a.statusChecks] (275-292), after the receive. *)
Definition monitor_status_check : M unit :=
  emit ERLock >>
  let* running := ProcessManager_IsRunning in
  let* w := get in
  let status := if running then "运行中" else "已停止" in
  let manualStatus :=
    if running then ""
    else if manuallyStopped (agent w) then " (手动停止)" else " (意外停止)" in
  emit ERUnlock >>
  BroadcastMessage ("MEV Bot状态: " +:+ status +:+ manualStatus).

(** [NewAgent] (lines 27-74), given what [LoadConfig] and
    [LoadFlashAgentConfig] returned.  The struct literal at lines 48-55 has
    no [mevConfigPath] field, which therefore keeps its zero value; a failed
    load of the agent settings leaves [agentConfig] nil.  (On Windows the
    executable is [smb-onchain.exe].) *)
Definition NewAgent (mevConfigPath agentConfigPath : string)
    (loaded : error + Config) (loadedAgent : error + FlashAgentConfig)
    (fs : gmap string FileData) : error + World :=
  match loaded with
  | inl err => inl err
  | inr cfg =>
      let '(p, h) := new_config cfg 0 ∅ in
      inr (MkWorld
             (MkAgent "" p
                (match loadedAgent with inl _ => None | inr ac => Some ac end)
                false false false (make_chan 1))
             (MkProcessManager "MEV Bot" "./smb-onchain" ["run"; "config.toml"]
                CmdNil false)
             (MkWebSocketServer ":8080" ∅ (make_chan 100) false 0)
             h fs [] 0)
  end.

(** ** The agent at run time: which critical section happens next

    Every method of the agent holds [a.mu] from entry to return, so the
    methods interleave as wholes; the exit observer and the broadcast fan-out
    take other locks and interleave freely.  A tick of the monitor is two
    critical sections.  A method whose last action is a channel send that
    cannot proceed has not happened yet.

    These are the steps of the agent and of the fan-out.  The other
    goroutines of part_001 (the handlers of the socket, and the tracker
    that [Start] launches, which rewrites config.toml and the struct
    [mevConfig] points to) are not among them.  Apart from the methods of
    the agent that they call, they touch the memory, the disk, the set of
    clients and, of the fields of the agent, [statusChecks] only.  They are
    added to these steps in [act], at the end. *)

Inductive Label :=
| LStart | LStop | LStopMEVBot | LStartMEVBot | LRestartMEVBot
| LUpdateConfig (p : loc)
| LProcExit                       (* the child exits and the observer runs *)
| LTickRead (i : nat)             (* monitor i: ticker case, read-locked part *)
| LTickAct (i : nat)              (* monitor i: ticker case, write-locked part *)
| LStatusCheck (i : nat)          (* monitor i: statusChecks case *)
| LMonitorDone (i : nat)          (* monitor i: ctx.Done case *)
| LFanOut (failed : gset conn).   (* broadcastMessages: one message *)

Definition finished {A} (r : Res A) : option (World * list Event) :=
  match r with Done _ w tr => Some (w, tr) | _ => None end.

Definition set_monitor (i : nat) (pc : MonitorPC) : World → World :=
  with_monitors (<[i := pc]>).

Definition step (l : Label) (e : Env) (w : World) : option (World * list Event) :=
  match l with
  | LStart => finished (Agent_Start e w)
  | LStop => finished (Agent_Stop e w)
  | LStopMEVBot => finished (Agent_StopMEVBot e w)
  | LStartMEVBot => finished (Agent_StartMEVBot e w)
  | LRestartMEVBot => finished (Agent_RestartMEVBot e w)
  | LUpdateConfig p => finished (Agent_UpdateConfig p e w)
  | LProcExit =>
      if p_isRunning (proc w) then finished (exit_observer e w) else None
  | LTickRead i =>
      match monitors w !! i with
      | Some MonSelect =>
          match monitor_tick_read e w with
          | Done true w' tr => Some (set_monitor i MonDecided w', tr)
          | Done false w' tr => Some (w', tr)
          | _ => None
          end
      | _ => None
      end
  | LTickAct i =>
      match monitors w !! i with
      | Some MonDecided =>
          match monitor_tick_act e w with
          | Done _ w' tr => Some (set_monitor i MonSelect w', tr)
          | _ => None
          end
      | _ => None
      end
  | LStatusCheck i =>
      match monitors w !! i, chan_recv (statusChecks (agent w)) with
      | Some MonSelect, Some (_, c) =>
          finished (monitor_status_check e (with_agent (set_statusChecks c) w))
      | _, _ => None
      end
  | LMonitorDone i =>
      match monitors w !! i with
      | Some MonSelect =>
          if ctx_done (agent w) then Some (set_monitor i MonExited w, []) else None
      | _ => None
      end
  | LFanOut failed =>
      match ws_fanouts (ws w), chan_recv (ws_broadcast (ws w)) with
      | S _, Some (msg, c) =>
          Some (with_ws (λ s, set_ws_clients (ws_clients s ∖ failed) (set_ws_broadcast c s)) w,
                (λ cl, EWriteJSON cl (FNotification msg)) <$> elements (ws_clients (ws w)))
      | _, _ => None
      end
  end.

(** A run: each label with the environment it meets; the result keeps what
    each step did. *)
Fixpoint exec (ls : list (Label * Env)) (w : World)
    : option (World * list (Label * list Event)) :=
  match ls with
  | [] => Some (w, [])
  | (l, e) :: rest =>
      match step l e w with
      | None => None
      | Some (w1, tr) =>
          match exec rest w1 with
          | None => None
          | Some (w2, trs) => Some (w2, (l, tr) :: trs)
          end
      end
  end.

(** ** WebSocketServer: the handshake and the commands (part_001) *)

Record Command := MkCommand {
  cmd_Type : string;
  cmd_Action : string;
  cmd_Section : string;
  cmd_Key : string;
  cmd_Value : string        (* json.RawMessage *)
}.

(** What the handler reads of an incoming request: the [token] query
    parameter, and what [ws.upgrader.Upgrade] makes of the request. *)
Record Request := MkRequest {
  req_token : string;
  req_upgrade : error + conn
}.

(** [ws.handleConnections(w, r)], lines 85-116. *)
Definition handleConnections (r : Request) : M unit :=
  let token := req_token r in
  let* w := get in
  match agentConfig (agent w) with
  | None => panic
  | Some ac =>
      let expectedToken := Wechat_VerifyToken ac in
      if bool_decide (expectedToken ≠ "") && bool_decide (token ≠ expectedToken)
      then emit (EHttpError "Unauthorized" 401)
      else
        match req_upgrade r with
        | inl _ => ret tt
        | inr c =>
            emit (EUpgrade c) >>
            modify (with_ws (λ s, set_ws_clients ({[c]} ∪ ws_clients s) s)) >>
            emit (ERegister c) >>
            emit (EWriteJSON c (FSystem "已连接到MEV Bot代理")) >>
            emit (EGoHandleMessages c)
        end
  end.

(** The codecs the handlers call.  [json_roundtrip] is [json.Marshal]
    followed by [json.Unmarshal] into a zero [Config]; [toml_set] is the
    marshal / [tree.Set] / re-decode of [Config.UpdateSection], giving the
    value left in the receiver and the error returned. *)
Class Codec := MkCodec {
  JValue : Type;
  json_Unmarshal_value : string → error + JValue;
  json_Unmarshal_Config : string → error + Config;
  json_Unmarshal_MintConfig : string → error + MintConfig;
  json_Unmarshal_string : string → error + string;
  json_Unmarshal_rpc : string → error + string;
  json_Unmarshal_feature : string → error + (string * bool);
  json_roundtrip : Config → Config;
  toml_set : string → string → JValue → Config → Config * option error
}.

Section ControlSocket.
Context `{Codec}.

(** [c.Copy()], part_002 lines 92-97: everything the decoder builds is new
    memory.  A nil receiver marshals to [null] and decodes to the zero value. *)
Definition Config_Copy (c : loc) : M loc :=
  let* w := get in
  let* e := ask in
  let v := match read_config (mem w) c with
           | Some v => json_roundtrip v
           | None => zeroConfig
           end in
  let '(p, h) := new_config v (spare_cap e) (mem w) in
  modify (with_mem (λ _, h)) >> emit (ECopy c p) >> ret p.

(** [*c = v] as the decoder does it: the struct at [c] is overwritten, its
    slices point to new arrays. *)
Definition store_config (c : loc) (v : Config) : M unit :=
  let* w := get in
  let* e := ask in
  let '(ch, h) := new_configH v (spare_cap e) (mem w) in
  modify (with_mem (λ _, <[c := CConfig ch]> h)).

(** [c.UpdateSection(section, key, value)], part_002 lines 100-127. *)
Definition Config_UpdateSection (c : loc) (section key : string) (value : JValue)
    : M (option error) :=
  let* w := get in
  match read_config (mem w) c with
  | None => panic
  | Some v =>
      let '(v', err) := toml_set section key value v in
      store_config c v' >> ret err
  end.

(** A field assignment through the pointer, [c.F = x]. *)
Definition assign (c : loc) (f : ConfigH → ConfigH) : M unit :=
  let* w := get in
  match mem w !! c with
  | Some (CConfig ch) => modify (with_mem (<[c := CConfig (f ch)]>))
  | _ => panic
  end.

(** [c.Routing.MintConfigList = append(c.Routing.MintConfigList, m)]: in
    place when the backing array has room, into a new array otherwise. *)
Definition append_mint (c : loc) (m : MintConfigH) : M unit :=
  let* w := get in
  match mem w !! c with
  | Some (CConfig ch) =>
      match MintConfigList ch with
      | SliceNil =>
          let '(a, h) := alloc (CMints [m]) (mem w) in
          modify (with_mem (λ _, <[c := CConfig (set_MintConfigList (Slice a 1) ch)]> h))
      | Slice a n =>
          match mem w !! a with
          | Some (CMints arr) =>
              if decide (n < length arr)
              then modify (with_mem (λ h,
                     <[c := CConfig (set_MintConfigList (Slice a (S n)) ch)]>
                       (<[a := CMints (<[n := m]> arr)]> h)))
              else
                let '(a', h) := alloc (CMints (take n arr ++ [m])) (mem w) in
                modify (with_mem (λ _,
                  <[c := CConfig (set_MintConfigList (Slice a' (S n)) ch)]> h))
          | _ => panic
          end
      end
  | _ => panic
  end.

(** [ws.handleConfigUpdate(cmd)], lines 260-267. *)
Definition handleConfigUpdate (cmd : Command) : M (option error) :=
  match json_Unmarshal_Config (cmd_Value cmd) with
  | inl err => ret (Some err)
  | inr v =>
      let* w := get in
      let* e := ask in
      let '(p, h) := new_config v (spare_cap e) (mem w) in
      modify (with_mem (λ _, h)) >>
      Agent_UpdateConfig p
  end.

(** [ws.handleSectionUpdate(cmd)], lines 270-286. *)
Definition handleSectionUpdate (cmd : Command) : M (option error) :=
  let* w := get in
  let* updatedConfig := Config_Copy (mevConfig (agent w)) in
  match json_Unmarshal_value (cmd_Value cmd) with
  | inl err => ret (Some err)
  | inr value =>
      iferr Config_UpdateSection updatedConfig (cmd_Section cmd) (cmd_Key cmd) value
      return_it else
      Agent_UpdateConfig updatedConfig
  end.

(** [ws.handleAddMint(cmd)], lines 289-303. *)
Definition handleAddMint (cmd : Command) : M (option error) :=
  match json_Unmarshal_MintConfig (cmd_Value cmd) with
  | inl err => ret (Some err)
  | inr v =>
      let* w := get in
      let '(mintConfig, h) := new_mint v (mem w) in
      modify (with_mem (λ _, h)) >>
      let* updatedConfig := Config_Copy (mevConfig (agent w)) in
      append_mint updatedConfig mintConfig >>
      Agent_UpdateConfig updatedConfig
  end.

(** The loop of [handleRemoveMint], lines 316-321, over the elements of the
    copy's list. *)
Definition remove_mint (mintAddress : string) (l : list MintConfigH) : list MintConfigH :=
  filter (λ mint, Mint mint ≠ mintAddress) l.

(** [ws.handleRemoveMint(cmd)], lines 306-327. *)
Definition handleRemoveMint (cmd : Command) : M (option error) :=
  match json_Unmarshal_string (cmd_Value cmd) with
  | inl err => ret (Some err)
  | inr mintAddress =>
      let* w := get in
      let* updatedConfig := Config_Copy (mevConfig (agent w)) in
      let* w1 := get in
      match mem w1 !! updatedConfig with
      | Some (CConfig ch) =>
          let old := match MintConfigList ch with
                     | SliceNil => []
                     | Slice a n =>
                         match mem w1 !! a with
                         | Some (CMints arr) => take n arr
                         | _ => []
                         end
                     end in
          let newMintList := remove_mint mintAddress old in
          let '(a', h) := alloc (CMints newMintList) (mem w1) in
          modify (with_mem (λ _, h)) >>
          assign updatedConfig (set_MintConfigList (Slice a' (length newMintList))) >>
          Agent_UpdateConfig updatedConfig
      | _ => panic
      end
  end.

(** [ws.handleUpdateRPC(cmd)], lines 330-347. *)
Definition handleUpdateRPC (cmd : Command) : M (option error) :=
  match json_Unmarshal_rpc (cmd_Value cmd) with
  | inl err => ret (Some err)
  | inr url =>
      let* w := get in
      let* updatedConfig := Config_Copy (mevConfig (agent w)) in
      assign updatedConfig (set_RPC_URL url) >>
      Agent_UpdateConfig updatedConfig
  end.

(** [ws.handleToggleFeature(cmd)], lines 350-377. *)
Definition handleToggleFeature (cmd : Command) : M (option error) :=
  match json_Unmarshal_feature (cmd_Value cmd) with
  | inl err => ret (Some err)
  | inr (feature, enabled) =>
      let* w := get in
      let* updatedConfig := Config_Copy (mevConfig (agent w)) in
      (if String.eqb feature "spam" then assign updatedConfig (set_Spam_Enabled enabled)
       else if String.eqb feature "jito" then assign updatedConfig (set_Jito_Enabled enabled)
       else if String.eqb feature "kamino_flashloan"
            then assign updatedConfig (set_KaminoFlashloan_Enabled enabled)
       else if String.eqb feature "merge_mints"
            then assign updatedConfig (set_Bot_MergeMints enabled)
       else ret tt) >>
      Agent_UpdateConfig updatedConfig
  end.

Definition response (action : string) : Response := MkResponse action None None None.
Definition with_data (p : loc) (r : Response) : M Response :=
  let* w := get in
  ret (MkResponse (r_action r) (Some (read_config (mem w) p)) (r_message r) (r_error r)).
Definition with_message (m : string) (r : Response) : Response :=
  MkResponse (r_action r) (r_data r) (Some m) (r_error r).
Definition with_error (m : string) (r : Response) : Response :=
  MkResponse (r_action r) (r_data r) (r_message r) (Some m).

(** [if err != nil { response["error"] = err.Error() } else
    { response["message"] = ok }] *)
Definition outcome (r : Response) (ok : string) (err : option error) : Response :=
  match err with
  | Some e => with_error e r
  | None => with_message ok r
  end.

(** [ws.handleCommand(conn, cmd)], lines 145-231. *)
Definition handleCommand (c : conn) (cmd : Command) : M unit :=
  let r := response (cmd_Action cmd) in
  let action := cmd_Action cmd in
  let* r :=
    if String.eqb (cmd_Type cmd) "config" then
      if String.eqb action "get" then
        let* w := get in with_data (mevConfig (agent w)) r
      else if String.eqb action "update" then
        let* err := handleConfigUpdate cmd in ret (outcome r "配置已更新" err)
      else if String.eqb action "updateSection" then
        let* err := handleSectionUpdate cmd in ret (outcome r "配置节已更新" err)
      else if String.eqb action "addMint" then
        let* err := handleAddMint cmd in ret (outcome r "铸币配置已添加" err)
      else if String.eqb action "removeMint" then
        let* err := handleRemoveMint cmd in ret (outcome r "铸币配置已删除" err)
      else ret r
    else if String.eqb (cmd_Type cmd) "bot" then
      if String.eqb action "status" then
        (* ws.agent.statusChecks <- struct{}{} *)
        let* w := get in
        match chan_send tt (statusChecks (agent w)) with
        | Some ch =>
            modify (with_agent (set_statusChecks ch)) >>
            ret (with_message "状态检查已触发" r)
        | None => block
        end
      else if String.eqb action "restart" then
        let* err := Agent_RestartMEVBot in ret (outcome r "MEV Bot已重启" err)
      else if String.eqb action "updateRPC" then
        let* err := handleUpdateRPC cmd in ret (outcome r "RPC地址已更新" err)
      else if String.eqb action "toggleFeature" then
        let* err := handleToggleFeature cmd in ret (outcome r "功能状态已更新" err)
      else ret r
    else ret (with_error "未知命令类型" r) in
  emit (EWriteJSON c (FResponse r)).

(** The five handlers that patch the live configuration. *)
Inductive Mutation :=
| UpdateSection | AddMint | RemoveMint | UpdateRPC | ToggleFeature.

Definition handler (m : Mutation) : Command → M (option error) :=
  match m with
  | UpdateSection => handleSectionUpdate
  | AddMint => handleAddMint
  | RemoveMint => handleRemoveMint
  | UpdateRPC => handleUpdateRPC
  | ToggleFeature => handleToggleFeature
  end.

End ControlSocket.

(** ** The hot-token tracker (part_001, from line 525) *)

(** [sort.Slice(x, less)] by its documented contract: the slice is permuted
    so that no later element is [less] than an earlier one, provided [less]
    is a strict weak ordering; "the sort is not guaranteed to be stable". *)
Definition StrictWeak {A} (less : A → A → bool) : Prop :=
  (∀ x y, less x y = true → less y x = false) ∧
  (∀ x y z, less x y = false → less y z = false → less x z = false).

Class SortSlice := MkSortSlice {
  sort_Slice : ∀ {A : Type}, (A → A → bool) → list A → list A;
  sort_Slice_perm : ∀ {A : Type} (less : A → A → bool) l, sort_Slice less l ≡ₚ l;
  sort_Slice_sorted : ∀ {A : Type} (less : A → A → bool) l,
    StrictWeak less → StronglySorted (λ x y, less y x = false) (sort_Slice less l)
}.

(** [x > y] on volumes. *)
Definition Qgtb (x y : Q) : bool := negb (Qle_bool x y).

(** [strings.Contains(s, substr)] *)
Definition strings_Contains (s substr : string) : bool :=
  match String.index 0 substr s with Some _ => true | None => false end.

Module HotToken.
Record t := Mk {
  Pair : string;
  Chain : string;
  Amm : string;
  TargetToken : string;
  TokenSymbol : string;
  Volume15m : Q;
  VolumeUSD24h : Q
}.
End HotToken.

Record APIResponse := MkAPIResponse {
  Status : Z;
  Total : Z;
  PageNO : Z;
  PageSize : Z;
  Data : list HotToken.t
}.

Module TokenPoolsInfo.
Record t := Mk {
  TokenAddress : string;
  TokenSymbol : string;
  Volume15m : Q;
  PumpPools : list string;
  MeteoraLists : list string;
  RaydiumPools : list string;
  RaydiumCPPools : list string
}.
End TokenPoolsInfo.

Definition set_PumpPoolList (l : list string) (m : MintConfig) : MintConfig :=
  MkMintConfig (Mint m) l (RaydiumPoolList m) (RaydiumCPPoolList m)
    (MeteoraPoolList m) (LookupTableAccounts m) (ProcessDelay m).
Definition set_RaydiumPoolList (l : list string) (m : MintConfig) : MintConfig :=
  MkMintConfig (Mint m) (PumpPoolList m) l (RaydiumCPPoolList m)
    (MeteoraPoolList m) (LookupTableAccounts m) (ProcessDelay m).
Definition set_RaydiumCPPoolList (l : list string) (m : MintConfig) : MintConfig :=
  MkMintConfig (Mint m) (PumpPoolList m) (RaydiumPoolList m) l
    (MeteoraPoolList m) (LookupTableAccounts m) (ProcessDelay m).
Definition set_MeteoraPoolList (l : list string) (m : MintConfig) : MintConfig :=
  MkMintConfig (Mint m) (PumpPoolList m) (RaydiumPoolList m) (RaydiumCPPoolList m)
    l (LookupTableAccounts m) (ProcessDelay m).

Section Tracker.
Context `{SortSlice}.

(** [FetchHotTokens], part_001 lines 661-676: validation, ranking, top
    ten. *)
Definition rankHotTokens (apiResp : APIResponse) : error + list HotToken.t :=
  if bool_decide (Status apiResp ≠ 1%Z) || bool_decide (length (Data apiResp) = 0)
  then inl "API响应格式无效"
  else
    let tokens := Data apiResp in
    let tokens :=
      sort_Slice (λ ti tj, Qgtb (HotToken.Volume15m ti) (HotToken.Volume15m tj)) tokens in
    let tokens := if bool_decide (length tokens > 10) then take 10 tokens else tokens in
    inr tokens.

(** The accumulator created for a ranked token (lines 683-693). *)
Definition newTokenPoolsInfo (token : HotToken.t) : TokenPoolsInfo.t :=
  TokenPoolsInfo.Mk (HotToken.TargetToken token) (HotToken.TokenSymbol token)
    (HotToken.Volume15m token) [] [] [] [].

(** [UpdateConfig], lines 838-851: how many of the four lists have a pool. *)
Definition poolTypeCount (info : TokenPoolsInfo.t) : nat :=
  let poolTypeCount := 0 in
  let poolTypeCount :=
    if bool_decide (length (TokenPoolsInfo.PumpPools info) > 0)
    then S poolTypeCount else poolTypeCount in
  let poolTypeCount :=
    if bool_decide (length (TokenPoolsInfo.MeteoraLists info) > 0)
    then S poolTypeCount else poolTypeCount in
  let poolTypeCount :=
    if bool_decide (length (TokenPoolsInfo.RaydiumPools info) > 0)
    then S poolTypeCount else poolTypeCount in
  let poolTypeCount :=
    if bool_decide (length (TokenPoolsInfo.RaydiumCPPools info) > 0)
    then S poolTypeCount else poolTypeCount in
  poolTypeCount.

(** The body of the loop at lines 834-864: whether [info] is appended. *)
Definition keepTokenInfo (info : TokenPoolsInfo.t) : bool :=
  if negb (strings_Contains (TokenPoolsInfo.TokenAddress info) "pump")
  then false                                   (* continue *)
  else bool_decide (poolTypeCount info ≥ 2).

(** [h.TokenPoolsInfos] after the sort at lines 828-830. *)
Definition sortTokenPoolsInfos (infos : list TokenPoolsInfo.t) : list TokenPoolsInfo.t :=
  sort_Slice (λ i j, Qgtb (TokenPoolsInfo.Volume15m i) (TokenPoolsInfo.Volume15m j)) infos.

(** [validTokenInfos] as it stands at line 875. *)
Definition validTokenInfos (infos : list TokenPoolsInfo.t) : list TokenPoolsInfo.t :=
  let valid := List.filter keepTokenInfo (sortTokenPoolsInfos infos) in
  if bool_decide (length valid > 2) then take 2 valid else valid.

(** The search at lines 883-889: the first route of the snapshot with this
    mint. *)
Fixpoint existingConfig (l : list MintConfig) (addr : string) : option MintConfig :=
  match l with
  | [] => None
  | m :: rest => if String.eqb (Mint m) addr then Some m else existingConfig rest addr
  end.

(** One turn of the loop at lines 881-920. *)
Definition mergeMintConfig (snapshot : list MintConfig) (info : TokenPoolsInfo.t)
    : MintConfig :=
  let mintConfig :=
    match existingConfig snapshot (TokenPoolsInfo.TokenAddress info) with
    | Some existing => existing
    | None => MkMintConfig (TokenPoolsInfo.TokenAddress info) [] [] [] [] [] 1000
    end in
  let mintConfig :=
    if bool_decide (length (TokenPoolsInfo.PumpPools info) > 0)
    then set_PumpPoolList (TokenPoolsInfo.PumpPools info) mintConfig else mintConfig in
  let mintConfig :=
    if bool_decide (length (TokenPoolsInfo.MeteoraLists info) > 0)
    then set_MeteoraPoolList (TokenPoolsInfo.MeteoraLists info) mintConfig else mintConfig in
  let mintConfig :=
    if bool_decide (length (TokenPoolsInfo.RaydiumPools info) > 0)
    then set_RaydiumPoolList (TokenPoolsInfo.RaydiumPools info) mintConfig else mintConfig in
  let mintConfig :=
    if bool_decide (length (TokenPoolsInfo.RaydiumCPPools info) > 0)
    then set_RaydiumCPPoolList (TokenPoolsInfo.RaydiumCPPools info) mintConfig
    else mintConfig in
  mintConfig.

Definition newMintConfigs (snapshot : list MintConfig) (valid : list TokenPoolsInfo.t)
    : list MintConfig :=
  mergeMintConfig snapshot <$> valid.

(** [UpdateConfig], lines 820-923, on the value of the snapshot
    [h.MevConfig.Copy()]: the configuration that goes on to be saved, or
    [None] where the method returns without updating. *)
Definition HotTokensTracker_UpdateConfig (snapshot : Config)
    (infos : list TokenPoolsInfo.t) : option Config :=
  if bool_decide (length infos = 0) then None else
  if bool_decide (length (List.filter keepTokenInfo (sortTokenPoolsInfos infos)) = 0)
  then None
  else
    Some (set_MintConfigList
            (newMintConfigs (MintConfigList snapshot) (validTokenInfos infos)) snapshot).

End Tracker.

(** *** A sort that meets the contract of [sort.Slice]

    Insertion sort as the runtime runs it on short slices (each element is
    moved left while it is [less] than its neighbour): it keeps the input
    order of ties.  The lists below hold the sorted prefix backwards. *)
Fixpoint insert_left {A} (less : A → A → bool) (x : A) (rprefix : list A) : list A :=
  match rprefix with
  | [] => [x]
  | y :: rest => if less x y then y :: insert_left less x rest else x :: y :: rest
  end.

Definition insertionSort {A} (less : A → A → bool) (l : list A) : list A :=
  reverse (foldl (λ rprefix x, insert_left less x rprefix) [] l).

(** * Properties

    ** Vocabulary of the statements *)

(** *** Traces *)

(** The events that lock, move the flag, or call the worker handle. *)
Definition lifecycle_event (ev : Event) : bool :=
  match ev with
  | ELock | EUnlock | ESetManuallyStopped _ | EProcStart | EProcStop => true
  | _ => false
  end.

Definition lifecycle (tr : list Event) : list Event := List.filter lifecycle_event tr.

Definition is_call (ev : Event) : bool :=
  match ev with EProcStop | EProcStart => true | _ => false end.

(** The calls of the worker handle a run makes, in order. *)
Definition worker_calls (tr : list Event) : list Event := List.filter is_call tr.

Definition calls_start (tr : list Event) : bool :=
  existsb (λ ev, match ev with EProcStart => true | _ => false end) tr.


(** The rule "set the flag before a stop call, clear it immediately before
    a start call, all of it under the lock", checked along a trace.
    [locked]: a.mu is held; [flag]: the last value written to the flag since
    the lock was taken; [prev]: the event just before. *)
Fixpoint disciplined (locked : bool) (flag : option bool) (prev : option Event)
    (tr : list Event) : bool :=
  match tr with
  | [] => true
  | ev :: rest =>
      match ev with
      | ESetManuallyStopped _ => locked
      | EProcStop =>
          locked && match flag with Some true => true | _ => false end
      | EProcStart =>
          locked && match prev with Some (ESetManuallyStopped false) => true | _ => false end
      | _ => true
      end
      && disciplined
           (match ev with ELock => true | EUnlock => false | _ => locked end)
           (match ev with ELock => None | ESetManuallyStopped b => Some b | _ => flag end)
           (Some ev) rest
  end.

Definition keeps_discipline (m : M (option error)) (e : Env) (w : World) : bool :=
  disciplined false None None (trace_of (m e w)).

(** [tr] happened, then the run [r]. *)
Definition after_events {A} (tr : list Event) (r : Res A) : Res A :=
  match r with
  | Done a w t => Done a w (tr ++ t)
  | Blocked w t => Blocked w (tr ++ t)
  | Panicked w t => Panicked w (tr ++ t)
  end.

(** *** The supervisor *)

(** The persist step of [UpdateConfig] goes through. *)
Definition persists (e : Env) (w : World) : Prop :=
  mevConfigPath (agent w) ≠ "" ∧ marshal_err e = None ∧ write_result e = WriteOk.

(** [StartWorker] and [RestartWorker]. *)
Definition restart_label (l : Label) : bool :=
  match l with LStartMEVBot | LRestartMEVBot => true | _ => false end.

(** The two halves of a health-check tick. *)
Definition tick_label (l : Label) : bool :=
  match l with LTickRead _ | LTickAct _ => true | _ => false end.

(** No monitor stands between its read lock and its write lock. *)
Definition no_tick_in_flight (w : World) : Prop := MonDecided ∉ monitors w.

(** *** The control socket *)

Definition status_response : Frame :=
  FResponse (MkResponse "status" None (Some "状态检查已触发") None).


(** *** The tracker *)

(** Descending by volume: no element is followed by a larger one. *)
Definition descending {A} (vol : A → Q) : list A → Prop :=
  StronglySorted (λ a b, (vol b <= vol a)%Q).

(** The marker of the one asset family the pipeline lets through. *)
Definition has_marker (addr : string) : Prop :=
  ∃ m, String.substring m (String.length "pump") addr = "pump".

Definition categories (info : TokenPoolsInfo.t) : list (list string) :=
  [TokenPoolsInfo.PumpPools info; TokenPoolsInfo.MeteoraLists info;
   TokenPoolsInfo.RaydiumPools info; TokenPoolsInfo.RaydiumCPPools info].

(** In how many of the four categories the candidate has a pool. *)
Definition populated (info : TokenPoolsInfo.t) : nat :=
  length (filter (λ l, l ≠ []) (categories info)).

Definition eligible (info : TokenPoolsInfo.t) : Prop :=
  has_marker (TokenPoolsInfo.TokenAddress info) ∧ 2 ≤ populated info.

(** What a category of a merged route holds: the pools found in this cycle,
    or what was there when none were found. *)
Definition overwritten (found previous : list string) : list string :=
  match found with [] => previous | _ => found end.

Definition symbols (r : error + list HotToken.t) : list string :=
  match r with inr l => HotToken.TokenSymbol <$> l | inl _ => [] end.

(** ** Concrete inputs *)

Definition demoMint : MintConfig :=
  MkMintConfig "So1pump" ["poolA"] [] [] [] ["lut1"] 500.

Definition liveConfig : Config :=
  set_MintConfigList [demoMint] (set_RPC_URL "https://rpc.one" zeroConfig).

(** Every call out of the program succeeds. *)
Definition okEnv : Env := MkEnv false None 4242 None None false None WriteOk None 0.
(** The configuration file cannot be opened for writing. *)
Definition deniedEnv : Env :=
  MkEnv false None 4242 None None false None (OpenFailed "permission denied") None 0.
(** The executable has been removed. *)
Definition noExeEnv : Env := MkEnv true None 4242 None None false None WriteOk None 0.

Definition emptyWorld : World :=
  MkWorld (MkAgent "" 0 None false false false (make_chan 1))
    (MkProcessManager "" "" [] CmdNil false)
    (MkWebSocketServer "" ∅ (make_chan 100) false 0) ∅ ∅ [] 0.

(** The agent as [NewAgent] builds it: its configuration lies at location 3. *)
Definition freshWorld : World :=
  match NewAgent "config.toml" "config.yaml" (inr liveConfig)
          (inr (MkFlashAgentConfig "ave" "secret"))
          {["config.toml" := FileToml liveConfig]} with
  | inr w => w
  | inl _ => emptyWorld
  end.

(** The same agent with its [mevConfigPath] filled in. *)
Definition configuredWorld : World :=
  with_agent (set_mevConfigPath "config.toml") freshWorld.

Definition okRun (ls : list Label) : list (Label * Env) := (λ l, (l, okEnv)) <$> ls.

Definition world_after (ls : list (Label * Env)) (w : World) : World :=
  match exec ls w with Some (w', _) => w' | None => w end.
Definition events_after (ls : list (Label * Env)) (w : World)
    : list (Label * list Event) :=
  match exec ls w with Some (_, trs) => trs | None => [] end.

(** [a.Start()] has run: worker, socket and monitor 0 are up. *)
Definition startedWorld : World := world_after (okRun [LStart]) freshWorld.

(** One status request is waiting in [statusChecks]. *)
Definition pendingWorld : World :=
  with_agent (set_statusChecks (Chan [tt] 1)) freshWorld.

Definition statusCommand : Command := MkCommand "bot" "status" "" "" "".
Definition rpcCommand : Command := MkCommand "bot" "updateRPC" "" "" "https://rpc.two".

(** A codec for running the handlers: payloads are taken as they are. *)
Definition plainCodec : Codec :=
  MkCodec string (λ s, inr s) (λ _, inl "json: cannot unmarshal")
    (λ _, inl "json: cannot unmarshal") (λ s, inr s) (λ s, inr s)
    (λ _, inl "json: cannot unmarshal") (λ v, v) (λ _ _ _ v, (v, None)).

Definition token (symbol : string) (volume : Q) : HotToken.t :=
  HotToken.Mk (symbol +:+ "/SOL") "solana" "pump" (symbol +:+ "pump") symbol volume volume.

(** ** Running method bodies in proofs *)

Arguments chan_send : simpl never.
Arguments chan_recv : simpl never.
Arguments read_config : simpl never.
Arguments new_config : simpl never.
Arguments new_configH : simpl never.
Arguments new_mint : simpl never.
Arguments alloc : simpl never.

Ltac go_unfold :=
  unfold Agent_Start, Agent_Stop, Agent_StopMEVBot, Agent_StartMEVBot,
    Agent_RestartMEVBot, Agent_UpdateConfig, monitor_tick_read, monitor_tick_act,
    monitor_status_check, locked, setManuallyStopped, SaveToFile, os_WriteFile,
    ProcessManager_Start, ProcessManager_Stop, ProcessManager_IsRunning,
    exit_observer_may_run, exit_observer, BroadcastMessage,
    WebSocketServer_Start, WebSocketServer_Stop,
    bind, ret, emit, modify, get, ask, block, panic in *.

Ltac go_destruct_world w :=
  destruct w as [[?path ?cfg ?ac ?running ?manual ?cancelled ?checks]
                 [?pname ?exe ?args ?cmd ?prunning]
                 [?addr ?clients ?bcast ?server ?fanouts] ?h ?d ?mons ?trk].

Ltac go_destruct_env e :=
  destruct e as [?noexe ?spawn ?pid ?sig ?kill ?exitb ?marshal ?write ?close ?spare].

(** One case split of the run on the left of a goal [run = r -> _]. *)
Ltac go_case :=
  match goal with
  | |- ?lhs = _ → _ =>
      match lhs with
      | context [match ?x with _ => _ end] => is_var x; destruct x
      | context [match chan_send ?m ?c with _ => _ end] => destruct (chan_send m c) eqn:?
      | context [match chan_recv ?c with _ => _ end] => destruct (chan_recv c) eqn:?
      | context [match read_config ?h ?p with _ => _ end] =>
          destruct (read_config h p) eqn:?
      | context [decide (?a = ?b)] => destruct (decide (a = b))
      | context [?a && _] => is_var a; destruct a
      | context [negb ?a] => is_var a; destruct a
      end
  end.

Ltac go_run := go_unfold; simpl; repeat (go_case; simpl).

(** The same, using what is known of [read_config] and closing the cases
    that contradict a hypothesis. *)
Ltac go_run_known :=
  go_unfold; simpl;
  repeat (first [ match goal with
                  | H : read_config ?h ?p = _ |- context [read_config ?h ?p] => rewrite H
                  end
                | go_case ]; simpl; try done).

(** All the ways [m e w] can run; the goal is left with the result in place
    of the run. *)
Ltac go_eval m e w :=
  let r := fresh "r" in
  let Hr := fresh "Hr" in
  remember (m e w) as r eqn:Hr; symmetry in Hr; revert Hr;
  go_destruct_world w; go_destruct_env e;
  go_run; intros <-.

Lemma after_events_nil {A} (r : Res A) : after_events [] r = r.
Proof. by destruct r. Qed.

Lemma bind_Done {A B} (m : M A) (k : A → M B) e w a w1 tr1 :
  m e w = Done a w1 tr1 → bind m k e w = after_events tr1 (k a e w1).
Proof. unfold bind. intros ->. by destruct (k a e w1). Qed.

Lemma bind_get {A} (k : World → M A) e w : bind get k e w = k w e w.
Proof. unfold bind, get. by destruct (k w e w). Qed.

Lemma bind_ask {A} (k : Env → M A) e w : bind ask k e w = k e e w.
Proof. unfold bind, ask. by destruct (k e e w). Qed.

Lemma bind_modify {A} f (k : unit → M A) e w : bind (modify f) k e w = k tt e (f w).
Proof. unfold bind, modify. by destruct (k tt e (f w)). Qed.

Lemma bind_ret {A B} (a : A) (k : A → M B) e w : bind (ret a) k e w = k a e w.
Proof. unfold bind, ret. by destruct (k a e w). Qed.

Lemma bind_assoc {A B C} (m : M A) (f : A → M B) (k : B → M C) e w :
  bind (bind m f) k e w = bind m (λ a, bind (f a) k) e w.
Proof.
  unfold bind. destruct (m e w) as [a w1 tr1| |]; [|done..].
  destruct (f a e w1) as [b w2 tr2| |]; [|done..].
  destruct (k b e w2); by rewrite app_assoc.
Qed.

Ltac go_norm :=
  repeat first [ rewrite bind_assoc | rewrite bind_get | rewrite bind_ask
               | rewrite bind_modify | rewrite bind_ret ].

(** ** The supervisor *)

(** *** The flag and the lifecycle calls *)

(** C2, as the code has it.  [Stop] and [StopMEVBot] set [manuallyStopped]
    before their stop call, [StartMEVBot] clears it immediately before its
    start call.  [RestartMEVBot] calls stop first and sets the flag only when
    that call has returned without error, then calls start and clears the
    flag only when that call has returned without error.  [UpdateConfig]
    never writes the flag (its run stops after the lock when the
    configuration cannot be read, after the failed persist, or goes
    through stop and start).  Every flag write and every call lies between
    the method's Lock and Unlock. *)
Theorem flag_discipline (e : Env) (w : World) :
  keeps_discipline Agent_Stop e w = true ∧
  keeps_discipline Agent_StopMEVBot e w = true ∧
  keeps_discipline Agent_StartMEVBot e w = true ∧
  (∃ rest,
     lifecycle (trace_of (Agent_RestartMEVBot e w)) = ELock :: EProcStop :: rest ∧
     (rest = [EUnlock] ∨
      rest = [ESetManuallyStopped true; EProcStart; EUnlock] ∨
      rest = [ESetManuallyStopped true; EProcStart; ESetManuallyStopped false; EUnlock] ∨
      rest = [ESetManuallyStopped true; EProcStart; ESetManuallyStopped false])) ∧
  (∀ p,
     manuallyStopped (agent (world_of (Agent_UpdateConfig p e w)))
       = manuallyStopped (agent w) ∧
     (lifecycle (trace_of (Agent_UpdateConfig p e w)) = [ELock] ∨
      lifecycle (trace_of (Agent_UpdateConfig p e w)) = [ELock; EUnlock] ∨
      lifecycle (trace_of (Agent_UpdateConfig p e w))
        = [ELock; EProcStop; EProcStart; EUnlock] ∨
      lifecycle (trace_of (Agent_UpdateConfig p e w)) = [ELock; EProcStop; EProcStart])).
Proof.
  unfold keeps_discipline.
  split; [|split; [|split; [|split]]].
  - go_eval Agent_Stop e w; reflexivity.
  - go_eval Agent_StopMEVBot e w; reflexivity.
  - go_eval Agent_StartMEVBot e w; reflexivity.
  - go_eval Agent_RestartMEVBot e w; eexists; (split; [reflexivity|]); auto.
  - intros p. go_eval (Agent_UpdateConfig p) e w; (split; [reflexivity|]); auto.
Qed.

(** C2 as stated fails: [RestartMEVBot] calls stop before it sets the flag
    and start before it clears it, and [UpdateConfig] calls both without
    touching the flag. *)
Lemma restart_and_reconfigure_break_discipline :
  keeps_discipline Agent_RestartMEVBot okEnv startedWorld = false ∧
  lifecycle (trace_of (Agent_RestartMEVBot okEnv startedWorld))
    = [ELock; EProcStop; ESetManuallyStopped true; EProcStart;
       ESetManuallyStopped false; EUnlock] ∧
  keeps_discipline (Agent_UpdateConfig 3) okEnv configuredWorld = false ∧
  lifecycle (trace_of (Agent_UpdateConfig 3 okEnv configuredWorld))
    = [ELock; EProcStop; EProcStart; EUnlock].
Proof. vm_compute. repeat split; reflexivity. Qed.

(** The three conforming methods, run on the started agent. *)
Example flag_discipline_runs :
  trace_of (Agent_StopMEVBot okEnv startedWorld)
    = [ELock; ESetManuallyStopped true; EProcStop; ESignalTerm 4242;
       EBroadcast "MEV Bot已手动停止"; EUnlock] ∧
  trace_of (Agent_StartMEVBot okEnv startedWorld)
    = [ELock; ESetManuallyStopped false; EProcStart;
       EBroadcast "MEV Bot已手动启动"; EUnlock] ∧
  trace_of (Agent_Stop okEnv startedWorld)
    = [ELock; ESetManuallyStopped true; ECancel; EProcStop; ESignalTerm 4242;
       EWsStop; EUnlock].
Proof. vm_compute. repeat split; reflexivity. Qed.

(** *** Reconfigure *)

Lemma UpdateConfig_persisted p e w v :
  read_config (mem w) p = Some v →
  persists e w →
  worker_calls (trace_of (Agent_UpdateConfig p e w)) = [EProcStop; EProcStart] ∧
  disk (world_of (Agent_UpdateConfig p e w)) =
    <[mevConfigPath (agent w) := FileToml v]> (disk w) ∧
  mevConfig (agent (world_of (Agent_UpdateConfig p e w))) = p ∧
  mem (world_of (Agent_UpdateConfig p e w)) = mem w ∧
  mevConfigPath (agent (world_of (Agent_UpdateConfig p e w))) = mevConfigPath (agent w).
Proof.
  intros Hread (Hpath & Hm & Hw).
  remember (Agent_UpdateConfig p e w) as r eqn:Hr. symmetry in Hr. revert Hr.
  go_destruct_world w; go_destruct_env e. simpl in *. subst.
  go_run_known; intros <-; done.
Qed.





(** A new configuration for the examples: another RPC endpoint, stored at
    the next free location of the configured agent. *)
Definition nextConfig : Config := set_RPC_URL "https://rpc.two" liveConfig.
Definition nextWorld : World :=
  with_mem (λ h, (new_config nextConfig 0 h).2) configuredWorld.
Definition nextPtr : loc := (new_config nextConfig 0 (mem configuredWorld)).1.


(** Both cases of the theorem occur: the file cannot be opened; the file is
    written and the executable is missing. *)
Example UpdateConfig_failures :
  (λ r, (match r with Done o _ _ => o | _ => None end,
         read_config (mem (world_of r)) (mevConfig (agent (world_of r))),
         disk (world_of r) !! "config.toml", worker_calls (trace_of r)))
    (Agent_UpdateConfig nextPtr deniedEnv nextWorld)
  = (Some "permission denied", Some liveConfig, Some (FileToml liveConfig), []) ∧
  (λ r, (match r with Done o _ _ => o | _ => None end,
         read_config (mem (world_of r)) (mevConfig (agent (world_of r))),
         disk (world_of r) !! "config.toml", worker_calls (trace_of r),
         p_isRunning (proc (world_of r))))
    (Agent_UpdateConfig nextPtr noExeEnv nextWorld)
  = (Some "找不到可执行文件: ./smb-onchain", Some nextConfig, Some (FileToml nextConfig),
     [EProcStop; EProcStart], false).
Proof. vm_compute. split; reflexivity. Qed.

(** *** The health check and the manual stop *)

Lemma not_elem_of_insert_pc (ms : list MonitorPC) i pc :
  pc ≠ MonDecided → MonDecided ∉ ms → MonDecided ∉ <[i := pc]> ms.
Proof.
  intros Hpc. revert i. induction ms as [|m ms IH]; intros i Hms; [done|].
  apply not_elem_of_cons in Hms as [Hm Hms].
  destruct i; simpl; apply not_elem_of_cons; split; auto.
Qed.

Lemma not_elem_of_snoc_pc (ms : list MonitorPC) :
  MonDecided ∉ ms → MonDecided ∉ ms ++ [MonSelect].
Proof.
  intros Hms [Hin|Hin]%elem_of_app; [done|].
  by apply list_elem_of_singleton in Hin.
Qed.

(** A step other than [StartMEVBot] and [RestartMEVBot] keeps the flag set
    and no tick in flight; if it is a tick, it is a read that decides not to
    restart. *)
Lemma step_keeps_manual_stop l e w w' tr :
  restart_label l = false →
  manuallyStopped (agent w) = true →
  no_tick_in_flight w →
  step l e w = Some (w', tr) →
  manuallyStopped (agent w') = true ∧ no_tick_in_flight w' ∧
  (tick_label l = true → calls_start tr = false ∧ ∃ i, l = LTickRead i).
Proof.
  unfold no_tick_in_flight. intros Hl Hman Hfl.
  destruct l; try done; unfold step, finished.
  all: go_destruct_world w; go_destruct_env e; simpl in *; subst.
  - go_run; intros [= <- <-]; simpl; repeat split; try done;
      by apply not_elem_of_snoc_pc.
  - go_run; intros [= <- <-]; simpl; repeat split; done.
  - go_run; intros [= <- <-]; simpl; repeat split; done.
  - go_run; intros [= <- <-]; simpl; repeat split; done.
  - go_run; intros [= <- <-]; simpl; repeat split; done.
  - destruct (mons !! i) as [[]|] eqn:Hi; try done.
    go_run; intros [= <- <-]; simpl; repeat split; eauto.
  - destruct (mons !! i) as [[]|] eqn:Hi; try done.
    exfalso. apply Hfl. by eapply list_elem_of_lookup_2.
  - destruct (mons !! i) as [[]|] eqn:Hi; try done.
    go_run; intros [= <- <-]; simpl; repeat split; done.
  - destruct (mons !! i) as [[]|] eqn:Hi; try done.
    destruct cancelled; intros [= <- <-]; simpl; repeat split; try done.
    by apply not_elem_of_insert_pc.
  - destruct fanouts; [done|].
    go_run; intros [= <- <-]; simpl; repeat split; done.
Qed.

Lemma exec_keeps_manual_stop ls w w' trs :
  Forall (λ le : Label * Env, restart_label le.1 = false) ls →
  manuallyStopped (agent w) = true →
  no_tick_in_flight w →
  exec ls w = Some (w', trs) →
  manuallyStopped (agent w') = true ∧ no_tick_in_flight w' ∧
  Forall (λ lt : Label * list Event,
            tick_label lt.1 = true → calls_start lt.2 = false ∧ ∃ i, lt.1 = LTickRead i) trs.
Proof.
  intros Hls. revert w w' trs.
  induction Hls as [|[l e] ls Hl Hls IH]; intros w w' trs Hman Hfl; simpl.
  { intros [= <- <-]. by repeat split. }
  destruct (step l e w) as [[w1 tr]|] eqn:Hstep; [|done].
  destruct (exec ls w1) as [[w2 trs']|] eqn:Hexec; [|done].
  intros [= <- <-].
  destruct (step_keeps_manual_stop l e w w1 tr Hl Hman Hfl Hstep) as (Hman1 & Hfl1 & Htick).
  destruct (IH w1 w2 trs' Hman1 Hfl1 Hexec) as (Hman2 & Hfl2 & Hticks).
  repeat split; [done..|]. by constructor.
Qed.

Lemma exec_app ls1 ls2 w w' trs :
  exec (ls1 ++ ls2) w = Some (w', trs) →
  ∃ wm trs1 trs2, exec ls1 w = Some (wm, trs1) ∧ exec ls2 wm = Some (w', trs2) ∧
                  trs = trs1 ++ trs2.
Proof.
  revert w w' trs. induction ls1 as [|[l e] ls1 IH]; intros w w' trs; simpl.
  { intros Hex. by exists w, [], trs. }
  destruct (step l e w) as [[w1 tr]|]; [|done].
  destruct (exec (ls1 ++ ls2) w1) as [[w2 trs']|] eqn:Hex; [|done].
  intros [= <- <-]. apply IH in Hex as (wm & trs1 & trs2 & -> & Hex2 & ->).
  by exists wm, ((l, tr) :: trs1), trs2.
Qed.

(** What the code does guarantee of a manual stop.  Let [StopMEVBot] run
    while no health-check tick stands between the tick's read lock and the
    tick's write lock.  Then in every run that follows and has no
    [StartMEVBot] and no [RestartMEVBot] (whatever else it has: other
    methods, exits of the child, ticks, status checks), [manuallyStopped] is
    true at every point and every tick ends at its read without calling the
    worker's Start.  In any state, a tick goes on to the write lock and
    Start exactly when its read saw the worker not running and the flag
    false; nothing is read again under the write lock. *)
Theorem manual_stop_survives_ticks e w w1 tr1 ls w2 trs :
  no_tick_in_flight w →
  step LStopMEVBot e w = Some (w1, tr1) →
  Forall (λ le : Label * Env, restart_label le.1 = false) ls →
  exec ls w1 = Some (w2, trs) →
  (* the flag is set, and stays set at every point of the run *)
  manuallyStopped (agent w1) = true ∧
  (∀ before after, ls = before ++ after →
     ∃ wm trsm, exec before w1 = Some (wm, trsm) ∧ manuallyStopped (agent wm) = true) ∧
  (* no tick reaches the start path: every tick ends at its read *)
  Forall (λ lt : Label * list Event,
            tick_label lt.1 = true → calls_start lt.2 = false ∧ ∃ i, lt.1 = LTickRead i) trs ∧
  (* what a tick's read decides *)
  (∀ i e' w' w'' tr',
     step (LTickRead i) e' w' = Some (w'', tr') →
     calls_start tr' = false ∧
     (monitors w'' !! i = Some MonDecided ↔
      p_isRunning (proc w') = false ∧ manuallyStopped (agent w') = false)) ∧
  (∀ i e' w' w'' tr',
     step (LTickAct i) e' w' = Some (w'', tr') →
     monitors w' !! i = Some MonDecided ∧ calls_start tr' = true).
Proof.
  intros Hfl Hstop Hls Hexec.
  assert (Hw1 : manuallyStopped (agent w1) = true ∧ no_tick_in_flight w1).
  { revert Hstop Hfl. unfold step, finished, no_tick_in_flight.
    go_destruct_world w; go_destruct_env e.
    go_run; intros [= <- <-]; done. }
  destruct Hw1 as [Hman1 Hfl1].
  split; [done|]. split; [|split; [|split]].
  - intros before after ->.
    apply exec_app in Hexec as (wm & trs1 & trs2 & Hb & _ & _).
    apply Forall_app in Hls as [Hb' _].
    exists wm, trs1. split; [done|].
    by eapply exec_keeps_manual_stop.
  - by eapply exec_keeps_manual_stop.
  - intros i e' w' w'' tr'. unfold step.
    destruct (monitors w' !! i) as [[]|] eqn:Hi; try done.
    revert Hi. go_destruct_world w'; go_destruct_env e'. simpl. intros Hi.
    assert (Hlt : i < length mons) by (by eapply lookup_lt_Some).
    go_run; intros [= <- <-]; simpl; (split; [done|]);
      rewrite ?list_lookup_insert_eq by done; rewrite ?Hi;
      (split; [intros Hd|intros [Hr Hm]]); done.
  - intros i e' w' w'' tr'. unfold step.
    destruct (monitors w' !! i) as [[]|]; try done.
    go_destruct_world w'; go_destruct_env e'.
    go_run; intros [= <- <-]; done.
Qed.

Lemma manual_stop_survives_ticks_witness :
  let ls := okRun [LProcExit; LTickRead 0; LUpdateConfig 3; LTickRead 0] in
  let w1 := world_after (okRun [LStopMEVBot]) startedWorld in
  manuallyStopped (agent w1) = true ∧
  Forall (λ lt : Label * list Event,
            tick_label lt.1 = true → calls_start lt.2 = false ∧ ∃ i, lt.1 = LTickRead i)
         (events_after ls w1).
Proof.
  intros ls w1.
  destruct (manual_stop_survives_ticks okEnv startedWorld w1
              [ELock; ESetManuallyStopped true; EProcStop;
               ESignalTerm 4242; EBroadcast "MEV Bot已手动停止"; EUnlock]
              ls (world_after ls w1) (events_after ls w1))
    as (H1 & _ & H3 & _).
  - unfold no_tick_in_flight. vm_compute. intros Hin.
    apply list_elem_of_singleton in Hin. discriminate Hin.
  - vm_compute. reflexivity.
  - vm_compute. repeat constructor.
  - vm_compute. reflexivity.
  - exact (conj H1 H3).
Defined.

(** C1 fails in the code.  The monitor reads [IsRunning] and
    [manuallyStopped] under the read lock, releases it, and takes the write
    lock to start the worker without reading the flag again.  With the
    worker gone, a tick that has done its read before [StopMEVBot] takes
    the lock goes on, after [StopMEVBot] has returned, to start the worker:
    at the end the flag is set and the worker runs, started by the tick. *)
Theorem stale_tick_starts_worker_after_manual_stop :
  (λ r : World * list (Label * list Event),
     (manuallyStopped (agent r.1), p_isRunning (proc r.1), last r.2))
    <$> exec (okRun [LStart; LProcExit; LTickRead 0; LStopMEVBot; LTickAct 0]) freshWorld
  = Some (true, true,
          Some (LTickAct 0,
                [ELock; EProcStart; ESpawn 4242; EBroadcast "MEV Bot已自动重启"; EUnlock])).
Proof. vm_compute. reflexivity. Qed.

(** *** The handshake of the control socket *)

(** C9, as the code has it.  With an agent configuration present: a
    request whose token differs from a configured, non-empty verification
    token gets the 401 response and nothing else (no upgrade, no entry in
    the client set, no welcome frame).  A request that passes the check is
    upgraded, added to the client set, sent the welcome frame and handed to
    [handleMessages], provided the upgrade succeeds; when the upgrade fails
    the handler returns and has registered and written nothing. *)
Theorem handshake_checks_token (r : Request) (e : Env) (w : World) (ac : FlashAgentConfig) :
  agentConfig (agent w) = Some ac →
  (* a configured token that the request does not carry *)
  (Wechat_VerifyToken ac ≠ "" → req_token r ≠ Wechat_VerifyToken ac →
     handleConnections r e w = Done tt w [EHttpError "Unauthorized" 401]) ∧
  (* no token configured, or the right one *)
  (Wechat_VerifyToken ac = "" ∨ req_token r = Wechat_VerifyToken ac →
     (∀ c, req_upgrade r = inr c →
        handleConnections r e w =
          Done tt (with_ws (λ s, set_ws_clients ({[c]} ∪ ws_clients s) s) w)
            [EUpgrade c; ERegister c; EWriteJSON c (FSystem "已连接到MEV Bot代理");
             EGoHandleMessages c]) ∧
     (∀ err, req_upgrade r = inl err → handleConnections r e w = Done tt w [])).
Proof.
  intros Hac. unfold handleConnections, bind, get, emit, modify, ret. rewrite Hac.
  split.
  - intros Hne Hdiff. by rewrite !bool_decide_eq_true_2.
  - intros Hok.
    assert (bool_decide (Wechat_VerifyToken ac ≠ "")
            && bool_decide (req_token r ≠ Wechat_VerifyToken ac) = false) as ->.
    { destruct Hok as [Hemp|Heq].
      - by rewrite bool_decide_eq_false_2 by (by intros ?).
      - rewrite (bool_decide_eq_false_2 (req_token r ≠ _)) by (by intros ?).
        apply andb_false_r. }
    split.
    + by intros c ->.
    + by intros err ->.
Qed.

Lemma handshake_checks_token_witness :
  handleConnections (MkRequest "guess" (inr 7)) okEnv freshWorld
    = Done tt freshWorld [EHttpError "Unauthorized" 401] ∧
  handleConnections (MkRequest "secret" (inr 7)) okEnv freshWorld
    = Done tt (with_ws (λ s, set_ws_clients ({[7]} ∪ ws_clients s) s) freshWorld)
        [EUpgrade 7; ERegister 7; EWriteJSON 7 (FSystem "已连接到MEV Bot代理");
         EGoHandleMessages 7].
Proof.
  split.
  - destruct (handshake_checks_token (MkRequest "guess" (inr 7)) okEnv freshWorld
                (MkFlashAgentConfig "ave" "secret")) as [Hreject _].
    + reflexivity.
    + apply Hreject; simpl; discriminate.
  - destruct (handshake_checks_token (MkRequest "secret" (inr 7)) okEnv freshWorld
                (MkFlashAgentConfig "ave" "secret")) as [_ Haccept].
    + reflexivity.
    + destruct Haccept as [Hup _]; [by right|]. by apply Hup.
Defined.

(** C9 as the spec words it fails: the right token on a request whose
    upgrade fails (a plain HTTP request, say) registers no client and
    writes no welcome frame. *)
Lemma matching_token_without_upgrade :
  handleConnections (MkRequest "secret" (inl "websocket: not a websocket handshake"))
    okEnv freshWorld
  = Done tt freshWorld [].
Proof. reflexivity. Qed.

(** Without an agent configuration the handler dereferences nil. *)
Example handshake_without_agent_config (r : Request) :
  handleConnections r okEnv (with_agent (set_agentConfig None) freshWorld)
  = Panicked (with_agent (set_agentConfig None) freshWorld) [].
Proof. reflexivity. Qed.

(** *** The status command *)

Section StatusCommand.
Context `{Codec}.

(** C3, as the code has it.  [statusChecks] has capacity 1 and the handler
    sends to it with a plain send.  With nothing pending the check is queued
    and the response written.  With one pending the handler waits at the
    send: it writes no response and drops nothing; once a monitor has taken
    the pending check, the same command queues its own check and writes the
    response. *)
Theorem status_request_waits_for_room (c : conn) (cmd : Command) (e : Env) (w : World) :
  cmd_Type cmd = "bot" → cmd_Action cmd = "status" →
  chan_cap (statusChecks (agent w)) = 1 →
  (* nothing pending: the check is queued and the response written *)
  (chan_buf (statusChecks (agent w)) = [] →
     handleCommand c cmd e w =
       Done tt (with_agent (set_statusChecks (Chan [tt] 1)) w) [EWriteJSON c status_response]) ∧
  (* one pending: the send waits; nothing is written, nothing is dropped *)
  (chan_buf (statusChecks (agent w)) = [tt] →
     handleCommand c cmd e w = Blocked w [] ∧
     ∀ i e' w' tr,
       step (LStatusCheck i) e' w = Some (w', tr) →
       handleCommand c cmd e w' =
         Done tt (with_agent (set_statusChecks (Chan [tt] 1)) w') [EWriteJSON c status_response]).
Proof.
  intros Hty Hact Hcap.
  assert (Hrun : ∀ w0, chan_cap (statusChecks (agent w0)) = 1 →
    chan_buf (statusChecks (agent w0)) = [] →
    handleCommand c cmd e w0 =
      Done tt (with_agent (set_statusChecks (Chan [tt] 1)) w0) [EWriteJSON c status_response]).
  { intros w0 Hc Hb. unfold handleCommand. rewrite Hty, Hact. simpl.
    unfold bind, get, chan_send. by rewrite Hb, Hc. }
  split; [by apply Hrun|].
  intros Hb. split.
  - unfold handleCommand. rewrite Hty, Hact. simpl.
    unfold bind, get, chan_send. by rewrite Hb, Hcap.
  - intros i e' w' tr. unfold step.
    destruct (monitors w !! i) as [[]|]; try done.
    unfold chan_recv. rewrite Hb, Hcap.
    revert Hb Hcap. go_destruct_world w; go_destruct_env e'. simpl. intros Hb Hcap.
    go_run; intros [= <- <-]; by apply Hrun.
Qed.

End StatusCommand.

Lemma status_request_waits_for_room_witness :
  @handleCommand plainCodec 7 statusCommand okEnv freshWorld
    = Done tt pendingWorld [EWriteJSON 7 status_response] ∧
  @handleCommand plainCodec 7 statusCommand okEnv pendingWorld = Blocked pendingWorld [].
Proof.
  split.
  - destruct (@status_request_waits_for_room plainCodec 7 statusCommand okEnv freshWorld)
      as [Hroom _]; [reflexivity..|].
    by apply Hroom.
  - destruct (@status_request_waits_for_room plainCodec 7 statusCommand okEnv pendingWorld)
      as [_ Hfull]; [reflexivity..|].
    by apply Hfull.
Defined.

(** C3 as the spec words it fails: with a check pending the handler does
    not return its response; it is blocked at the send with nothing written;
    after a monitor has consumed the pending check, the handler proceeds
    and the request is queued, not dropped. *)
Lemma pending_status_request_blocks :
  @handleCommand plainCodec 7 statusCommand okEnv
     (world_after (okRun [LStart]) pendingWorld)
    = Blocked (world_after (okRun [LStart]) pendingWorld) [] ∧
  (let w' := world_after (okRun [LStart; LStatusCheck 0]) pendingWorld in
   chan_buf (statusChecks (agent w')) = [] ∧
   chan_buf (statusChecks (agent (world_of (@handleCommand plainCodec 7 statusCommand okEnv w'))))
     = [tt] ∧
   trace_of (@handleCommand plainCodec 7 statusCommand okEnv w')
     = [EWriteJSON 7 status_response]).
Proof. vm_compute. repeat split. Qed.

(** ** The heap: allocation and reading *)
(** *** Allocation only adds cells *)

Lemma alloc_spec c (h : heap) l h' :
  alloc c h = (l, h') → h !! l = None ∧ h' = <[l := c]> h.
Proof.
  unfold alloc. intros [= <- <-]. split; [|done].
  apply not_elem_of_dom, is_fresh.
Qed.

Lemma alloc_subseteq c (h : heap) l h' : alloc c h = (l, h') → h ⊆ h'.
Proof. intros [Hl ->]%alloc_spec. by apply insert_subseteq. Qed.

Lemma new_strings_subseteq l (h : heap) s h' : new_strings l h = (s, h') → h ⊆ h'.
Proof.
  unfold new_strings. destruct l; [by intros [= <- <-]|].
  destruct (alloc _ h) as [a h1] eqn:Ha. intros [= <- <-]. by eapply alloc_subseteq.
Qed.

Lemma new_mint_subseteq m (h : heap) mh h' : new_mint m h = (mh, h') → h ⊆ h'.
Proof.
  unfold new_mint.
  destruct (new_strings (PumpPoolList m) h) as [s1 h1] eqn:H1.
  destruct (new_strings (RaydiumPoolList m) h1) as [s2 h2] eqn:H2.
  destruct (new_strings (RaydiumCPPoolList m) h2) as [s3 h3] eqn:H3.
  destruct (new_strings (MeteoraPoolList m) h3) as [s4 h4] eqn:H4.
  destruct (new_strings (LookupTableAccounts m) h4) as [s5 h5] eqn:H5.
  intros [= <- <-].
  apply new_strings_subseteq in H1, H2, H3, H4, H5.
  by repeat (etrans; [eassumption|]).
Qed.

Lemma new_mint_list_subseteq ms (h : heap) msh h' :
  new_mint_list ms h = (msh, h') → h ⊆ h'.
Proof.
  revert h msh h'. induction ms as [|m ms IH]; intros h msh h'; simpl.
  { by intros [= <- <-]. }
  destruct (new_mint m h) as [mh h1] eqn:H1.
  destruct (new_mint_list ms h1) as [rest h2] eqn:H2.
  intros [= <- <-]. apply new_mint_subseteq in H1. apply IH in H2. by etrans.
Qed.

Lemma new_mints_spec ms spare (h : heap) s h' :
  new_mints ms spare h = (s, h') →
  h ⊆ h' ∧ ∀ a n, s = Slice a n → h !! a = None.
Proof.
  unfold new_mints.
  assert (Hgen : (let '(msh, h0) := new_mint_list ms h in
                  let '(a, h1) := alloc (CMints (msh ++ replicate spare zeroMintH)) h0 in
                  (Slice a (length ms), h1)) = (s, h') →
                 h ⊆ h' ∧ ∀ a n, s = Slice a n → h !! a = None).
  { destruct (new_mint_list ms h) as [msh h0] eqn:H0.
    destruct (alloc _ h0) as [a h1] eqn:H1. intros [= <- <-].
    apply new_mint_list_subseteq in H0.
    pose proof (alloc_subseteq _ _ _ _ H1) as Hsub.
    apply alloc_spec in H1 as [Hfresh _].
    split; [by etrans|]. intros a' n [= <- <-].
    destruct (h !! a) eqn:Hl; [|done].
    by rewrite (lookup_weaken _ _ _ _ Hl H0) in Hfresh. }
  destruct ms; [destruct spare|]; try done.
  intros [= <- <-]. split; [done|]. by intros ???.
Qed.

Lemma new_configH_spec v spare (h : heap) ch h' :
  new_configH v spare h = (ch, h') →
  h ⊆ h' ∧ ∀ a n, MintConfigList ch = Slice a n → h !! a = None.
Proof.
  unfold new_configH.
  destruct (new_mints (MintConfigList v) spare h) as [s1 h1] eqn:H1.
  destruct (new_strings (SendingRPCURLs (Spam v)) h1) as [s2 h2] eqn:H2.
  destruct (new_strings (BlockEngineURLs (Jito v)) h2) as [s3 h3] eqn:H3.
  destruct (new_strings (IPAddresses (Jito v)) h3) as [s4 h4] eqn:H4.
  intros [= <- <-]. simpl.
  apply new_mints_spec in H1 as [H1 Hfresh].
  apply new_strings_subseteq in H2, H3, H4.
  split; [|done]. by repeat (etrans; [eassumption|]).
Qed.

Lemma new_config_spec v spare (h : heap) p h' :
  new_config v spare h = (p, h') →
  h ⊆ h' ∧ h !! p = None ∧
  ∃ ch, h' !! p = Some (CConfig ch) ∧ ∀ a n, MintConfigList ch = Slice a n → h !! a = None.
Proof.
  unfold new_config.
  destruct (new_configH v spare h) as [ch h1] eqn:H1.
  intros Ha. pose proof (alloc_subseteq _ _ _ _ Ha) as Hsub.
  apply alloc_spec in Ha as [Hfresh ->].
  apply new_configH_spec in H1 as [H1 Hm].
  split; [by etrans|]. split.
  - destruct (h !! p) eqn:Hl; [|done].
    by rewrite (lookup_weaken _ _ _ _ Hl H1) in Hfresh.
  - exists ch. by rewrite lookup_insert_eq.
Qed.

(** *** Reading is stable under allocation *)

Lemma read_strings_mono (h h' : heap) s l :
  h ⊆ h' → read_strings h s = Some l → read_strings h' s = Some l.
Proof.
  intros Hsub. destruct s as [|a n]; [done|]. simpl.
  destruct (h !! a) as [[]|] eqn:Ha; try done.
  by rewrite (lookup_weaken _ _ _ _ Ha Hsub).
Qed.

Lemma read_mint_mono (h h' : heap) mh m :
  h ⊆ h' → read_mint h mh = Some m → read_mint h' mh = Some m.
Proof.
  intros Hsub. unfold read_mint. intros Hr.
  repeat match type of Hr with
  | context [read_strings h ?s] =>
      let E := fresh in
      destruct (read_strings h s) eqn:E; simpl in Hr; [|done];
      rewrite (read_strings_mono _ _ _ _ Hsub E); simpl
  end.
  done.
Qed.

Lemma read_mint_list_mono (h h' : heap) msh ms :
  h ⊆ h' → mapM (read_mint h) msh = Some ms → mapM (read_mint h') msh = Some ms.
Proof.
  intros Hsub. rewrite !mapM_Some. intros Hall.
  eapply Forall2_impl; [exact Hall|]. intros. by eapply read_mint_mono.
Qed.

Lemma read_mints_mono (h h' : heap) s ms :
  h ⊆ h' → read_mints h s = Some ms → read_mints h' s = Some ms.
Proof.
  intros Hsub. destruct s as [|a n]; [done|]. simpl.
  destruct (h !! a) as [[]|] eqn:Ha; try done.
  rewrite (lookup_weaken _ _ _ _ Ha Hsub). by apply read_mint_list_mono.
Qed.

Lemma read_configH_mono (h h' : heap) ch v :
  h ⊆ h' → read_configH h ch = Some v → read_configH h' ch = Some v.
Proof.
  intros Hsub. unfold read_configH. intros Hr.
  destruct (read_mints h _) eqn:E0; simpl in Hr; [|done].
  rewrite (read_mints_mono _ _ _ _ Hsub E0); simpl.
  repeat match type of Hr with
  | context [read_strings h ?s] =>
      let E := fresh in
      destruct (read_strings h s) eqn:E; simpl in Hr; [|done];
      rewrite (read_strings_mono _ _ _ _ Hsub E); simpl
  end.
  done.
Qed.

Lemma read_config_mono (h h' : heap) p v :
  h ⊆ h' → read_config h p = Some v → read_config h' p = Some v.
Proof.
  intros Hsub. unfold read_config.
  destruct (h !! p) as [[]|] eqn:Hp; try done.
  rewrite (lookup_weaken _ _ _ _ Hp Hsub). by apply read_configH_mono.
Qed.

(** *** What was stored can be read back *)

Lemma new_strings_read l (h : heap) s h' :
  new_strings l h = (s, h') → read_strings h' s = Some l.
Proof.
  unfold new_strings. destruct l as [|x l]; [by intros [= <- <-]|].
  destruct (alloc _ h) as [a h1] eqn:Ha. intros [= <- <-].
  apply alloc_spec in Ha as [_ ->]. simpl. rewrite lookup_insert_eq.
  by rewrite take_ge by (simpl; lia).
Qed.

Lemma new_mint_read m (h : heap) mh h' :
  new_mint m h = (mh, h') → read_mint h' mh = Some m.
Proof.
  unfold new_mint.
  destruct (new_strings (PumpPoolList m) h) as [s1 h1] eqn:H1.
  destruct (new_strings (RaydiumPoolList m) h1) as [s2 h2] eqn:H2.
  destruct (new_strings (RaydiumCPPoolList m) h2) as [s3 h3] eqn:H3.
  destruct (new_strings (MeteoraPoolList m) h3) as [s4 h4] eqn:H4.
  destruct (new_strings (LookupTableAccounts m) h4) as [s5 h5] eqn:H5.
  intros [= <- <-]. unfold read_mint. simpl.
  pose proof (new_strings_subseteq _ _ _ _ H2) as S2.
  pose proof (new_strings_subseteq _ _ _ _ H3) as S3.
  pose proof (new_strings_subseteq _ _ _ _ H4) as S4.
  pose proof (new_strings_subseteq _ _ _ _ H5) as S5.
  apply new_strings_read in H1, H2, H3, H4, H5.
  rewrite (read_strings_mono h1 h5 _ _ ltac:(by repeat (etrans; [eassumption|])) H1).
  rewrite (read_strings_mono h2 h5 _ _ ltac:(by repeat (etrans; [eassumption|])) H2).
  rewrite (read_strings_mono h3 h5 _ _ ltac:(by repeat (etrans; [eassumption|])) H3).
  rewrite (read_strings_mono h4 h5 _ _ ltac:(by repeat (etrans; [eassumption|])) H4).
  rewrite H5. simpl. by destruct m.
Qed.

Lemma new_mint_list_read ms (h : heap) msh h' :
  new_mint_list ms h = (msh, h') →
  mapM (read_mint h') msh = Some ms ∧ length msh = length ms.
Proof.
  revert h msh h'. induction ms as [|m ms IH]; intros h msh h'; simpl.
  { by intros [= <- <-]. }
  destruct (new_mint m h) as [mh h1] eqn:H1.
  destruct (new_mint_list ms h1) as [rest h2] eqn:H2.
  intros [= <- <-].
  pose proof (new_mint_list_subseteq _ _ _ _ H2) as S2.
  apply new_mint_read in H1. apply IH in H2 as [H2 Hlen].
  split; [|simpl; by rewrite Hlen].
  rewrite mapM_Some in *. constructor; [|done]. by eapply read_mint_mono.
Qed.

Lemma new_mints_read ms spare (h : heap) s h' :
  new_mints ms spare h = (s, h') → read_mints h' s = Some ms.
Proof.
  unfold new_mints.
  assert (Hgen : (let '(msh, h0) := new_mint_list ms h in
                  let '(a, h1) := alloc (CMints (msh ++ replicate spare zeroMintH)) h0 in
                  (Slice a (length ms), h1)) = (s, h') → read_mints h' s = Some ms).
  { destruct (new_mint_list ms h) as [msh h0] eqn:H0.
    destruct (alloc _ h0) as [a h1] eqn:H1. intros [= <- <-].
    pose proof (alloc_subseteq _ _ _ _ H1) as Hsub.
    apply alloc_spec in H1 as [_ ->].
    apply new_mint_list_read in H0 as [H0 Hlen].
    simpl. rewrite lookup_insert_eq, <-Hlen, take_app_length.
    by eapply read_mint_list_mono. }
  destruct ms; [destruct spare|]; try done.
  by intros [= <- <-].
Qed.

Lemma new_configH_read v spare (h : heap) ch h' :
  new_configH v spare h = (ch, h') → read_configH h' ch = Some v.
Proof.
  unfold new_configH.
  destruct (new_mints (MintConfigList v) spare h) as [s1 h1] eqn:H1.
  destruct (new_strings (SendingRPCURLs (Spam v)) h1) as [s2 h2] eqn:H2.
  destruct (new_strings (BlockEngineURLs (Jito v)) h2) as [s3 h3] eqn:H3.
  destruct (new_strings (IPAddresses (Jito v)) h3) as [s4 h4] eqn:H4.
  intros [= <- <-]. unfold read_configH. simpl.
  pose proof (new_strings_subseteq _ _ _ _ H2) as S2.
  pose proof (new_strings_subseteq _ _ _ _ H3) as S3.
  pose proof (new_strings_subseteq _ _ _ _ H4) as S4.
  apply new_mints_read in H1. apply new_strings_read in H2, H3, H4.
  rewrite (read_mints_mono h1 h4 _ _ ltac:(by repeat (etrans; [eassumption|])) H1).
  rewrite (read_strings_mono h2 h4 _ _ ltac:(by repeat (etrans; [eassumption|])) H2).
  rewrite (read_strings_mono h3 h4 _ _ ltac:(by repeat (etrans; [eassumption|])) H3).
  rewrite H4. simpl. by destruct v as [? ? [] [] ? ?].
Qed.

Lemma new_config_read v spare (h : heap) p h' :
  new_config v spare h = (p, h') → read_config h' p = Some v.
Proof.
  unfold new_config.
  destruct (new_configH v spare h) as [ch h1] eqn:H1. intros Ha.
  pose proof (alloc_subseteq _ _ _ _ Ha) as Hsub.
  apply alloc_spec in Ha as [_ ->].
  unfold read_config. rewrite lookup_insert_eq.
  apply new_configH_read in H1. by eapply read_configH_mono.
Qed.

(** ** The mutating handlers of the control socket *)






Section Handlers.
Context `{Codec}.

(** [c.Copy()] returns new memory that holds what the codec round trip
    makes of the receiver. *)
Lemma Config_Copy_run c e w :
  ∃ copy w1 ch,
    Config_Copy c e w = Done copy w1 [ECopy c copy] ∧
    agent w1 = agent w ∧ mem w ⊆ mem w1 ∧ mem w !! copy = None ∧
    mem w1 !! copy = Some (CConfig ch) ∧
    (∀ a n, MintConfigList ch = Slice a n → mem w !! a = None) ∧
    read_config (mem w1) copy =
      Some (match read_config (mem w) c with
            | Some v => json_roundtrip v
            | None => zeroConfig
            end).
Proof.
  unfold Config_Copy. rewrite bind_get, bind_ask.
  destruct (new_config _ (spare_cap e) (mem w)) as [p h1] eqn:Hnew.
  pose proof (new_config_read _ _ _ _ _ Hnew) as Hread.
  apply new_config_spec in Hnew as (Hsub & Hfresh & ch & Hp & Hm).
  exists p, (with_mem (λ _, h1) w), ch.
  rewrite bind_modify. by repeat split.
Qed.

Lemma assign_run c f e w ch :
  mem w !! c = Some (CConfig ch) →
  assign c f e w = Done tt (with_mem (<[c := CConfig (f ch)]>) w) [].
Proof. intros Hc. unfold assign. by rewrite bind_get, Hc. Qed.


End Handlers.


(** The updateRPC handler on a configured agent: the old configuration
    still reads as it did, and the agent now points at the patched copy. *)
Example updateRPC_patches_the_copy :
  let r := @handler plainCodec UpdateRPC rpcCommand okEnv configuredWorld in
  read_config (mem (world_of r)) (mevConfig (agent configuredWorld)) = Some liveConfig ∧
  RPC_URL <$> read_config (mem (world_of r)) (mevConfig (agent (world_of r)))
    = Some "https://rpc.two" ∧
  bool_decide (mevConfig (agent (world_of r)) = mevConfig (agent configuredWorld)) = false.
Proof. vm_compute. repeat split. Qed.

(** ** The hot-token tracker *)

(** *** Sorting *)

Section SortFacts.
Context {A : Type} (less : A → A → bool).

Lemma insert_left_perm x rp : insert_left less x rp ≡ₚ x :: rp.
Proof.
  induction rp as [|y rest IH]; simpl; [done|].
  destruct (less x y); [|done].
  rewrite IH. apply Permutation_swap.
Qed.

Lemma foldl_insert_left_perm l acc :
  foldl (λ rp x, insert_left less x rp) acc l ≡ₚ l ++ acc.
Proof.
  revert acc. induction l as [|x l IH]; intros acc; simpl; [done|].
  rewrite IH, insert_left_perm. by rewrite Permutation_middle.
Qed.

Lemma insertionSort_perm l : insertionSort less l ≡ₚ l.
Proof.
  unfold insertionSort.
  by rewrite reverse_Permutation, foldl_insert_left_perm, app_nil_r.
Qed.

Lemma insert_left_sorted x rp :
  StrictWeak less →
  StronglySorted (λ a b, less a b = false) rp →
  StronglySorted (λ a b, less a b = false) (insert_left less x rp).
Proof.
  intros [Hasym Hneg]. induction 1 as [|y rest Hrest IH Hy]; simpl.
  { repeat constructor. }
  destruct (less x y) eqn:Hxy.
  - constructor; [done|].
    rewrite insert_left_perm. constructor; [by apply Hasym | done].
  - constructor; [by constructor|].
    constructor; [done|].
    eapply Forall_impl; [exact Hy|]. intros z Hz. by eapply Hneg.
Qed.

Lemma foldl_insert_left_sorted l acc :
  StrictWeak less →
  StronglySorted (λ a b, less a b = false) acc →
  StronglySorted (λ a b, less a b = false)
    (foldl (λ rp x, insert_left less x rp) acc l).
Proof.
  intros Hsw. revert acc. induction l as [|x l IH]; intros acc Hacc; simpl; [done|].
  by apply IH, insert_left_sorted.
Qed.

Lemma StronglySorted_reverse (R : relation A) l :
  StronglySorted R l → StronglySorted (flip R) (reverse l).
Proof.
  induction 1 as [|x l Hl IH Hx]; [rewrite reverse_nil; constructor|].
  rewrite reverse_cons. apply StronglySorted_app_2; [|done|repeat constructor].
  intros a b Ha Hb. apply list_elem_of_singleton in Hb as ->.
  rewrite elem_of_reverse in Ha. rewrite Forall_forall in Hx. by apply Hx.
Qed.

Lemma insertionSort_sorted l :
  StrictWeak less →
  StronglySorted (λ x y, less y x = false) (insertionSort less l).
Proof.
  intros Hsw. unfold insertionSort.
  apply (StronglySorted_reverse (λ a b, less a b = false)).
  apply foldl_insert_left_sorted; [done|constructor].
Qed.

End SortFacts.


(** Insertion sort meets the contract of [sort.Slice]; the examples are run
    with it. *)
Definition stableSlice : SortSlice :=
  MkSortSlice (@insertionSort) (@insertionSort_perm) (@insertionSort_sorted).

Lemma Qgtb_false x y : Qgtb x y = false ↔ (x <= y)%Q.
Proof. unfold Qgtb. rewrite negb_false_iff. apply Qle_bool_iff. Qed.

Lemma Qgtb_true x y : Qgtb x y = true ↔ (y < x)%Q.
Proof.
  unfold Qgtb. rewrite negb_true_iff, <-not_true_iff_false, Qle_bool_iff.
  split; [apply Qnot_le_lt | apply Qlt_not_le].
Qed.

Lemma Qgtb_StrictWeak {A} (vol : A → Q) : StrictWeak (λ a b, Qgtb (vol a) (vol b)).
Proof.
  split.
  - intros x y. rewrite Qgtb_true, Qgtb_false. apply Qlt_le_weak.
  - intros x y z. rewrite !Qgtb_false. apply Qle_trans.
Qed.


Lemma sort_Slice_descending `{SortSlice} {A} (vol : A → Q) l :
  descending vol (sort_Slice (λ a b, Qgtb (vol a) (vol b)) l).
Proof.
  unfold descending.
  pose proof (sort_Slice_sorted (λ a b, Qgtb (vol a) (vol b)) l (Qgtb_StrictWeak vol)) as Hs.
  induction Hs as [|x l' Hl IH Hx]; constructor; [done|].
  eapply Forall_impl; [exact Hx|]. intros y. by rewrite Qgtb_false.
Qed.

Lemma top_ten {A} (tokens : list A) :
  (if bool_decide (length tokens > 10) then take 10 tokens else tokens) = take 10 tokens.
Proof. case_bool_decide; [done|]. rewrite take_ge; [done|lia]. Qed.

(** The ranking step of [FetchHotTokens] (lines 661-676), for any sort that
    meets the contract of [sort.Slice].  It returns the error when the
    status is not 1 or the list is empty.  Otherwise its result is the first
    ten (all, when there are ten or fewer) of a rearrangement of the
    candidates in which no token is followed by one of larger 15-minute
    volume.  For volumes 50, 10, 80, 30 the result is the four tokens in the
    order 80, 50, 30, 10.  Nothing is said of the order among tokens of
    equal volume: that is decided inside [sort.Slice], whose contract leaves
    it open and whose code is not part of this program. *)
Theorem rankHotTokens_ranks `{SortSlice} (apiResp : APIResponse) :
  (Status apiResp ≠ 1%Z ∨ Data apiResp = [] →
     rankHotTokens apiResp = inl "API响应格式无效") ∧
  (Status apiResp = 1%Z → Data apiResp ≠ [] →
     ∃ sorted,
       sorted ≡ₚ Data apiResp ∧
       descending HotToken.Volume15m sorted ∧
       rankHotTokens apiResp = inr (take 10 sorted) ∧
       length (take 10 sorted) = 10 `min` length (Data apiResp)) ∧
  (∀ t1 t2 t3 t4,
     Status apiResp = 1%Z → Data apiResp = [t1; t2; t3; t4] →
     (HotToken.Volume15m t1 == 50 # 1)%Q → (HotToken.Volume15m t2 == 10 # 1)%Q →
     (HotToken.Volume15m t3 == 80 # 1)%Q → (HotToken.Volume15m t4 == 30 # 1)%Q →
     rankHotTokens apiResp = inr [t3; t1; t4; t2]).
Proof.
  assert (Hok : Status apiResp = 1%Z → Data apiResp ≠ [] →
    rankHotTokens apiResp = inr (take 10
      (sort_Slice (λ ti tj, Qgtb (HotToken.Volume15m ti) (HotToken.Volume15m tj))
         (Data apiResp)))).
  { intros Hst Hne. unfold rankHotTokens.
    rewrite bool_decide_eq_false_2 by (by intros ?).
    rewrite bool_decide_eq_false_2 by (by destruct (Data apiResp)).
    simpl. by rewrite top_ten. }
  split; [|split].
  - intros [Hst | Hemp]; unfold rankHotTokens.
    + by rewrite bool_decide_eq_true_2.
    + rewrite Hemp. simpl. by rewrite orb_true_r.
  - intros Hst Hne. eexists. split; [apply sort_Slice_perm|].
    split; [apply sort_Slice_descending|]. split; [by apply Hok|].
    by rewrite length_take, (Permutation_length (sort_Slice_perm _ _)).
  - intros t1 t2 t3 t4 Hst Hdata H1 H2 H3 H4.
    rewrite Hok by (by rewrite ?Hdata).
    rewrite Hdata. f_equal.
    set (sorted := sort_Slice _ _).
    assert (Hp : sorted ≡ₚ [t1; t2; t3; t4]) by apply sort_Slice_perm.
    assert (sorted = [t3; t1; t4; t2]) as ->; [|done].
    apply (StronglySorted_unique_strong
             (λ a b, (HotToken.Volume15m b <= HotToken.Volume15m a)%Q)).
    + intros x y Hx Hy Hxy Hyx.
      rewrite Hp in Hx.
      set_unfold.
      destruct Hx as [-> | [-> | [-> | [-> | []]]]], Hy as [-> | [-> | [-> | [-> | []]]]];
        try done; exfalso; lra.
    + apply sort_Slice_descending.
    + repeat constructor; lra.
    + rewrite Hp.
      etrans; [apply perm_skip, perm_swap|].
      etrans; [apply perm_swap|].
      do 2 apply perm_skip. apply perm_swap.
Qed.

(** The example, run. *)
Example ranking_of_four :
  let resp := MkAPIResponse 1 4 1 40
                [token "w" (50 # 1); token "x" (10 # 1); token "y" (80 # 1); token "z" (30 # 1)] in
  symbols (@rankHotTokens stableSlice resp) = ["y"; "w"; "z"; "x"] ∧
  @rankHotTokens stableSlice (MkAPIResponse 0 4 1 40 (Data resp)) = inl "API响应格式无效" ∧
  @rankHotTokens stableSlice (MkAPIResponse 1 0 1 40 []) = inl "API响应格式无效".
Proof. vm_compute. repeat split; reflexivity. Qed.

(** *** The filter of the enrichment step *)

Lemma strings_Contains_spec s substr :
  substr ≠ "" →
  strings_Contains s substr = true ↔ ∃ m, String.substring m (String.length substr) s = substr.
Proof.
  intros Hne. unfold strings_Contains.
  destruct (String.index 0 substr s) as [m|] eqn:Hi.
  - split; [|done]. intros _. exists m. by eapply String.index_correct1.
  - split; [done|]. intros [m Hm]. exfalso.
    eapply String.index_correct3; [exact Hi|done| |exact Hm]. lia.
Qed.

#[global] Instance has_marker_dec addr : Decision (has_marker addr).
Proof.
  refine (cast_if (decide (strings_Contains addr "pump" = true)));
    unfold has_marker; by rewrite <-strings_Contains_spec.
Defined.

Lemma poolTypeCount_populated info : poolTypeCount info = populated info.
Proof.
  unfold poolTypeCount, populated, categories.
  destruct info as [a s v [|p ps] [|m ms] [|r rs] [|c cs]]; reflexivity.
Qed.

Lemma keepTokenInfo_eligible info : keepTokenInfo info = true ↔ eligible info.
Proof.
  unfold keepTokenInfo, eligible, has_marker.
  rewrite <-strings_Contains_spec by done.
  rewrite poolTypeCount_populated.
  destruct (strings_Contains _ _); simpl.
  - rewrite bool_decide_eq_true. unfold ge. by split; [|intros []].
  - by split; [|intros []].
Qed.

Lemma filter_keepTokenInfo l : List.filter keepTokenInfo l = filter eligible l.
Proof.
  induction l as [|x l IH]; [done|]. simpl. rewrite filter_cons, IH.
  destruct (keepTokenInfo x) eqn:Hk.
  - rewrite decide_True; [done|]. by apply keepTokenInfo_eligible.
  - rewrite decide_False; [done|]. rewrite <-keepTokenInfo_eligible. congruence.
Qed.

Lemma descending_filter {A} (vol : A → Q) (P : A → Prop) `{∀ x, Decision (P x)} l :
  descending vol l → descending vol (filter P l).
Proof.
  unfold descending. induction 1 as [|x l Hl IH Hx]; [constructor|].
  rewrite filter_cons. destruct (decide (P x)); [|done].
  constructor; [done|]. rewrite Forall_forall in *.
  intros y [_ Hy]%list_elem_of_filter. by apply Hx.
Qed.

Lemma top_two {A} (valid : list A) :
  (if bool_decide (length valid > 2) then take 2 valid else valid) = take 2 valid.
Proof. case_bool_decide; [done|]. rewrite take_ge; [done|lia]. Qed.

(** C5.  The filter step of [UpdateConfig] yields the first two (all, when
    there are two or fewer) of the eligible candidates (address containing
    the marker, pools in at least two of the four categories) arranged so
    that no candidate is followed by one of larger 15-minute volume.  A
    candidate with 3 pump pools, no Meteora, 1 Raydium and no Raydium-CP
    pool has two populated categories and passes the category test; one
    with 2 pump pools and nothing else is dropped. *)
Theorem validTokenInfos_filters `{SortSlice} (infos : list TokenPoolsInfo.t) :
  (∃ survivors,
     survivors ≡ₚ filter eligible infos ∧
     descending TokenPoolsInfo.Volume15m survivors ∧
     validTokenInfos infos = take 2 survivors ∧
     length (validTokenInfos infos) = 2 `min` length (filter eligible infos)) ∧
  (∀ info,
     length (TokenPoolsInfo.PumpPools info) = 3 →
     length (TokenPoolsInfo.MeteoraLists info) = 0 →
     length (TokenPoolsInfo.RaydiumPools info) = 1 →
     length (TokenPoolsInfo.RaydiumCPPools info) = 0 →
     populated info = 2 ∧
     (has_marker (TokenPoolsInfo.TokenAddress info) → keepTokenInfo info = true)) ∧
  (∀ info,
     length (TokenPoolsInfo.PumpPools info) = 2 →
     length (TokenPoolsInfo.MeteoraLists info) = 0 →
     length (TokenPoolsInfo.RaydiumPools info) = 0 →
     length (TokenPoolsInfo.RaydiumCPPools info) = 0 →
     keepTokenInfo info = false ∧ info ∉ validTokenInfos infos).
Proof.
  assert (Hv : validTokenInfos infos = take 2 (filter eligible (sortTokenPoolsInfos infos))).
  { unfold validTokenInfos. by rewrite top_two, filter_keepTokenInfo. }
  split; [|split].
  - assert (Hperm : filter eligible (sortTokenPoolsInfos infos) ≡ₚ filter eligible infos).
    { unfold sortTokenPoolsInfos. by rewrite (sort_Slice_perm _ _). }
    exists (filter eligible (sortTokenPoolsInfos infos)). split; [done|]. split; [|split; [done|]].
    + apply descending_filter, sort_Slice_descending.
    + by rewrite Hv, length_take, (Permutation_length Hperm).
  - intros [a s v p m r c] Hp Hm Hr Hc; simpl in *.
    assert (Hpop : populated (TokenPoolsInfo.Mk a s v p m r c) = 2).
    { destruct p, m, r, c; done. }
    split; [done|]. intros Hmark. apply keepTokenInfo_eligible.
    split; [done|]. by rewrite Hpop.
  - intros [a s v p m r c] Hp Hm Hr Hc; simpl in *.
    assert (Hk : keepTokenInfo (TokenPoolsInfo.Mk a s v p m r c) = false).
    { apply not_true_iff_false. rewrite keepTokenInfo_eligible.
      intros [_ Hpop]. destruct p, m, r, c; simpl in *; try done.
      unfold populated in Hpop. simpl in Hpop. lia. }
    split; [done|]. rewrite Hv. intros (i & Hin%list_elem_of_lookup_2 & _)%elem_of_take.
    apply list_elem_of_filter in Hin as [Hel _].
    apply keepTokenInfo_eligible in Hel. congruence.
Qed.

(** *** The merge of the enrichment step *)

Lemma existingConfig_Some snapshot addr ex :
  existingConfig snapshot addr = Some ex →
  ∃ before after, snapshot = before ++ ex :: after ∧ Mint ex = addr ∧
                  Forall (λ m, Mint m ≠ addr) before.
Proof.
  induction snapshot as [|m rest IH]; simpl; [done|].
  destruct (String.eqb_spec (Mint m) addr) as [Heq|Hne].
  - intros [= ->]. by exists [], rest.
  - intros (before & after & -> & Hm & Hb)%IH.
    exists (m :: before), after. by repeat split; [|constructor].
Qed.

Lemma existingConfig_None snapshot addr :
  existingConfig snapshot addr = None ↔ Forall (λ m, Mint m ≠ addr) snapshot.
Proof.
  induction snapshot as [|m rest IH]; simpl; [by split; [constructor|]|].
  rewrite Forall_cons.
  destruct (String.eqb_spec (Mint m) addr) as [Heq|Hne].
  - split; [done|]. by intros [].
  - rewrite IH. split; [done|]. by intros [].
Qed.

Lemma mergeMintConfig_fields snapshot info :
  let base := default (MkMintConfig (TokenPoolsInfo.TokenAddress info) [] [] [] [] [] 1000)
                      (existingConfig snapshot (TokenPoolsInfo.TokenAddress info)) in
  mergeMintConfig snapshot info =
    MkMintConfig (Mint base)
      (overwritten (TokenPoolsInfo.PumpPools info) (PumpPoolList base))
      (overwritten (TokenPoolsInfo.RaydiumPools info) (RaydiumPoolList base))
      (overwritten (TokenPoolsInfo.RaydiumCPPools info) (RaydiumCPPoolList base))
      (overwritten (TokenPoolsInfo.MeteoraLists info) (MeteoraPoolList base))
      (LookupTableAccounts base) (ProcessDelay base).
Proof.
  unfold mergeMintConfig.
  destruct (existingConfig _ _) as [[]|]; simpl;
    destruct info as [a s v [|p ps] [|m ms] [|r rs] [|c cs]]; reflexivity.
Qed.

(** C6.  The merge step of [UpdateConfig] makes one route per survivor, in
    the survivors' order and with the survivors' mints.  For a survivor
    whose mint has a route in the snapshot (the first such route), the
    merged route keeps that route's lookup-table accounts and processing
    delay, and each of the four pool lists is the list found in this cycle
    when that list is non-empty and the route's previous list otherwise.
    For a survivor without one, the route is fresh: the pool lists found,
    no lookup-table accounts, processing delay 1000.  A route of the
    snapshot whose mint is no survivor's has no counterpart in the
    result. *)
Theorem newMintConfigs_merges (snapshot : list MintConfig) (valid : list TokenPoolsInfo.t) :
  (* the list is made of the survivors, one route each, in their order *)
  Mint <$> newMintConfigs snapshot valid = TokenPoolsInfo.TokenAddress <$> valid ∧
  newMintConfigs snapshot valid = mergeMintConfig snapshot <$> valid ∧
  (* a survivor with a route in the snapshot *)
  (∀ info existing,
     existingConfig snapshot (TokenPoolsInfo.TokenAddress info) = Some existing →
     existing ∈ snapshot ∧ Mint existing = TokenPoolsInfo.TokenAddress info ∧
     mergeMintConfig snapshot info =
       MkMintConfig (Mint existing)
         (overwritten (TokenPoolsInfo.PumpPools info) (PumpPoolList existing))
         (overwritten (TokenPoolsInfo.RaydiumPools info) (RaydiumPoolList existing))
         (overwritten (TokenPoolsInfo.RaydiumCPPools info) (RaydiumCPPoolList existing))
         (overwritten (TokenPoolsInfo.MeteoraLists info) (MeteoraPoolList existing))
         (LookupTableAccounts existing) (ProcessDelay existing)) ∧
  (* a survivor without one *)
  (∀ info,
     (∀ m, m ∈ snapshot → Mint m ≠ TokenPoolsInfo.TokenAddress info) →
     mergeMintConfig snapshot info =
       MkMintConfig (TokenPoolsInfo.TokenAddress info)
         (TokenPoolsInfo.PumpPools info) (TokenPoolsInfo.RaydiumPools info)
         (TokenPoolsInfo.RaydiumCPPools info) (TokenPoolsInfo.MeteoraLists info)
         [] 1000) ∧
  (* a route of the snapshot is found whenever its mint is a survivor's *)
  (∀ info m, m ∈ snapshot → Mint m = TokenPoolsInfo.TokenAddress info →
     is_Some (existingConfig snapshot (TokenPoolsInfo.TokenAddress info))) ∧
  (* routes whose mint is no survivor's are gone *)
  (∀ m, m ∈ snapshot →
     Mint m ∉ TokenPoolsInfo.TokenAddress <$> valid →
     ∀ r, r ∈ newMintConfigs snapshot valid → Mint r ≠ Mint m).
Proof.
  assert (Hmint : ∀ info, Mint (mergeMintConfig snapshot info) = TokenPoolsInfo.TokenAddress info).
  { intros info. rewrite mergeMintConfig_fields. simpl.
    destruct (existingConfig _ _) as [ex|] eqn:He; [|done].
    by apply existingConfig_Some in He as (? & ? & _ & ? & _). }
  assert (Hmints : Mint <$> newMintConfigs snapshot valid = TokenPoolsInfo.TokenAddress <$> valid).
  { unfold newMintConfigs. induction valid as [|info valid IH]; csimpl; [done|].
    by rewrite Hmint, IH. }
  split; [done|]. split; [done|]. split; [|split; [|split]].
  - intros info ex He. rewrite mergeMintConfig_fields, He. simpl.
    apply existingConfig_Some in He as (b & a & -> & ? & _).
    split; [|done]. set_solver.
  - intros info Hno. rewrite mergeMintConfig_fields.
    assert (existingConfig snapshot (TokenPoolsInfo.TokenAddress info) = None) as ->.
    { apply existingConfig_None, Forall_forall. exact Hno. }
    simpl. by destruct info as [a s v [|p ps] [|m ms] [|r rs] [|c cs]].
  - intros info m Hin Hm.
    destruct (existingConfig _ _) eqn:He; [done|].
    rewrite existingConfig_None, Forall_forall in He. by destruct (He m Hin).
  - intros m Hin Hnot r Hr Heq. apply Hnot. rewrite <-Heq, <-Hmints.
    by apply list_elem_of_fmap_2.
Qed.

(** The spec's two candidates, a third with the wrong address, and a route
    of the snapshot that is merged. *)
Example enrichment_of_three :
  let busy := TokenPoolsInfo.Mk "So1pump" "SO1" (9 # 1) ["p1"; "p2"; "p3"] [] ["r1"] [] in
  let thin := TokenPoolsInfo.Mk "Th2pump" "TH2" (20 # 1) ["p4"; "p5"] [] [] [] in
  let other := TokenPoolsInfo.Mk "Oth3" "OT3" (30 # 1) ["p6"] ["m1"] ["r2"] [] in
  let fresh := TokenPoolsInfo.Mk "Nw4pump" "NW4" (12 # 1) [] ["m2"] [] ["c1"] in
  let old := MkMintConfig "So1pump" ["poolA"] [] ["cpA"] [] ["lut1"] 500 in
  let gone := MkMintConfig "Gone5pump" ["poolB"] [] [] [] [] 700 in
  @validTokenInfos stableSlice [busy; thin; other; fresh] = [fresh; busy] ∧
  newMintConfigs [gone; old] [fresh; busy]
    = [MkMintConfig "Nw4pump" [] [] ["c1"] ["m2"] [] 1000;
       MkMintConfig "So1pump" ["p1"; "p2"; "p3"] ["r1"] ["cpA"] [] ["lut1"] 500].
Proof. vm_compute. split; reflexivity. Qed.

(** ** Further properties of the code *)

Lemma UpdateConfig_empty_path p e w v :
  mevConfigPath (agent w) = "" →
  read_config (mem w) p = Some v →
  marshal_err e = None →
  Agent_UpdateConfig p e w
    = Done (Some "open : no such file or directory") w
        [EUpdateConfig p; ELock; ESaveToFile ""; EUnlock].
Proof.
  intros Hpath Hread Hm.
  go_destruct_world w; go_destruct_env e; simpl in *; subst.
  go_unfold. simpl. rewrite Hread. reflexivity.
Qed.

(** [NewAgent] reads the configuration from its first argument and does
    not keep the argument: the agent it returns has an empty
    [mevConfigPath], so every [UpdateConfig] on it fails at the opening of
    the file, before the in-memory configuration is replaced and before the
    worker is stopped or started. *)
Theorem NewAgent_forgets_config_path path agentPath loaded loadedAgent fs w :
  NewAgent path agentPath loaded loadedAgent fs = inr w →
  mevConfigPath (agent w) = "" ∧
  ∀ p e v,
    read_config (mem w) p = Some v → marshal_err e = None →
    Agent_UpdateConfig p e w
      = Done (Some "open : no such file or directory") w
          [EUpdateConfig p; ELock; ESaveToFile ""; EUnlock].
Proof.
  unfold NewAgent. destruct loaded as [err|cfg]; [done|].
  destruct (new_config cfg 0 ∅) as [p0 h0]. intros [= <-].
  split; [done|]. intros p e v Hread Hm. by eapply UpdateConfig_empty_path.
Qed.

Lemma NewAgent_forgets_config_path_witness :
  mevConfigPath (agent freshWorld) = "" ∧
  Agent_UpdateConfig 3 okEnv freshWorld
    = Done (Some "open : no such file or directory") freshWorld
        [EUpdateConfig 3; ELock; ESaveToFile ""; EUnlock].
Proof.
  destruct (NewAgent_forgets_config_path "config.toml" "config.yaml" (inr liveConfig)
              (inr (MkFlashAgentConfig "ave" "secret"))
              {["config.toml" := FileToml liveConfig]} freshWorld) as [Hpath Hfail].
  - reflexivity.
  - split; [exact Hpath|]. apply (Hfail 3 okEnv liveConfig); vm_compute; reflexivity.
Defined.

(** *** [Copy] is deep *)

(** The backing array a slice header names. *)
Definition slice_array (s : slice) : gset loc :=
  match s with SliceNil => ∅ | Slice a _ => {[a]} end.

Definition mint_arrays (m : MintConfigH) : gset loc :=
  slice_array (PumpPoolList m) ∪ slice_array (RaydiumPoolList m) ∪
  slice_array (RaydiumCPPoolList m) ∪ slice_array (MeteoraPoolList m) ∪
  slice_array (LookupTableAccounts m).

(** The arrays the elements of a route list name, spare capacity included. *)
Definition route_arrays (h : heap) (s : slice) : gset loc :=
  match s with
  | SliceNil => ∅
  | Slice a _ =>
      match h !! a with
      | Some (CMints l) => ⋃ (mint_arrays <$> l)
      | _ => ∅
      end
  end.

Definition config_arrays (h : heap) (c : ConfigH) : gset loc :=
  slice_array (MintConfigList c) ∪ route_arrays h (MintConfigList c) ∪
  slice_array (SendingRPCURLs (Spam c)) ∪ slice_array (BlockEngineURLs (Jito c)) ∪
  slice_array (IPAddresses (Jito c)).

(** Every cell a [*Config] reaches: the struct, its arrays, and the arrays
    of its routes. *)
Definition reach (h : heap) (p : loc) : gset loc :=
  {[p]} ∪ match h !! p with Some (CConfig c) => config_arrays h c | _ => ∅ end.

Lemma fresh_weaken (h h' : heap) a : h ⊆ h' → h' !! a = None → h !! a = None.
Proof.
  intros Hsub Hn. destruct (h !! a) eqn:Hl; [|done].
  by rewrite (lookup_weaken _ _ _ _ Hl Hsub) in Hn.
Qed.

Lemma new_strings_fresh l (h : heap) s h' :
  new_strings l h = (s, h') → ∀ a, a ∈ slice_array s → h !! a = None.
Proof.
  unfold new_strings. destruct l; [intros [= <- <-] a; set_solver|].
  destruct (alloc _ h) as [a0 h1] eqn:Ha. intros [= <- <-] a.
  apply alloc_spec in Ha as [Hf _]. simpl. by intros ->%elem_of_singleton.
Qed.

Lemma new_mint_fresh m (h : heap) mh h' :
  new_mint m h = (mh, h') → ∀ a, a ∈ mint_arrays mh → h !! a = None.
Proof.
  unfold new_mint.
  destruct (new_strings (PumpPoolList m) h) as [s1 h1] eqn:H1.
  destruct (new_strings (RaydiumPoolList m) h1) as [s2 h2] eqn:H2.
  destruct (new_strings (RaydiumCPPoolList m) h2) as [s3 h3] eqn:H3.
  destruct (new_strings (MeteoraPoolList m) h3) as [s4 h4] eqn:H4.
  destruct (new_strings (LookupTableAccounts m) h4) as [s5 h5] eqn:H5.
  intros [= <- <-] a. unfold mint_arrays. simpl.
  pose proof (new_strings_subseteq _ _ _ _ H1) as S1.
  pose proof (new_strings_subseteq _ _ _ _ H2) as S2.
  pose proof (new_strings_subseteq _ _ _ _ H3) as S3.
  pose proof (new_strings_subseteq _ _ _ _ H4) as S4.
  rewrite !elem_of_union. intros [[[[Ha|Ha]|Ha]|Ha]|Ha].
  - by eapply new_strings_fresh.
  - eapply fresh_weaken; [exact S1|]. by eapply new_strings_fresh.
  - eapply fresh_weaken; [by etrans|]. by eapply new_strings_fresh.
  - eapply fresh_weaken; [by do 2 (etrans; [eassumption|])|]. by eapply new_strings_fresh.
  - eapply fresh_weaken; [by do 3 (etrans; [eassumption|])|]. by eapply new_strings_fresh.
Qed.

Lemma new_mint_list_fresh ms (h : heap) msh h' :
  new_mint_list ms h = (msh, h') → ∀ a, a ∈ ⋃ (mint_arrays <$> msh) → h !! a = None.
Proof.
  revert h msh h'. induction ms as [|m ms IH]; intros h msh h'; simpl.
  { intros [= <- <-] a. set_solver. }
  destruct (new_mint m h) as [mh h1] eqn:H1.
  destruct (new_mint_list ms h1) as [rest h2] eqn:H2.
  intros [= <- <-] a. csimpl. rewrite elem_of_union. intros [Ha|Ha].
  - by eapply new_mint_fresh.
  - eapply fresh_weaken; [by eapply new_mint_subseteq|]. by eapply IH.
Qed.

Lemma zero_routes_name_nothing spare : ⋃ (mint_arrays <$> replicate spare zeroMintH) = (∅ : gset loc).
Proof. induction spare as [|n IH]; csimpl; [done|]. rewrite IH. set_solver. Qed.

Lemma new_mints_fresh ms spare (h : heap) s h' hf :
  new_mints ms spare h = (s, h') → h' ⊆ hf →
  ∀ a, a ∈ slice_array s ∪ route_arrays hf s → h !! a = None.
Proof.
  unfold new_mints.
  assert (Hgen : (let '(msh, h0) := new_mint_list ms h in
                  let '(a, h1) := alloc (CMints (msh ++ replicate spare zeroMintH)) h0 in
                  (Slice a (length ms), h1)) = (s, h') → h' ⊆ hf →
                 ∀ a, a ∈ slice_array s ∪ route_arrays hf s → h !! a = None).
  { destruct (new_mint_list ms h) as [msh h0] eqn:H0.
    destruct (alloc _ h0) as [a0 h1] eqn:H1. intros [= <- <-] Hsub a.
    pose proof (new_mint_list_subseteq _ _ _ _ H0) as S0.
    apply alloc_spec in H1 as [Hf ->]. simpl.
    rewrite (lookup_weaken _ hf a0 (CMints (msh ++ replicate spare zeroMintH))
               (lookup_insert_eq _ _ _) Hsub).
    rewrite fmap_app, union_list_app_L, zero_routes_name_nothing, (right_id_L ∅ (∪)).
    rewrite elem_of_union. intros [->%elem_of_singleton|Ha].
    - by eapply fresh_weaken.
    - by eapply new_mint_list_fresh. }
  destruct ms; [destruct spare|]; try done.
  intros [= <- <-] _ a. simpl.
  by rewrite elem_of_union; intros [[]%elem_of_empty|[]%elem_of_empty].
Qed.

Lemma new_config_fresh v spare (h : heap) p h' :
  new_config v spare h = (p, h') → ∀ a, a ∈ reach h' p → h !! a = None.
Proof.
  unfold new_config.
  destruct (new_configH v spare h) as [ch h4] eqn:Hch. intros Ha.
  pose proof (alloc_subseteq _ _ _ _ Ha) as S5.
  apply alloc_spec in Ha as [Hf ->].
  revert Hch. unfold new_configH.
  destruct (new_mints (MintConfigList v) spare h) as [s1 h1] eqn:H1.
  destruct (new_strings (SendingRPCURLs (Spam v)) h1) as [s2 h2] eqn:H2.
  destruct (new_strings (BlockEngineURLs (Jito v)) h2) as [s3 h3] eqn:H3.
  destruct (new_strings (IPAddresses (Jito v)) h3) as [s4 h4'] eqn:H4.
  intros [= <- <-] a.
  pose proof (new_mints_spec _ _ _ _ _ H1) as [S1 _].
  pose proof (new_strings_subseteq _ _ _ _ H2) as S2.
  pose proof (new_strings_subseteq _ _ _ _ H3) as S3.
  pose proof (new_strings_subseteq _ _ _ _ H4) as S4.
  unfold reach. rewrite lookup_insert_eq. unfold config_arrays. simpl.
  rewrite !elem_of_union. intros [->%elem_of_singleton|[[[Hm|Hs]|Hs]|Hs]].
  - eapply fresh_weaken; [|exact Hf]. by do 3 (etrans; [eassumption|]).
  - eapply (new_mints_fresh _ _ _ _ _ _ H1); [|by apply elem_of_union].
    by do 4 (etrans; [eassumption|]).
  - eapply fresh_weaken; [exact S1|]. by eapply new_strings_fresh.
  - eapply fresh_weaken; [by etrans|]. by eapply new_strings_fresh.
  - eapply fresh_weaken; [by do 2 (etrans; [eassumption|])|]. by eapply new_strings_fresh.
Qed.

(** Allocation looks only at which locations are in use. *)
Lemma alloc_overwritten c (h : heap) l h' a x :
  is_Some (h !! a) → alloc c h = (l, h') →
  alloc c (<[a := x]> h) = (l, <[a := x]> h') ∧ is_Some (h' !! a).
Proof.
  intros Ha. pose proof Ha as [y Hy]. intros Hal.
  pose proof (alloc_subseteq _ _ _ _ Hal) as Hsub.
  apply alloc_spec in Hal as Hf. destruct Hf as [Hf ->].
  revert Hal. unfold alloc. intros [= Hl].
  rewrite (dom_insert_lookup_L h a x Ha), Hl.
  split; [|by eapply lookup_weaken_is_Some].
  f_equal. apply insert_insert_ne. by intros ->; rewrite Hf in Hy.
Qed.

Lemma new_strings_overwritten l (h : heap) s h' a x :
  is_Some (h !! a) → new_strings l h = (s, h') →
  new_strings l (<[a := x]> h) = (s, <[a := x]> h') ∧ is_Some (h' !! a).
Proof.
  intros Ha. unfold new_strings. destruct l; [by intros [= <- <-]|].
  destruct (alloc _ h) as [a0 h1] eqn:Hal. intros [= <- <-].
  destruct (alloc_overwritten _ _ _ _ a x Ha Hal) as [-> ?]. done.
Qed.

Lemma new_mint_overwritten m (h : heap) mh h' a x :
  is_Some (h !! a) → new_mint m h = (mh, h') →
  new_mint m (<[a := x]> h) = (mh, <[a := x]> h') ∧ is_Some (h' !! a).
Proof.
  intros Ha. unfold new_mint.
  destruct (new_strings (PumpPoolList m) h) as [s1 h1] eqn:H1.
  destruct (new_strings (RaydiumPoolList m) h1) as [s2 h2] eqn:H2.
  destruct (new_strings (RaydiumCPPoolList m) h2) as [s3 h3] eqn:H3.
  destruct (new_strings (MeteoraPoolList m) h3) as [s4 h4] eqn:H4.
  destruct (new_strings (LookupTableAccounts m) h4) as [s5 h5] eqn:H5.
  intros [= <- <-].
  destruct (new_strings_overwritten _ _ _ _ a x Ha H1) as [-> Ha1].
  destruct (new_strings_overwritten _ _ _ _ a x Ha1 H2) as [-> Ha2].
  destruct (new_strings_overwritten _ _ _ _ a x Ha2 H3) as [-> Ha3].
  destruct (new_strings_overwritten _ _ _ _ a x Ha3 H4) as [-> Ha4].
  destruct (new_strings_overwritten _ _ _ _ a x Ha4 H5) as [-> Ha5].
  done.
Qed.

Lemma new_mint_list_overwritten ms (h : heap) msh h' a x :
  is_Some (h !! a) → new_mint_list ms h = (msh, h') →
  new_mint_list ms (<[a := x]> h) = (msh, <[a := x]> h') ∧ is_Some (h' !! a).
Proof.
  revert h msh h'. induction ms as [|m ms IH]; intros h msh h' Ha; simpl.
  { by intros [= <- <-]. }
  destruct (new_mint m h) as [mh h1] eqn:H1.
  destruct (new_mint_list ms h1) as [rest h2] eqn:H2.
  intros [= <- <-].
  destruct (new_mint_overwritten _ _ _ _ a x Ha H1) as [-> Ha1].
  destruct (IH _ _ _ Ha1 H2) as [-> Ha2]. done.
Qed.

Lemma new_mints_overwritten ms spare (h : heap) s h' a x :
  is_Some (h !! a) → new_mints ms spare h = (s, h') →
  new_mints ms spare (<[a := x]> h) = (s, <[a := x]> h') ∧ is_Some (h' !! a).
Proof.
  intros Ha. unfold new_mints.
  assert (Hgen :
            (let '(msh, h0) := new_mint_list ms h in
             let '(a, h1) := alloc (CMints (msh ++ replicate spare zeroMintH)) h0 in
             (Slice a (length ms), h1)) = (s, h') →
            (let '(msh, h0) := new_mint_list ms (<[a := x]> h) in
             let '(a, h1) := alloc (CMints (msh ++ replicate spare zeroMintH)) h0 in
             (Slice a (length ms), h1)) = (s, <[a := x]> h') ∧ is_Some (h' !! a)).
  { destruct (new_mint_list ms h) as [msh h0] eqn:H0.
    destruct (alloc _ h0) as [a0 h1] eqn:H1. intros [= <- <-].
    destruct (new_mint_list_overwritten _ _ _ _ a x Ha H0) as [-> Ha0].
    destruct (alloc_overwritten _ _ _ _ a x Ha0 H1) as [-> Ha1]. done. }
  destruct ms; [destruct spare|]; try done.
  by intros [= <- <-].
Qed.

Lemma new_config_overwritten v spare (h : heap) p h' a x :
  is_Some (h !! a) → new_config v spare h = (p, h') →
  new_config v spare (<[a := x]> h) = (p, <[a := x]> h').
Proof.
  intros Ha. unfold new_config, new_configH.
  destruct (new_mints (MintConfigList v) spare h) as [s1 h1] eqn:H1.
  destruct (new_strings (SendingRPCURLs (Spam v)) h1) as [s2 h2] eqn:H2.
  destruct (new_strings (BlockEngineURLs (Jito v)) h2) as [s3 h3] eqn:H3.
  destruct (new_strings (IPAddresses (Jito v)) h3) as [s4 h4] eqn:H4.
  intros Hal.
  destruct (new_mints_overwritten _ _ _ _ _ a x Ha H1) as [-> Ha1].
  destruct (new_strings_overwritten _ _ _ _ a x Ha1 H2) as [-> Ha2].
  destruct (new_strings_overwritten _ _ _ _ a x Ha2 H3) as [-> Ha3].
  destruct (new_strings_overwritten _ _ _ _ a x Ha3 H4) as [-> Ha4].
  by destruct (alloc_overwritten _ _ _ _ a x Ha4 Hal) as [-> _].
Qed.

Section DeepCopy.
Context `{Codec}.

(** [c.Copy()] is a deep copy.  It returns a configuration that holds what
    the JSON round trip makes of the receiver, and no cell the copy reaches
    (the struct, its arrays, the arrays of its routes) existed before the
    call: the copy shares no array with the receiver or with anything else.
    So a write to any cell of the copy leaves the receiver reading as
    before, and a write to any cell that existed before the call leaves the
    copy reading as it did. *)
Theorem Config_Copy_is_deep c e w v :
  read_config (mem w) c = Some v →
  ∃ copy w1,
    Config_Copy c e w = Done copy w1 [ECopy c copy] ∧
    agent w1 = agent w ∧ mem w ⊆ mem w1 ∧
    read_config (mem w1) copy = Some (json_roundtrip v) ∧
    (∀ a, a ∈ reach (mem w1) copy → mem w !! a = None) ∧
    (∀ a x, a ∈ reach (mem w1) copy →
            read_config (<[a := x]> (mem w1)) c = Some v) ∧
    (∀ a x, is_Some (mem w !! a) →
            read_config (<[a := x]> (mem w1)) copy = Some (json_roundtrip v)).
Proof.
  intros Hv. unfold Config_Copy. rewrite bind_get, bind_ask, Hv.
  destruct (new_config _ (spare_cap e) (mem w)) as [p h1] eqn:Hnew.
  pose proof (new_config_read _ _ _ _ _ Hnew) as Hread.
  pose proof (new_config_fresh _ _ _ _ _ Hnew) as Hfresh.
  pose proof (new_config_spec _ _ _ _ _ Hnew) as (Hsub & _ & _).
  exists p, (with_mem (λ _, h1) w). rewrite bind_modify. simpl.
  split; [done|]. split; [done|]. split; [done|]. split; [done|].
  split; [done|]. split.
  - intros a x Ha. eapply read_config_mono; [|exact Hv].
    apply insert_subseteq_r; [by apply Hfresh|done].
  - intros a x Ha.
    by eapply new_config_read, new_config_overwritten.
Qed.
End DeepCopy.

Lemma Config_Copy_is_deep_witness :
  ∃ copy w1,
    @Config_Copy plainCodec 3 okEnv freshWorld = Done copy w1 [ECopy 3 copy] ∧
    agent w1 = agent freshWorld ∧ mem freshWorld ⊆ mem w1 ∧
    read_config (mem w1) copy = Some liveConfig ∧
    (∀ a, a ∈ reach (mem w1) copy → mem freshWorld !! a = None) ∧
    (∀ a x, a ∈ reach (mem w1) copy →
            read_config (<[a := x]> (mem w1)) 3 = Some liveConfig) ∧
    (∀ a x, is_Some (mem freshWorld !! a) →
            read_config (<[a := x]> (mem w1)) copy = Some liveConfig).
Proof.
  apply (@Config_Copy_is_deep plainCodec 3 okEnv freshWorld liveConfig).
  vm_compute. reflexivity.
Defined.

(** Whether a run started a child process. *)
Definition spawns (tr : list Event) : bool :=
  existsb (λ ev, match ev with ESpawn _ => true | _ => false end) tr.

(** [p.Stop()] sends the signal and leaves [p.isRunning] to the exit
    observer.  When the observer has not run by the time [RestartMEVBot]
    and [UpdateConfig] call [p.Start()], that call finds [p.isRunning] set
    and returns without starting a process: the handle still holds the
    signalled one. *)
Theorem restart_needs_observed_exit e w p v :
  p_isRunning (proc w) = true →
  exit_between e = false →
  read_config (mem w) p = Some v →
  spawns (trace_of (Agent_RestartMEVBot e w)) = false ∧
  p_cmd (proc (world_of (Agent_RestartMEVBot e w))) = p_cmd (proc w) ∧
  spawns (trace_of (Agent_UpdateConfig p e w)) = false ∧
  p_cmd (proc (world_of (Agent_UpdateConfig p e w))) = p_cmd (proc w).
Proof.
  intros Hrun Hex Hread.
  remember (Agent_RestartMEVBot e w) as r eqn:Hr. symmetry in Hr. revert Hr.
  remember (Agent_UpdateConfig p e w) as u eqn:Hu. symmetry in Hu. revert Hu.
  go_destruct_world w; go_destruct_env e. simpl in *. subst.
  go_run_known; intros <-; go_run; intros <-; done.
Qed.

Lemma restart_needs_observed_exit_witness :
  spawns (trace_of (Agent_RestartMEVBot okEnv startedWorld)) = false ∧
  p_cmd (proc (world_of (Agent_RestartMEVBot okEnv startedWorld))) = CmdProcess 4242 ∧
  trace_of (Agent_RestartMEVBot okEnv startedWorld)
    = [ELock; EProcStop; ESignalTerm 4242; ESetManuallyStopped true; EProcStart;
       ESetManuallyStopped false; EBroadcast "MEV Bot已重启"; EUnlock].
Proof.
  destruct (restart_needs_observed_exit okEnv startedWorld 3 liveConfig)
    as (Hspawn & Hcmd & _); [vm_compute; reflexivity..|].
  split; [exact Hspawn|]. split; [exact Hcmd|]. vm_compute. reflexivity.
Defined.

(** * More of the code: runs of the agent, the command loop, the tracker *)

(** ** What every step of the agent keeps *)

(** [p.isRunning] only with a process in [p.cmd]. *)
Definition handle_ok (p : ProcessManager) : Prop :=
  p_isRunning p = true → ∃ pid, p_cmd p = CmdProcess pid.

(** What a step of the transition system leaves as it was, or lets only
    grow, between the world before and the world after. *)
Record kept (w w' : World) : Prop := MkKept {
  kept_path : mevConfigPath (agent w') = mevConfigPath (agent w);
  kept_settings : agentConfig (agent w') = agentConfig (agent w);
  kept_ctx : ctx_done (agent w) = true → ctx_done (agent w') = true;
  kept_fanouts : ws_fanouts (ws w) ≤ ws_fanouts (ws w');
  kept_trackers : trackers w ≤ trackers w';
  kept_monitors : length (monitors w) ≤ length (monitors w');
  kept_handle : handle_ok (proc w) → handle_ok (proc w')
}.

Lemma kept_refl w : kept w w.
Proof. by split. Qed.

Lemma kept_trans w1 w2 w3 : kept w1 w2 → kept w2 w3 → kept w1 w3.
Proof.
  intros [] []. split; try (etrans; eassumption); eauto.
Qed.

Ltac kept_done :=
  split; simpl in *; unfold handle_ok in *; simpl in *;
  rewrite ?length_insert, ?length_app; simpl; eauto; try lia; try congruence; try done.

Lemma step_kept l e w w' tr : step l e w = Some (w', tr) → kept w w'.
Proof.
  destruct l; unfold step, finished.
  all: go_destruct_world w; go_destruct_env e; simpl.
  all: repeat match goal with
       | |- context [match ?l !! ?i with _ => _ end] => destruct (l !! i) as [[]|] eqn:?
       end; try done.
  all: go_run; try done; intros [= <- <-]; kept_done.
Qed.

Lemma exec_kept ls w w' trs : exec ls w = Some (w', trs) → kept w w'.
Proof.
  revert w w' trs. induction ls as [|[l e] ls IH]; intros w w' trs; simpl.
  { intros [= <- <-]. apply kept_refl. }
  destruct (step l e w) as [[w1 tr]|] eqn:Hstep; [|done].
  destruct (exec ls w1) as [[w2 trs']|] eqn:Hexec; [|done].
  intros [= <- <-]. eapply kept_trans; [by eapply step_kept|by eapply IH].
Qed.

(** [Stop] cancels the context and nothing makes a new one: after a [Stop]
    that found the agent running, the context is cancelled at the end of
    every run that follows, whatever it contains (further calls of [Start]
    too), so that every monitor waiting in its [select], also one started
    later, can leave through [ctx.Done]. *)
Theorem context_is_never_renewed e w w1 tr1 ls w2 trs :
  isRunning (agent w) = true →
  step LStop e w = Some (w1, tr1) →
  exec ls w1 = Some (w2, trs) →
  ctx_done (agent w2) = true ∧
  ∀ i e', monitors w2 !! i = Some MonSelect →
          step (LMonitorDone i) e' w2 = Some (set_monitor i MonExited w2, []).
Proof.
  intros Hrun Hstop Hexec.
  assert (Hc1 : ctx_done (agent w1) = true).
  { revert Hrun Hstop. unfold step, finished.
    go_destruct_world w; go_destruct_env e. simpl. intros ->.
    go_run; intros [= <- <-]; done. }
  assert (Hc2 : ctx_done (agent w2) = true).
  { by eapply (kept_ctx _ _ (exec_kept _ _ _ _ Hexec)). }
  split; [done|]. intros i e' Hi. simpl. by rewrite Hi, Hc2.
Qed.

Lemma context_is_never_renewed_witness :
  let w1 := world_after (okRun [LStop]) startedWorld in
  let w2 := world_after (okRun [LProcExit; LStart]) w1 in
  isRunning (agent w2) = true ∧ ctx_done (agent w2) = true ∧
  monitors w2 = [MonSelect; MonSelect] ∧
  step (LMonitorDone 1) okEnv w2 = Some (set_monitor 1 MonExited w2, []).
Proof.
  intros w1 w2.
  destruct (context_is_never_renewed okEnv startedWorld w1
              [ELock; ESetManuallyStopped true; ECancel; EProcStop; ESignalTerm 4242;
               EWsStop; EUnlock]
              (okRun [LProcExit; LStart]) w2
              (events_after (okRun [LProcExit; LStart]) w1)) as [Hctx Hdone].
  - reflexivity.
  - vm_compute. reflexivity.
  - vm_compute. reflexivity.
  - split; [vm_compute; reflexivity|]. split; [exact Hctx|].
    split; [vm_compute; reflexivity|]. apply Hdone. vm_compute. reflexivity.
Defined.

(** Every [Start] that gets past its [isRunning] test starts a
    [broadcastMessages] goroutine, also when the worker then fails to start
    and [Start] returns the error; when it succeeds it starts a tracker and
    a monitor as well.  Nothing ends a broadcaster or a tracker: in every
    run that follows their numbers do not go down (nor does the number of
    monitors started). *)
Theorem start_adds_goroutines_nothing_ends_them e w w1 tr1 ls w2 trs :
  isRunning (agent w) = false →
  step LStart e w = Some (w1, tr1) →
  exec ls w1 = Some (w2, trs) →
  ws_fanouts (ws w1) = S (ws_fanouts (ws w)) ∧
  (isRunning (agent w1) = true →
     trackers w1 = S (trackers w) ∧ monitors w1 = monitors w ++ [MonSelect]) ∧
  (isRunning (agent w1) = false →
     trackers w1 = trackers w ∧ monitors w1 = monitors w ∧ EWsStop ∈ tr1) ∧
  ws_fanouts (ws w1) ≤ ws_fanouts (ws w2) ∧
  trackers w1 ≤ trackers w2 ∧
  length (monitors w1) ≤ length (monitors w2).
Proof.
  intros Hrun Hstart Hexec.
  pose proof (exec_kept _ _ _ _ Hexec) as [].
  repeat split; try done; revert Hrun Hstart; unfold step, finished;
    go_destruct_world w; go_destruct_env e; simpl; intros ->;
    go_run; intros [= <- <-]; simpl; try done; set_solver.
Qed.

Lemma start_adds_goroutines_nothing_ends_them_witness :
  let w1 := world_after [(LStart, noExeEnv)] freshWorld in
  let w2 := world_after (okRun [LStart; LStop; LProcExit; LStart]) w1 in
  isRunning (agent w1) = false ∧ ws_fanouts (ws w1) = 1 ∧
  ws_fanouts (ws w2) = 3 ∧ trackers w2 = 2 ∧ length (monitors w2) = 2.
Proof.
  intros w1 w2.
  destruct (start_adds_goroutines_nothing_ends_them noExeEnv freshWorld w1
              [ELock; EWsStart; EProcStart; EWsStop; EUnlock]
              (okRun [LStart; LStop; LProcExit; LStart]) w2
              (events_after (okRun [LStart; LStop; LProcExit; LStart]) w1))
    as (Hfan & _); [vm_compute; reflexivity..|].
  split; [vm_compute; reflexivity|]. split; [exact Hfan|].
  vm_compute. repeat split; reflexivity.
Defined.

(** From the agent [NewAgent] builds, in every run: [p.isRunning] is set
    only while [p.cmd] holds a started process, so a [Stop] of a running
    worker always reaches the signal; the nil tests at its head only ever
    fire together with [!p.isRunning]. *)
Theorem running_worker_has_a_process path agentPath loaded loadedAgent fs w0 ls w trs e :
  NewAgent path agentPath loaded loadedAgent fs = inr w0 →
  exec ls w0 = Some (w, trs) →
  p_isRunning (proc w) = true →
  ∃ pid, p_cmd (proc w) = CmdProcess pid ∧
         ESignalTerm pid ∈ trace_of (ProcessManager_Stop e w).
Proof.
  intros Hnew Hexec Hrun.
  assert (Hok : handle_ok (proc w0)).
  { revert Hnew. unfold NewAgent. destruct loaded; [done|].
    destruct (new_config _ _ _). by intros [= <-]. }
  apply (kept_handle _ _ (exec_kept _ _ _ _ Hexec)) in Hok.
  destruct (Hok Hrun) as [pid Hpid]. exists pid. split; [done|].
  revert Hrun Hpid. go_destruct_world w; go_destruct_env e. simpl. intros -> ->.
  go_unfold. simpl. destruct sig; [destruct kill|]; simpl; set_solver.
Qed.

Lemma running_worker_has_a_process_witness :
  ∃ pid, p_cmd (proc (world_after (okRun [LStart; LStopMEVBot]) freshWorld)) = CmdProcess pid ∧
         ESignalTerm pid ∈
           trace_of (ProcessManager_Stop okEnv
                       (world_after (okRun [LStart; LStopMEVBot]) freshWorld)).
Proof.
  apply (running_worker_has_a_process "config.toml" "config.yaml" (inr liveConfig)
           (inr (MkFlashAgentConfig "ave" "secret"))
           {["config.toml" := FileToml liveConfig]} freshWorld
           (okRun [LStart; LStopMEVBot]) _
           (events_after (okRun [LStart; LStopMEVBot]) freshWorld) okEnv);
    vm_compute; reflexivity.
Defined.

(** When the agent settings cannot be loaded, [NewAgent] goes on with a nil
    [agentConfig], and nothing assigns the field afterwards: at the end of
    every run, every handshake dereferences nil, whatever the request. *)
Theorem missing_settings_break_every_handshake
    path agentPath cfg err fs w0 ls w trs (r : Request) e :
  NewAgent path agentPath (inr cfg) (inl err) fs = inr w0 →
  exec ls w0 = Some (w, trs) →
  agentConfig (agent w) = None ∧ handleConnections r e w = Panicked w [].
Proof.
  intros Hnew Hexec.
  assert (Hnil : agentConfig (agent w0) = None).
  { revert Hnew. unfold NewAgent. destruct (new_config _ _ _). by intros [= <-]. }
  rewrite <-(kept_settings _ _ (exec_kept _ _ _ _ Hexec)) in Hnil.
  split; [done|]. unfold handleConnections, bind, get. by rewrite Hnil.
Qed.

(** The agent built when config.yaml is missing. *)
Definition bareWorld : World :=
  match NewAgent "config.toml" "config.yaml" (inr liveConfig)
          (inl "配置文件 config.yaml 不存在") {["config.toml" := FileToml liveConfig]} with
  | inr w => w
  | inl _ => emptyWorld
  end.

Lemma missing_settings_break_every_handshake_witness :
  agentConfig (agent (world_after (okRun [LStart]) bareWorld)) = None ∧
  handleConnections (MkRequest "" (inr 7)) okEnv (world_after (okRun [LStart]) bareWorld)
    = Panicked (world_after (okRun [LStart]) bareWorld) [].
Proof.
  apply (missing_settings_break_every_handshake "config.toml" "config.yaml" liveConfig
           "配置文件 config.yaml 不存在" {["config.toml" := FileToml liveConfig]}
           bareWorld (okRun [LStart]) (world_after (okRun [LStart]) bareWorld)
           (events_after (okRun [LStart]) bareWorld) (MkRequest "" (inr 7)) okEnv);
    vm_compute; reflexivity.
Defined.

(** ** Start and Stop of the agent *)

(** [Stop] returns nil on every path: the errors of the worker's [Stop]
    and of the server's [Close] are logged and dropped.  On an agent that
    is not running it does nothing.  On a running one it sets
    [manuallyStopped], cancels the context and clears [isRunning]; it does
    not wait for the worker, whose [isRunning] it leaves as it was, and it
    keeps the clients registered. *)
Theorem Stop_returns_nil e w :
  ∃ w' tr,
    Agent_Stop e w = Done None w' tr ∧
    (isRunning (agent w) = false → w' = w ∧ tr = [ELock; EUnlock]) ∧
    (isRunning (agent w) = true →
       isRunning (agent w') = false ∧ manuallyStopped (agent w') = true ∧
       ctx_done (agent w') = true ∧ ECancel ∈ tr ∧
       proc w' = proc w ∧ ws w' = ws w ∧ mem w' = mem w ∧ disk w' = disk w).
Proof.
  go_destruct_world w; go_destruct_env e.
  remember (Agent_Stop _ _) as r eqn:Hr. symmetry in Hr. revert Hr.
  go_run; intros <-; do 2 eexists; (split; [reflexivity|]); simpl;
    (split; [try done|]); intros; try done; repeat split; set_solver.
Qed.

(** The ways [Start] ends.  On a running agent it does nothing.  Otherwise
    it returns nil only with the worker marked running and the agent
    marked running; when the executable is missing or the process cannot
    be started it returns that error, has closed the server again, and
    leaves the agent not running. *)
Theorem Start_outcomes e w :
  (isRunning (agent w) = true → Agent_Start e w = Done None w [ELock; EUnlock]) ∧
  (isRunning (agent w) = false →
     ∃ o w' tr,
       Agent_Start e w = Done o w' tr ∧
       match o with
       | None =>
           isRunning (agent w') = true ∧ p_isRunning (proc w') = true ∧
           (p_isRunning (proc w) = false →
              stat_not_exist e = false ∧ spawn_err e = None ∧ ESpawn (new_pid e) ∈ tr)
       | Some err =>
           isRunning (agent w') = false ∧ p_isRunning (proc w') = false ∧
           p_isRunning (proc w) = false ∧ EWsStop ∈ tr ∧
           (stat_not_exist e = true ∧
              err = "找不到可执行文件: " +:+ p_executable (proc w)
            ∨ stat_not_exist e = false ∧ spawn_err e = Some err)
       end).
Proof.
  go_destruct_world w; go_destruct_env e. simpl. split; intros ->.
  - go_unfold. reflexivity.
  - remember (Agent_Start _ _) as r eqn:Hr. symmetry in Hr. revert Hr.
    go_run; intros <-; do 3 eexists; (split; [reflexivity|]); simpl;
      repeat split; try done; try set_solver; auto.
Qed.

(** ** A full broadcast channel *)

Definition unlocks (tr : list Event) : bool :=
  existsb (λ ev, match ev with EUnlock => true | _ => false end) tr.

(** What is left of a call that met a full channel: it has not returned
    nil, and when it waits it waits before its [Unlock]. *)
Definition stuck_under_lock {A} (r : Res (option A)) : Prop :=
  match r with
  | Done None _ _ => False
  | Done (Some _) _ _ => True
  | Blocked _ tr => unlocks tr = false
  | Panicked _ _ => True
  end.

Lemma chan_send_full {A} (x : A) c :
  chan_cap c ≤ length (chan_buf c) → chan_send x c = None.
Proof. unfold chan_send. intros. case_decide; [lia|done]. Qed.

Ltac go_eval_full Hs m e w :=
  let r := fresh "r" in
  let Hr := fresh "Hr" in
  remember (m e w) as r eqn:Hr; symmetry in Hr; revert Hr;
  go_destruct_world w; go_destruct_env e; simpl in Hs;
  go_unfold; simpl;
  repeat (first [ rewrite !Hs | go_case ]; simpl);
  intros <-.

(** [BroadcastMessage] is a plain send on a channel of capacity 100, made
    inside the critical section of the calling method.  With the channel
    full, none of the four methods that broadcast returns nil: each either
    returns an error met before the broadcast or waits at the send with
    [a.mu] still locked; the same holds for the write-locked part of a
    health-check tick, which always waits. *)
Theorem full_broadcast_channel_holds_the_lock e w p :
  chan_cap (ws_broadcast (ws w)) ≤ length (chan_buf (ws_broadcast (ws w))) →
  stuck_under_lock (Agent_StopMEVBot e w) ∧
  stuck_under_lock (Agent_StartMEVBot e w) ∧
  stuck_under_lock (Agent_RestartMEVBot e w) ∧
  stuck_under_lock (Agent_UpdateConfig p e w) ∧
  ∃ w' tr, monitor_tick_act e w = Blocked w' tr ∧ unlocks tr = false.
Proof.
  intros Hfull.
  assert (Hs : ∀ m, chan_send m (ws_broadcast (ws w)) = None).
  { intros m. by apply chan_send_full. }
  clear Hfull. repeat split.
  - go_eval_full Hs Agent_StopMEVBot e w; done.
  - go_eval_full Hs Agent_StartMEVBot e w; done.
  - go_eval_full Hs Agent_RestartMEVBot e w; done.
  - go_eval_full Hs (Agent_UpdateConfig p) e w; done.
  - go_eval_full Hs monitor_tick_act e w; by do 2 eexists.
Qed.

Definition crowdedWorld : World :=
  with_ws (set_ws_broadcast (Chan (replicate 100 "MEV Bot已重启") 100)) startedWorld.

Lemma full_broadcast_channel_holds_the_lock_witness :
  Agent_StopMEVBot okEnv crowdedWorld
  = Blocked (with_agent (set_manuallyStopped true) crowdedWorld)
      [ELock; ESetManuallyStopped true; EProcStop; ESignalTerm 4242].
Proof.
  destruct (full_broadcast_channel_holds_the_lock okEnv crowdedWorld 3) as [Hstop _].
  - vm_compute. lia.
  - revert Hstop. vm_compute. reflexivity.
Defined.

(** ** The command loop of a connection (part_001, lines 119-231) *)

(** [defer cleanup(); body]: the deferred call runs when the body returns
    and when it panics, not while it waits. *)
Definition deferred {A} (body : M A) (cleanup : World → World) : M A := λ e w,
  match body e w with
  | Done a w1 tr => Done a (cleanup w1) tr
  | Blocked w1 tr => Blocked w1 tr
  | Panicked w1 tr => Panicked (cleanup w1) tr
  end.

Section CommandLoop.
Context `{Codec}.

(** The [for] loop of [handleMessages] over what [conn.ReadJSON] returns,
    call after call; when the list is used up the loop waits in
    [ReadJSON]. *)
Fixpoint readLoop (c : conn) (reads : list (error + Command)) : M unit :=
  match reads with
  | [] => block
  | inl _ :: _ => ret tt                                  (* break *)
  | inr cmd :: rest => handleCommand c cmd >> readLoop c rest
  end.

(** [ws.handleMessages(conn)], lines 119-142. *)
Definition handleMessages (c : conn) (reads : list (error + Command)) : M unit :=
  deferred (readLoop c reads)
           (with_ws (λ s, set_ws_clients (ws_clients s ∖ {[c]}) s)).

Lemma readLoop_stops_at_error c cmds err rest e w :
  readLoop c ((inr <$> cmds) ++ inl err :: rest) e w
  = readLoop c ((inr <$> cmds) ++ [inl err]) e w.
Proof.
  revert w. induction cmds as [|cmd cmds IH]; intros w; csimpl; [done|].
  unfold bind. destruct (handleCommand c cmd e w) as [[] w1 tr1| |]; [|done..].
  by rewrite IH.
Qed.

Lemma readLoop_Done c reads e w w' tr :
  readLoop c reads e w = Done tt w' tr →
  ∃ cmds err rest, reads = (inr <$> cmds) ++ inl err :: rest.
Proof.
  revert w w' tr. induction reads as [|[err|cmd] reads IH]; intros w w' tr; simpl; [done| |].
  - intros _. by exists [], err, reads.
  - unfold bind. destruct (handleCommand c cmd e w) as [[] w1 tr1| |]; [|done..].
    destruct (readLoop c reads e w1) as [[] w2 tr2| |] eqn:Hloop; [|done..].
    intros _. destruct (IH _ _ _ Hloop) as (cmds & err & rest & ->).
    by exists (cmd :: cmds), err, rest.
Qed.

(** The loop of a connection ends only at a failed read.  When it has
    ended, the connection is no longer in the client set, and the commands
    read before the failure are the only ones that were handled: what
    would have been read after it makes no difference to the run. *)
Theorem handleMessages_unregisters c reads e w w' tr :
  handleMessages c reads e w = Done tt w' tr →
  (c ∉ ws_clients (ws w')) ∧
  ∃ cmds err rest,
    reads = (inr <$> cmds) ++ inl err :: rest ∧
    handleMessages c ((inr <$> cmds) ++ [inl err]) e w = Done tt w' tr.
Proof.
  unfold handleMessages, deferred.
  destruct (readLoop c reads e w) as [[] w1 tr1| |] eqn:Hloop; [|done..].
  intros [= <- <-]. split.
  { simpl. rewrite elem_of_difference. intros [_ Hn]. apply Hn. by apply elem_of_singleton. }
  destruct (readLoop_Done _ _ _ _ _ _ Hloop) as (cmds & err & rest & ->).
  exists cmds, err, rest. split; [done|].
  by rewrite <-(readLoop_stops_at_error _ _ _ rest), Hloop.
Qed.

(** Commands that the dispatcher does not know.  A type other than
    [config] and [bot] gets the error response.  A known type with an
    action the inner switch does not list gets a response with neither
    message nor error.  Neither changes anything.  [config]/[get] answers
    with the live configuration. *)
Theorem unknown_commands_change_nothing c cmd e w :
  let bare := MkResponse (cmd_Action cmd) None None None in
  (cmd_Type cmd ≠ "config" → cmd_Type cmd ≠ "bot" →
     handleCommand c cmd e w
     = Done tt w [EWriteJSON c (FResponse (with_error "未知命令类型" bare))]) ∧
  (cmd_Type cmd = "config" →
     cmd_Action cmd ∉ ["get"; "update"; "updateSection"; "addMint"; "removeMint"] →
     handleCommand c cmd e w = Done tt w [EWriteJSON c (FResponse bare)]) ∧
  (cmd_Type cmd = "bot" →
     cmd_Action cmd ∉ ["status"; "restart"; "updateRPC"; "toggleFeature"] →
     handleCommand c cmd e w = Done tt w [EWriteJSON c (FResponse bare)]) ∧
  (cmd_Type cmd = "config" → cmd_Action cmd = "get" →
     handleCommand c cmd e w
     = Done tt w [EWriteJSON c (FResponse
         (MkResponse "get" (Some (read_config (mem w) (mevConfig (agent w)))) None None))]).
Proof.
  intros bare. unfold handleCommand. repeat split.
  - intros Hc Hb.
    apply String.eqb_neq in Hc, Hb. by rewrite Hc, Hb.
  - intros -> Hact. simpl.
    repeat (apply not_elem_of_cons in Hact as [Hne Hact];
            apply String.eqb_neq in Hne; rewrite Hne; clear Hne).
    done.
  - intros -> Hact. simpl.
    repeat (apply not_elem_of_cons in Hact as [Hne Hact];
            apply String.eqb_neq in Hne; rewrite Hne; clear Hne).
    done.
  - intros -> ->. done.
Qed.

End CommandLoop.

Definition oneClientWorld : World :=
  with_ws (λ s, set_ws_clients {[7]} s) startedWorld.

Lemma handleMessages_unregisters_witness :
  let reads := [inr statusCommand; inr (MkCommand "Config" "get" "" "" "");
                inl "websocket: close 1001 (going away)"; inr rpcCommand] in
  handleMessages (H:=plainCodec) 7 reads okEnv oneClientWorld
  = Done tt (with_agent (set_statusChecks (Chan [tt] 1)) startedWorld)
      [EWriteJSON 7 status_response;
       EWriteJSON 7 (FResponse (MkResponse "get" None None (Some "未知命令类型")))] ∧
  7 ∉ ws_clients (ws (with_agent (set_statusChecks (Chan [tt] 1)) startedWorld)).
Proof.
  intros reads.
  assert (Hrun : handleMessages (H:=plainCodec) 7 reads okEnv oneClientWorld
    = Done tt (with_agent (set_statusChecks (Chan [tt] 1)) startedWorld)
        [EWriteJSON 7 status_response;
         EWriteJSON 7 (FResponse (MkResponse "get" None None (Some "未知命令类型")))]).
  { vm_compute. reflexivity. }
  split; [exact Hrun|].
  exact (proj1 (handleMessages_unregisters (H:=plainCodec) 7 reads okEnv oneClientWorld _ _ Hrun)).
Defined.

(** ** The tracker: pools of a token (part_001, lines 564-583 and 710-817) *)

Module Pool.
Record t := Mk { PoolID : string; ProgramID : string }.
End Pool.

(** An entry of [metadata.accounts]; the address and the tags are only
    logged. *)
Module Account.
Record t := Mk { AccountLabel : string; AccountType : string }.
End Account.

Record SolscanPoolResponse := MkSolscanPoolResponse {
  Success : bool;
  Pools : list Pool.t;                       (* data *)
  Accounts : gmap string Account.t           (* metadata.accounts *)
}.

Definition add_PumpPool (id : string) (i : TokenPoolsInfo.t) : TokenPoolsInfo.t :=
  TokenPoolsInfo.Mk (TokenPoolsInfo.TokenAddress i) (TokenPoolsInfo.TokenSymbol i)
    (TokenPoolsInfo.Volume15m i) (TokenPoolsInfo.PumpPools i ++ [id])
    (TokenPoolsInfo.MeteoraLists i) (TokenPoolsInfo.RaydiumPools i)
    (TokenPoolsInfo.RaydiumCPPools i).
Definition add_MeteoraList (id : string) (i : TokenPoolsInfo.t) : TokenPoolsInfo.t :=
  TokenPoolsInfo.Mk (TokenPoolsInfo.TokenAddress i) (TokenPoolsInfo.TokenSymbol i)
    (TokenPoolsInfo.Volume15m i) (TokenPoolsInfo.PumpPools i)
    (TokenPoolsInfo.MeteoraLists i ++ [id]) (TokenPoolsInfo.RaydiumPools i)
    (TokenPoolsInfo.RaydiumCPPools i).
Definition add_RaydiumPool (id : string) (i : TokenPoolsInfo.t) : TokenPoolsInfo.t :=
  TokenPoolsInfo.Mk (TokenPoolsInfo.TokenAddress i) (TokenPoolsInfo.TokenSymbol i)
    (TokenPoolsInfo.Volume15m i) (TokenPoolsInfo.PumpPools i)
    (TokenPoolsInfo.MeteoraLists i) (TokenPoolsInfo.RaydiumPools i ++ [id])
    (TokenPoolsInfo.RaydiumCPPools i).
Definition add_RaydiumCPPool (id : string) (i : TokenPoolsInfo.t) : TokenPoolsInfo.t :=
  TokenPoolsInfo.Mk (TokenPoolsInfo.TokenAddress i) (TokenPoolsInfo.TokenSymbol i)
    (TokenPoolsInfo.Volume15m i) (TokenPoolsInfo.PumpPools i)
    (TokenPoolsInfo.MeteoraLists i) (TokenPoolsInfo.RaydiumPools i)
    (TokenPoolsInfo.RaydiumCPPools i ++ [id]).

Section Pools.
(** [strings.ToLower] *)
Variable strings_ToLower : string → string.

(** [strings.Contains(strings.ToLower(label), needle)] *)
Definition labelled (label needle : string) : bool :=
  strings_Contains (strings_ToLower label) needle.

(** The body of the loop at lines 766-811. *)
Definition classifyPool (accounts : gmap string Account.t)
    (tokenInfo : TokenPoolsInfo.t) (pool : Pool.t) : TokenPoolsInfo.t :=
  let poolID := Pool.PoolID pool in
  let programID := Pool.ProgramID pool in
  let tokenInfo :=
    match accounts !! poolID with
    | Some poolAccount =>
        if labelled (Account.AccountLabel poolAccount) "pump"
           && negb (labelled (Account.AccountLabel poolAccount) "bonding curve")
        then add_PumpPool poolID tokenInfo
        else tokenInfo
    | None => tokenInfo
    end in
  match accounts !! programID with
  | Some progAccount =>
      let tokenInfo :=
        if labelled (Account.AccountLabel progAccount) "raydium"
           && String.eqb (Account.AccountType progAccount) "program"
        then
          if labelled (Account.AccountLabel progAccount) "concentrated"
             || labelled (Account.AccountLabel progAccount) "clmm"
          then add_RaydiumCPPool poolID tokenInfo
          else add_RaydiumPool poolID tokenInfo
        else tokenInfo in
      if labelled (Account.AccountLabel progAccount) "meteora"
         && String.eqb (Account.AccountType progAccount) "program"
      then
        if labelled (Account.AccountLabel progAccount) "dlmm"
        then add_MeteoraList poolID tokenInfo
        else tokenInfo
      else tokenInfo
  | None => tokenInfo
  end.

(** [h.FetchPoolsForToken(tokenInfo, tokenAddress)], lines 710-817, given
    what came back: [None] when the request failed, the status was not 200,
    or the body could not be read or decoded. *)
Definition FetchPoolsForToken (resp : option SolscanPoolResponse)
    (tokenInfo : TokenPoolsInfo.t) : TokenPoolsInfo.t :=
  match resp with
  | None => tokenInfo
  | Some poolResp =>
      if negb (Success poolResp) || bool_decide (length (Pools poolResp) = 0)
      then tokenInfo
      else foldl (classifyPool (Accounts poolResp)) tokenInfo (Pools poolResp)
  end.

(** The four lists of [added] put behind those of [i]. *)
Definition extended (i added : TokenPoolsInfo.t) : TokenPoolsInfo.t :=
  TokenPoolsInfo.Mk (TokenPoolsInfo.TokenAddress i) (TokenPoolsInfo.TokenSymbol i)
    (TokenPoolsInfo.Volume15m i)
    (TokenPoolsInfo.PumpPools i ++ TokenPoolsInfo.PumpPools added)
    (TokenPoolsInfo.MeteoraLists i ++ TokenPoolsInfo.MeteoraLists added)
    (TokenPoolsInfo.RaydiumPools i ++ TokenPoolsInfo.RaydiumPools added)
    (TokenPoolsInfo.RaydiumCPPools i ++ TokenPoolsInfo.RaydiumCPPools added).

Definition noPools : TokenPoolsInfo.t := TokenPoolsInfo.Mk "" "" 0 [] [] [] [].

Lemma extended_noPools i : extended i noPools = i.
Proof. destruct i. unfold extended. simpl. by rewrite !app_nil_r. Qed.

Lemma classifyPool_extended accounts i added pool :
  classifyPool accounts (extended i added) pool
  = extended i (classifyPool accounts added pool).
Proof.
  unfold classifyPool.
  destruct (accounts !! Pool.PoolID pool) as [pa|];
    destruct (accounts !! Pool.ProgramID pool) as [ga|];
    repeat match goal with
    | |- context [if ?b then _ else _] => destruct b
    end;
    unfold extended, add_PumpPool, add_MeteoraList, add_RaydiumPool, add_RaydiumCPPool;
    simpl; by rewrite <-?app_assoc.
Qed.

Lemma foldl_classifyPool_extended accounts pools i added :
  foldl (classifyPool accounts) (extended i added) pools
  = extended i (foldl (classifyPool accounts) added pools).
Proof.
  revert added. induction pools as [|pool pools IH]; intros added; simpl; [done|].
  by rewrite classifyPool_extended, IH.
Qed.

(** What one entry adds: its pool id, to at most one of the two Raydium
    lists. *)
Lemma classifyPool_adds accounts added pool :
  ∃ p m r c,
    classifyPool accounts added pool
    = extended added (TokenPoolsInfo.Mk "" "" 0 p m r c) ∧
    p `sublist_of` [Pool.PoolID pool] ∧ m `sublist_of` [Pool.PoolID pool] ∧
    r ++ c `sublist_of` [Pool.PoolID pool].
Proof.
  unfold classifyPool.
  destruct (accounts !! Pool.PoolID pool) as [pa|];
    destruct (accounts !! Pool.ProgramID pool) as [ga|];
    repeat match goal with
    | |- context [if ?b then _ else _] => destruct b
    end;
    destruct added; unfold extended, add_PumpPool, add_MeteoraList, add_RaydiumPool,
      add_RaydiumCPPool; simpl;
    repeat match goal with
    | |- context [TokenPoolsInfo.Mk _ _ _ ?a ?b ?c ?d = _] =>
        first [ is_var a; eexists [] | eexists [_] ];
        first [ is_var b; eexists [] | eexists [_] ];
        first [ is_var c; eexists [] | eexists [_] ];
        first [ is_var d; eexists [] | eexists [_] ]
    end;
    rewrite ?app_nil_r; (split; [reflexivity|]); simpl;
    repeat split; try reflexivity; try apply sublist_nil_l.
Qed.

Lemma foldl_classifyPool_adds accounts pools :
  ∃ p m r c,
    foldl (classifyPool accounts) noPools pools = TokenPoolsInfo.Mk "" "" 0 p m r c ∧
    p `sublist_of` Pool.PoolID <$> pools ∧ m `sublist_of` Pool.PoolID <$> pools ∧
    r `sublist_of` Pool.PoolID <$> pools ∧ c `sublist_of` Pool.PoolID <$> pools ∧
    length r + length c ≤ length pools.
Proof.
  induction pools as [|pool pools IH]; simpl.
  { exists [], [], [], []. by repeat split. }
  destruct (classifyPool_adds accounts noPools pool) as (p1 & m1 & r1 & c1 & -> & Hp & Hm & Hrc).
  destruct IH as (p & m & r & c & Hfold & Hps & Hms & Hrs & Hcs & Hlen).
  rewrite <-(extended_noPools (extended noPools _)), foldl_classifyPool_extended, Hfold.
  exists (p1 ++ p), (m1 ++ m), (r1 ++ r), (c1 ++ c).
  split; [done|].
  pose proof (sublist_length _ _ Hrc) as Hl. rewrite length_app in Hl. simpl in Hl.
  assert (Hr1 : r1 `sublist_of` [Pool.PoolID pool]).
  { etrans; [|exact Hrc]. apply sublist_inserts_r. reflexivity. }
  assert (Hc1 : c1 `sublist_of` [Pool.PoolID pool]).
  { etrans; [|exact Hrc]. apply sublist_inserts_l. reflexivity. }
  csimpl. split; [|split; [|split; [|split]]];
    try (apply (sublist_app _ [Pool.PoolID pool] _ (Pool.PoolID <$> pools)); done).
  rewrite !length_app. lia.
Qed.

Lemma FetchPoolsForToken_address resp info :
  TokenPoolsInfo.TokenAddress (FetchPoolsForToken resp info)
  = TokenPoolsInfo.TokenAddress info.
Proof.
  unfold FetchPoolsForToken. destruct resp as [poolResp|]; [|done].
  destruct (negb _ || _); [done|].
  rewrite <-(extended_noPools info) at 1. by rewrite foldl_classifyPool_extended.
Qed.

(** What [FetchPoolsForToken] does to an accumulator depends on the
    response only: it puts the same pool ids behind what each of the four
    lists holds already, whatever that is, so that a second call with the
    same response adds every id a second time.  The ids added to a list are
    pool ids of the response, in the order of the response; no entry adds
    its id to both Raydium lists.  The address, symbol and volume stay.
    Without a usable response (no response, [success] false, no pools)
    nothing is added. *)
Theorem FetchPoolsForToken_appends (resp : option SolscanPoolResponse) :
  let ids := match resp with
             | Some poolResp => Pool.PoolID <$> Pools poolResp
             | None => []
             end in
  ∃ p m r c,
    (∀ info, FetchPoolsForToken resp info
             = extended info (TokenPoolsInfo.Mk "" "" 0 p m r c)) ∧
    (∀ info, TokenPoolsInfo.PumpPools (FetchPoolsForToken resp (FetchPoolsForToken resp info))
             = TokenPoolsInfo.PumpPools info ++ p ++ p) ∧
    p `sublist_of` ids ∧ m `sublist_of` ids ∧ r `sublist_of` ids ∧ c `sublist_of` ids ∧
    length r + length c ≤ length ids ∧
    (match resp with Some poolResp => Success poolResp = false | None => True end →
     p = [] ∧ m = [] ∧ r = [] ∧ c = []).
Proof.
  intros ids.
  assert (Hnone : ∃ p m r c,
    (∀ info, info = extended info (TokenPoolsInfo.Mk "" "" 0 p m r c)) ∧
    p `sublist_of` ids ∧ m `sublist_of` ids ∧ r `sublist_of` ids ∧ c `sublist_of` ids ∧
    length r + length c ≤ length ids ∧ (p = [] ∧ m = [] ∧ r = [] ∧ c = [])).
  { exists [], [], [], []. split; [intros i; symmetry; apply extended_noPools|].
    repeat split; try apply sublist_nil_l. simpl. lia. }
  assert (Hgen : ∃ p m r c,
    (∀ info, FetchPoolsForToken resp info
             = extended info (TokenPoolsInfo.Mk "" "" 0 p m r c)) ∧
    p `sublist_of` ids ∧ m `sublist_of` ids ∧ r `sublist_of` ids ∧ c `sublist_of` ids ∧
    length r + length c ≤ length ids ∧
    (match resp with Some poolResp => Success poolResp = false | None => True end →
     p = [] ∧ m = [] ∧ r = [] ∧ c = [])).
  { destruct resp as [poolResp|]; simpl.
    - destruct (Success poolResp) eqn:Hs; simpl.
      + case_bool_decide as Hlen.
        * destruct Hnone as (p & m & r & c & ? & ? & ? & ? & ? & ? & ?).
          exists p, m, r, c. repeat (split; [done|]). done.
        * destruct (foldl_classifyPool_adds (Accounts poolResp) (Pools poolResp))
            as (p & m & r & c & Hfold & ? & ? & ? & ? & ?).
          exists p, m, r, c. split.
          { intros info. rewrite <-(extended_noPools info) at 1.
            by rewrite foldl_classifyPool_extended, Hfold. }
          subst ids. rewrite length_fmap. repeat (split; [done|]). done.
      + destruct Hnone as (p & m & r & c & ? & ? & ? & ? & ? & ? & ?).
        exists p, m, r, c. repeat (split; [done|]). done.
    - destruct Hnone as (p & m & r & c & ? & ? & ? & ? & ? & ? & ?).
      exists p, m, r, c. repeat (split; [done|]). done. }
  destruct Hgen as (p & m & r & c & Hall & Hrest).
  exists p, m, r, c. split; [done|]. split; [|done].
  intros info. rewrite !Hall. simpl. by rewrite <-app_assoc.
Qed.

End Pools.

(** ** Reading after a struct has been overwritten *)

(** A location that holds no array of strings, and one that holds no array
    at all. *)
Definition no_strings (h : heap) (c : loc) : Prop := ∀ l, h !! c ≠ Some (CStrings l).

Definition no_array (h : heap) (c : loc) : Prop :=
  match h !! c with
  | Some (CStrings _) | Some (CMints _) => False
  | _ => True
  end.

Lemma no_array_strings (h : heap) c : no_array h c → no_strings h c.
Proof. unfold no_array, no_strings. intros Hc l Hl. by rewrite Hl in Hc. Qed.

Lemma read_strings_insert (h : heap) c x s l :
  no_strings h c → read_strings h s = Some l →
  read_strings (<[c := x]> h) s = Some l.
Proof.
  intros Hc. destruct s as [|a n]; [done|]. simpl.
  destruct (decide (a = c)) as [->|Hne].
  - destruct (h !! c) as [[]|] eqn:Hl; try done. by destruct (Hc _ Hl).
  - by rewrite lookup_insert_ne.
Qed.

Lemma read_mint_insert (h : heap) c x mh m :
  no_strings h c → read_mint h mh = Some m →
  read_mint (<[c := x]> h) mh = Some m.
Proof.
  intros Hc. unfold read_mint. intros Hr.
  repeat match type of Hr with
  | context [read_strings h ?s] =>
      let E := fresh in
      destruct (read_strings h s) eqn:E; simpl in Hr; [|done];
      rewrite (read_strings_insert _ _ _ _ _ Hc E); simpl
  end.
  done.
Qed.

Lemma read_mint_list_insert (h : heap) c x msh ms :
  no_strings h c → mapM (read_mint h) msh = Some ms →
  mapM (read_mint (<[c := x]> h)) msh = Some ms.
Proof.
  intros Hc. rewrite !mapM_Some. intros Hall.
  eapply Forall2_impl; [exact Hall|]. intros. by eapply read_mint_insert.
Qed.

Lemma read_mints_put (h : heap) c y s ms :
  no_array h c → read_mints h s = Some ms →
  read_mints (<[c := CConfig y]> h) s = Some ms.
Proof.
  intros Hc. pose proof (no_array_strings _ _ Hc) as Hs. revert Hc. unfold no_array.
  intros Hc. destruct s as [|a n]; [done|]. simpl.
  destruct (decide (a = c)) as [->|Hne].
  - by destruct (h !! c) as [[]|].
  - rewrite lookup_insert_ne by done.
    destruct (h !! a) as [[]|]; try done. by apply read_mint_list_insert.
Qed.

Lemma read_configH_put (h : heap) c y ch v :
  no_array h c → read_configH h ch = Some v →
  read_configH (<[c := CConfig y]> h) ch = Some v.
Proof.
  intros Hc. unfold read_configH. intros Hr.
  destruct (read_mints h _) eqn:E0; simpl in Hr; [|done].
  rewrite (read_mints_put _ _ _ _ _ Hc E0); simpl.
  repeat match type of Hr with
  | context [read_strings h ?s] =>
      let E := fresh in
      destruct (read_strings h s) eqn:E; simpl in Hr; [|done];
      rewrite (read_strings_insert _ _ _ _ _ (no_array_strings _ _ Hc) E); simpl
  end.
  done.
Qed.

(** The struct at [c] is overwritten with a header that reads as [v]. *)
Lemma read_config_put (h : heap) c ch v :
  no_array h c → read_configH h ch = Some v →
  read_config (<[c := CConfig ch]> h) c = Some v.
Proof.
  intros Hc Hr. unfold read_config. rewrite lookup_insert_eq.
  by apply read_configH_put.
Qed.

(** Another struct is overwritten. *)
Lemma read_config_put_other (h : heap) c y p v :
  no_array h c → p ≠ c → read_config h p = Some v →
  read_config (<[c := CConfig y]> h) p = Some v.
Proof.
  intros Hc Hne. unfold read_config. rewrite lookup_insert_ne by done.
  destruct (h !! p) as [[]|]; try done. by apply read_configH_put.
Qed.

Lemma no_array_config (h : heap) c ch : h !! c = Some (CConfig ch) → no_array h c.
Proof. unfold no_array. by intros ->. Qed.

Lemma no_array_mono (h h' : heap) c ch :
  h ⊆ h' → h !! c = Some (CConfig ch) → no_array h' c.
Proof. intros Hsub Hc. eapply no_array_config, lookup_weaken; done. Qed.

(** Assigning the mint list of a header. *)
Lemma read_configH_set_mints (h : heap) ch v s ms :
  read_configH h ch = Some v → read_mints h s = Some ms →
  read_configH h (set_MintConfigList s ch) = Some (set_MintConfigList ms v).
Proof.
  unfold read_configH. simpl. intros Hr Hs. rewrite Hs. simpl.
  destruct (read_mints h (MintConfigList ch)); simpl in Hr; [|done].
  repeat match type of Hr with
  | context [read_strings h ?s] =>
      destruct (read_strings h s); simpl in Hr; [|done]; simpl
  end.
  by injection Hr as <-.
Qed.

(** Assigning a field that is no slice. *)
Lemma read_configH_set_scalars (h : heap) ch v :
  read_configH h ch = Some v →
  (∀ u, read_configH h (set_RPC_URL u ch) = Some (set_RPC_URL u v)) ∧
  (∀ b, read_configH h (set_Spam_Enabled b ch) = Some (set_Spam_Enabled b v)) ∧
  (∀ b, read_configH h (set_Jito_Enabled b ch) = Some (set_Jito_Enabled b v)) ∧
  (∀ b, read_configH h (set_KaminoFlashloan_Enabled b ch)
        = Some (set_KaminoFlashloan_Enabled b v)) ∧
  (∀ b, read_configH h (set_Bot_MergeMints b ch) = Some (set_Bot_MergeMints b v)).
Proof.
  unfold read_configH. intros Hr.
  destruct (read_mints h (MintConfigList ch)) eqn:E0; simpl in Hr; [|done].
  destruct (read_strings h (SendingRPCURLs (Spam ch))) eqn:E1; simpl in Hr; [|done].
  destruct (read_strings h (BlockEngineURLs (Jito ch))) eqn:E2; simpl in Hr; [|done].
  destruct (read_strings h (IPAddresses (Jito ch))) eqn:E3; simpl in Hr; [|done].
  injection Hr as <-.
  repeat split; intros; simpl; rewrite E0, E1, E2, E3; reflexivity.
Qed.

(** ** What the mutating handlers leave behind *)

Lemma world_of_after_events {A} tr (r : Res A) : world_of (after_events tr r) = world_of r.
Proof. by destruct r. Qed.

Lemma trace_of_after_events {A} tr (r : Res A) :
  trace_of (after_events tr r) = tr ++ trace_of r.
Proof. by destruct r. Qed.

(** The outcome of a handler that went through: the agent points to a
    configuration that reads as [v'], the file holds [v'], and the worker's
    Stop and Start have each been called once. *)
Definition adopted (w : World) (v' : Config) (r : Res (option error)) : Prop :=
  read_config (mem (world_of r)) (mevConfig (agent (world_of r))) = Some v' ∧
  disk (world_of r) = <[mevConfigPath (agent w) := FileToml v']> (disk w) ∧
  worker_calls (trace_of r) = [EProcStop; EProcStart] ∧
  read_config (mem (world_of r)) (mevConfig (agent w))
    = read_config (mem w) (mevConfig (agent w)).

Lemma patched_copy_is_adopted (w w1 : World) v v' copy e :
  read_config (mem w) (mevConfig (agent w)) = Some v →
  persists e w →
  agent w1 = agent w → disk w1 = disk w → mem w ⊆ mem w1 →
  read_config (mem w1) copy = Some v' →
  adopted w v' (after_events [ECopy (mevConfig (agent w)) copy] (Agent_UpdateConfig copy e w1)).
Proof.
  intros Hv Hp Hag Hd Hsub Hread.
  assert (Hp1 : persists e w1) by (unfold persists in *; by rewrite Hag).
  destruct (UpdateConfig_persisted copy e w1 v' Hread Hp1) as (Hcalls & Hdisk & Hptr & Hmem & _).
  unfold adopted. rewrite world_of_after_events, trace_of_after_events.
  rewrite Hptr, Hmem, Hdisk, Hag, Hd.
  repeat split; try done.
  rewrite Hv. by eapply read_config_mono.
Qed.

Section HandlerResults.
Context `{Codec}.

(** The [switch] of [handleToggleFeature] on a configuration value. *)
Definition toggled (feature : string) (enabled : bool) (v : Config) : Config :=
  if String.eqb feature "spam" then set_Spam_Enabled enabled v
  else if String.eqb feature "jito" then set_Jito_Enabled enabled v
  else if String.eqb feature "kamino_flashloan" then set_KaminoFlashloan_Enabled enabled v
  else if String.eqb feature "merge_mints" then set_Bot_MergeMints enabled v
  else v.

Lemma assigned_copy_reads (w1 : World) c ch v f g :
  mem w1 !! c = Some (CConfig ch) →
  read_config (mem w1) c = Some v →
  read_configH (mem w1) (f ch) = Some (g v) →
  read_config (mem (with_mem (<[c := CConfig (f ch)]>) w1)) c = Some (g v).
Proof.
  intros Hc Hread Hf. simpl. apply read_config_put; [|done].
  by eapply no_array_config.
Qed.

(** With a well-formed payload and a persist step that succeeds,
    [updateRPC] and [toggleFeature] end with the agent pointing to a
    configuration that is the JSON round trip of the previous one with the
    one field changed, the file holding the same, and the worker stopped
    and started once; the previous configuration still reads as before.  A
    feature name that the switch does not list changes no field and is not
    reported: the round trip is persisted and the worker restarted all the
    same. *)
Theorem scalar_patches_are_adopted cmd e w v :
  read_config (mem w) (mevConfig (agent w)) = Some v →
  persists e w →
  (∀ url, json_Unmarshal_rpc (cmd_Value cmd) = inr url →
     adopted w (set_RPC_URL url (json_roundtrip v)) (handleUpdateRPC cmd e w)) ∧
  (∀ feature enabled,
     json_Unmarshal_feature (cmd_Value cmd) = inr (feature, enabled) →
     adopted w (toggled feature enabled (json_roundtrip v)) (handleToggleFeature cmd e w)).
Proof.
  intros Hv Hp.
  destruct (Config_Copy_run (mevConfig (agent w)) e w)
    as (c & w1 & ch & Hrun & Hag & Hsub & Hfresh & Hc & Hm & Hread).
  rewrite Hv in Hread.
  assert (Hd : disk w1 = disk w).
  { revert Hrun. unfold Config_Copy. rewrite bind_get, bind_ask.
    destruct (new_config _ _ _). rewrite bind_modify. unfold bind, emit, ret. simpl.
    by intros [= _ <-]. }
  assert (HreadH : read_configH (mem w1) ch = Some (json_roundtrip v)).
  { revert Hread. unfold read_config. by rewrite Hc. }
  destruct (read_configH_set_scalars _ _ _ HreadH) as (Hrpc & Hspam & Hjito & Hkam & Hbot).
  assert (Hassign : ∀ f g,
    read_configH (mem w1) (f ch) = Some (g (json_roundtrip v)) →
    adopted w (g (json_roundtrip v))
      (after_events [ECopy (mevConfig (agent w)) c]
         ((assign c f >> Agent_UpdateConfig c) e w1))).
  { intros f g Hf.
    rewrite (bind_Done _ _ _ _ _ _ _ (assign_run _ f _ _ _ Hc)), after_events_nil.
    eapply patched_copy_is_adopted; try done.
    - simpl. by apply insert_subseteq_r.
    - by eapply assigned_copy_reads. }
  split.
  - intros url Hurl. unfold handleUpdateRPC. rewrite Hurl, bind_get.
    rewrite (bind_Done _ _ _ _ _ _ _ Hrun). by apply (Hassign _ (set_RPC_URL url)).
  - intros feature enabled Hf. unfold handleToggleFeature. rewrite Hf, bind_get.
    rewrite (bind_Done _ _ _ _ _ _ _ Hrun). unfold toggled.
    repeat (match goal with
            | |- context [if String.eqb ?a ?b then _ else _] =>
                destruct (String.eqb a b);
                [first [ by apply (Hassign _ (set_Spam_Enabled enabled))
                       | by apply (Hassign _ (set_Jito_Enabled enabled))
                       | by apply (Hassign _ (set_KaminoFlashloan_Enabled enabled))
                       | by apply (Hassign _ (set_Bot_MergeMints enabled)) ]|]
            end).
    rewrite bind_ret. by eapply patched_copy_is_adopted.
Qed.

Lemma read_mint_Mint (h : heap) mh m : read_mint h mh = Some m → Mint mh = Mint m.
Proof.
  unfold read_mint. intros Hr.
  repeat match type of Hr with
  | context [read_strings h ?s] => destruct (read_strings h s); simpl in Hr; [|done]
  end.
  by injection Hr as <-.
Qed.

Lemma read_mint_list_filter (h : heap) addr msh ms :
  mapM (read_mint h) msh = Some ms →
  mapM (read_mint h) (remove_mint addr msh) = Some (filter (λ m, Mint m ≠ addr) ms).
Proof.
  rewrite !mapM_Some. unfold remove_mint.
  induction 1 as [|mh m msh ms Hm Hall IH]; [constructor|].
  rewrite !filter_cons, (read_mint_Mint _ _ _ Hm).
  destruct (decide (Mint m ≠ addr)); [by constructor|done].
Qed.

Lemma read_configH_mints (h : heap) ch v :
  read_configH h ch = Some v → read_mints h (MintConfigList ch) = Some (MintConfigList v).
Proof.
  unfold read_configH. intros Hr.
  destruct (read_mints h (MintConfigList ch)); simpl in Hr; [|done].
  repeat match type of Hr with
  | context [read_strings h ?s] => destruct (read_strings h s); simpl in Hr; [|done]
  end.
  by injection Hr as <-.
Qed.

(** With a well-formed payload and a persist step that succeeds,
    [removeMint] ends with the agent pointing to the JSON round trip of the
    previous configuration without the routes of that mint: every route
    with the mint is gone, the others keep their order.  When no route has
    the mint the list is as before, and the configuration is persisted and
    the worker stopped and started all the same; no error is reported. *)
Theorem removeMint_drops_every_route cmd e w v addr :
  read_config (mem w) (mevConfig (agent w)) = Some v →
  persists e w →
  json_Unmarshal_string (cmd_Value cmd) = inr addr →
  adopted w
    (set_MintConfigList
       (filter (λ m, Mint m ≠ addr) (MintConfigList (json_roundtrip v)))
       (json_roundtrip v))
    (handleRemoveMint cmd e w).
Proof.
  intros Hv Hp Haddr.
  destruct (Config_Copy_run (mevConfig (agent w)) e w)
    as (c & w1 & ch & Hrun & Hag & Hsub & Hfresh & Hc & Hm & Hread).
  rewrite Hv in Hread.
  assert (Hd : disk w1 = disk w).
  { revert Hrun. unfold Config_Copy. rewrite bind_get, bind_ask.
    destruct (new_config _ _ _). rewrite bind_modify. unfold bind, emit, ret. simpl.
    by intros [= _ <-]. }
  assert (HreadH : read_configH (mem w1) ch = Some (json_roundtrip v)).
  { revert Hread. unfold read_config. by rewrite Hc. }
  unfold handleRemoveMint. rewrite Haddr, bind_get.
  rewrite (bind_Done _ _ _ _ _ _ _ Hrun), bind_get, Hc.
  set (old := match MintConfigList ch with
              | SliceNil => []
              | Slice a n => match mem w1 !! a with
                             | Some (CMints arr) => take n arr
                             | _ => []
                             end
              end).
  assert (Hold : mapM (read_mint (mem w1)) old = Some (MintConfigList (json_roundtrip v))).
  { pose proof (read_configH_mints _ _ _ HreadH) as Hms. revert Hms. subst old.
    destruct (MintConfigList ch) as [|a n]; simpl; [by intros [= <-]|].
    by destruct (mem w1 !! a) as [[]|]. }
  destruct (alloc _ (mem w1)) as [a' h2] eqn:Ha.
  pose proof (alloc_subseteq _ _ _ _ Ha) as Hsub2.
  apply alloc_spec in Ha as [Ha' ->].
  assert (Hne : a' ≠ c) by (intros ->; by rewrite Hc in Ha').
  go_norm.
  erewrite (bind_Done (assign _ _)); cycle 1.
  { apply assign_run. simpl. by rewrite lookup_insert_ne. }
  rewrite after_events_nil.
  eapply patched_copy_is_adopted; try done.
  - simpl. apply insert_subseteq_r; [done|]. by etrans.
  - simpl. apply read_config_put.
    { eapply no_array_mono; done. }
    apply read_configH_set_mints; [by eapply read_configH_mono|].
    simpl. rewrite lookup_insert_eq, firstn_all.
    apply read_mint_list_filter. by eapply read_mint_list_mono.
Qed.

(** The mint list of a header is replaced while one cell that holds no
    strings is overwritten. *)
Lemma read_configH_new_mints (h : heap) a x ch v s ms :
  no_strings h a →
  read_configH h ch = Some v →
  read_mints (<[a := x]> h) s = Some ms →
  read_configH (<[a := x]> h) (set_MintConfigList s ch) = Some (set_MintConfigList ms v).
Proof.
  intros Ha. unfold read_configH. simpl. intros Hr ->. simpl.
  destruct (read_mints h (MintConfigList ch)); simpl in Hr; [|done].
  repeat match type of Hr with
  | context [read_strings h ?s] =>
      let E := fresh in
      destruct (read_strings h s) eqn:E; simpl in Hr; [|done];
      rewrite (read_strings_insert _ _ _ _ _ Ha E); simpl
  end.
  by injection Hr as <-.
Qed.

Lemma read_mint_list_snoc (h : heap) msh ms mh m :
  mapM (read_mint h) msh = Some ms → read_mint h mh = Some m →
  mapM (read_mint h) (msh ++ [mh]) = Some (ms ++ [m]).
Proof.
  rewrite !mapM_Some. intros Hall Hm. apply Forall2_app; [done|]. by repeat constructor.
Qed.

(** With a well-formed payload and a persist step that succeeds,
    [addMint] ends with the agent pointing to the JSON round trip of the
    previous configuration with the new route put at the end of the mint
    list, whether the list already has a route with the same mint or
    not. *)
Theorem addMint_appends_the_route cmd e w v mv :
  read_config (mem w) (mevConfig (agent w)) = Some v →
  persists e w →
  json_Unmarshal_MintConfig (cmd_Value cmd) = inr mv →
  adopted w
    (set_MintConfigList (MintConfigList (json_roundtrip v) ++ [mv]) (json_roundtrip v))
    (handleAddMint cmd e w).
Proof.
  intros Hv Hp Hmv.
  unfold handleAddMint. rewrite Hmv, bind_get.
  destruct (new_mint mv (mem w)) as [mh h0] eqn:Hmint.
  pose proof (new_mint_read _ _ _ _ Hmint) as Hmh.
  apply new_mint_subseteq in Hmint.
  rewrite bind_modify.
  set (w0 := with_mem (λ _, h0) w).
  destruct (Config_Copy_run (mevConfig (agent w)) e w0)
    as (c & w1 & ch & Hrun & Hag & Hsub & Hfresh & Hc & Hm & Hread).
  assert (Hv0 : read_config (mem w0) (mevConfig (agent w)) = Some v).
  { by eapply read_config_mono. }
  rewrite Hv0 in Hread.
  assert (Hd : disk w1 = disk w).
  { revert Hrun. unfold Config_Copy. rewrite bind_get, bind_ask.
    destruct (new_config _ _ _). rewrite bind_modify. unfold bind, emit, ret. simpl.
    by intros [= _ <-]. }
  assert (HreadH : read_configH (mem w1) ch = Some (json_roundtrip v)).
  { revert Hread. unfold read_config. by rewrite Hc. }
  assert (Hsub1 : mem w ⊆ mem w1) by (by etrans).
  assert (Hfresh1 : mem w !! c = None) by (by eapply lookup_weaken_None).
  assert (Hmh1 : read_mint (mem w1) mh = Some mv) by exact (read_mint_mono _ _ _ _ Hsub Hmh).
  assert (Hcs : no_strings (mem w1) c) by (intros l; by rewrite Hc).
  rewrite (bind_Done _ _ _ _ _ _ _ Hrun).
  pose proof (read_configH_mints _ _ _ HreadH) as Hms.
  unfold append_mint. go_norm. rewrite Hc.
  destruct (MintConfigList ch) as [|a n] eqn:Hlist.
  - (* the copy has a nil list *)
    injection Hms as Hnil.
    destruct (alloc _ (mem w1)) as [a' h2] eqn:Ha.
    pose proof (alloc_subseteq _ _ _ _ Ha) as Hsub2.
    apply alloc_spec in Ha as [Ha' ->]. go_norm.
    eapply patched_copy_is_adopted; try done.
    + simpl. apply insert_subseteq_r; [done|]. by etrans.
    + simpl. apply read_config_put; [by eapply no_array_mono|].
      apply read_configH_set_mints; [by eapply read_configH_mono|].
      simpl. rewrite lookup_insert_eq, <-Hnil. simpl.
      rewrite (read_mint_mono _ _ _ _ Hsub2 Hmh1). done.
  - simpl in Hms.
    destruct (mem w1 !! a) as [[| |arr]|] eqn:Harr; try done.
    assert (Hac : a ≠ c) by (intros ->; by rewrite Hc in Harr).
    assert (Has : no_strings (mem w1) a) by (intros l; by rewrite Harr).
    destruct (decide (n < length arr)).
    + (* room in the backing array: written in place *)
      go_norm.
      eapply patched_copy_is_adopted; try done.
      * simpl. apply insert_subseteq_r; [done|]. apply insert_subseteq_r; [|done].
        eapply lookup_weaken_None; [by eapply Hm|exact Hmint].
      * simpl. apply read_config_put.
        { unfold no_array. by rewrite lookup_insert_ne, Hc. }
        apply read_configH_new_mints; [done..|].
        simpl. rewrite lookup_insert_eq.
        rewrite (take_S_r _ _ mh) by (apply list_lookup_insert_eq; lia).
        rewrite take_insert_ge by lia.
        apply read_mint_list_snoc; [by apply read_mint_list_insert|].
        by apply read_mint_insert.
    + (* no room: a new array *)
      destruct (alloc _ (mem w1)) as [a' h2] eqn:Ha.
      pose proof (alloc_subseteq _ _ _ _ Ha) as Hsub2.
      apply alloc_spec in Ha as [Ha' ->]. go_norm.
      eapply patched_copy_is_adopted; try done.
      * simpl. apply insert_subseteq_r; [done|]. by etrans.
      * simpl. apply read_config_put; [by eapply no_array_mono|].
        apply read_configH_set_mints; [by eapply read_configH_mono|].
        simpl. rewrite lookup_insert_eq.
        rewrite (take_ge (take n arr ++ [mh]))
          by (rewrite length_app, length_take; simpl; lia).
        apply read_mint_list_snoc; [by eapply read_mint_list_mono|].
        by eapply read_mint_mono.
Qed.

End HandlerResults.

(** A codec for the runs below: a payload is kept as the one string it
    carries (the url of a configuration with nothing else set, the mint of
    a route with no pools, the name of a feature to switch on), and the
    toml tree knows the path [rpc.url] only. *)
Definition wordCodec : Codec :=
  MkCodec string (λ s, inr s) (λ s, inr (set_RPC_URL s zeroConfig))
    (λ s, inr (MkMintConfig s [] [] [] [] [] 0)) (λ s, inr s) (λ s, inr s)
    (λ s, inr (s, true)) (λ v, v)
    (λ section key value v,
       if String.eqb section "rpc" && String.eqb key "url"
       then (set_RPC_URL value v, None)
       else (v, Some "toml: cannot load TOML value")).

Lemma configuredWorld_persists : persists okEnv configuredWorld.
Proof. unfold persists. by repeat split. Qed.

Lemma scalar_patches_are_adopted_witness :
  adopted configuredWorld (set_RPC_URL "https://rpc.two" liveConfig)
    (@handleUpdateRPC wordCodec rpcCommand okEnv configuredWorld) ∧
  adopted configuredWorld liveConfig
    (@handleToggleFeature wordCodec (MkCommand "bot" "toggleFeature" "" "" "turbo")
       okEnv configuredWorld).
Proof.
  split.
  - destruct (@scalar_patches_are_adopted wordCodec rpcCommand okEnv configuredWorld
                liveConfig) as [Hrpc _];
      [vm_compute; reflexivity|exact configuredWorld_persists|].
    by apply Hrpc.
  - destruct (@scalar_patches_are_adopted wordCodec
                (MkCommand "bot" "toggleFeature" "" "" "turbo") okEnv configuredWorld
                liveConfig) as [_ Htoggle];
      [vm_compute; reflexivity|exact configuredWorld_persists|].
    by apply (Htoggle "turbo" true).
Defined.

Lemma removeMint_drops_every_route_witness :
  adopted configuredWorld (set_MintConfigList [] liveConfig)
    (@handleRemoveMint wordCodec (MkCommand "config" "removeMint" "" "" "So1pump")
       okEnv configuredWorld).
Proof.
  apply (@removeMint_drops_every_route wordCodec
           (MkCommand "config" "removeMint" "" "" "So1pump") okEnv configuredWorld
           liveConfig "So1pump");
    [vm_compute; reflexivity|exact configuredWorld_persists|reflexivity].
Defined.

Lemma addMint_appends_the_route_witness :
  adopted configuredWorld
    (set_MintConfigList [demoMint; MkMintConfig "So1pump" [] [] [] [] [] 0] liveConfig)
    (@handleAddMint wordCodec (MkCommand "config" "addMint" "" "" "So1pump")
       okEnv configuredWorld).
Proof.
  apply (@addMint_appends_the_route wordCodec
           (MkCommand "config" "addMint" "" "" "So1pump") okEnv configuredWorld
           liveConfig (MkMintConfig "So1pump" [] [] [] [] [] 0));
    [vm_compute; reflexivity|exact configuredWorld_persists|reflexivity].
Defined.

(** ** The tracker as an object (part_001, lines 595-707 and 820-935) *)

(** The fields of [HotTokensTracker] that change, are written through or
    are dereferenced; [MevConfig] and [AgentConfig] are the pointers
    [Start] hands over, the agent's [mevConfig] and [agentConfig] of that
    moment. *)
Record HotTokensTracker := MkHotTokensTracker {
  HotTokens : list HotToken.t;
  TokenPoolsInfos : list TokenPoolsInfo.t;
  MevConfig : loc;
  AgentConfig : option FlashAgentConfig
}.

(** [NewHotTokensTracker(mevConfig, agentConfig, agent)], lines 606-615. *)
Definition NewHotTokensTracker (mevConfig : loc) (agentConfig : option FlashAgentConfig)
    : HotTokensTracker :=
  MkHotTokensTracker [] [] mevConfig agentConfig.

Definition set_TokenPoolsInfos (l : list TokenPoolsInfo.t) (h : HotTokensTracker)
    : HotTokensTracker :=
  MkHotTokensTracker (HotTokens h) l (MevConfig h) (AgentConfig h).

(** Every return of [m] returns [x]. *)
Definition returns {A} (x : A) (m : M A) : Prop :=
  ∀ e w a w' tr, m e w = Done a w' tr → a = x.

Lemma returns_ret {A} (x : A) : returns x (ret x).
Proof. by intros e w a w' tr [= <- _ _]. Qed.

Lemma returns_panic {A} (x : A) : returns x panic.
Proof. by intros e w a w' tr. Qed.

Lemma returns_bind {A B} (m : M A) (k : A → M B) (x : B) :
  (∀ a, returns x (k a)) → returns x (bind m k).
Proof.
  intros Hk e w b w' tr. unfold bind.
  destruct (m e w) as [a w1 tr1| |]; [|done..].
  destruct (k a e w1) as [b' w2 tr2| |] eqn:Hka; [|done..].
  intros [= <- _ _]. by eapply Hk.
Qed.

Section TrackerObject.
Context `{Codec} `{SortSlice}.
Variable strings_ToLower : string → string.

(** [h.UpdateConfig()], lines 820-935, on the heap.  The routes are built
    from what the copy holds and from the accumulators, as [newMintConfigs]
    does, and laid out in arrays of their own; the path of the file is the
    literal of line 926. *)
Definition HotTokensTracker_UpdateConfig_run (h : HotTokensTracker) : M HotTokensTracker :=
  if bool_decide (length (TokenPoolsInfos h) = 0) then ret h else
  let infos := TokenPoolsInfos h in
  let h := set_TokenPoolsInfos (sortTokenPoolsInfos infos) h in    (* sorted in place *)
  if bool_decide (length (List.filter keepTokenInfo (sortTokenPoolsInfos infos)) = 0)
  then ret h
  else
    let valid := validTokenInfos infos in
    let* newMevConfig := Config_Copy (MevConfig h) in
    let* w := get in
    match read_config (mem w) newMevConfig with
    | None => panic
    | Some snapshot =>
        let '(s, hp) :=
          new_mints (newMintConfigs (MintConfigList snapshot) valid) 0 (mem w) in
        modify (with_mem (λ _, hp)) >>
        assign newMevConfig (set_MintConfigList s) >>
        let* err := SaveToFile newMevConfig "config.toml" in
        match err with
        | Some _ => ret h
        | None =>
            (* *h.MevConfig = *newMevConfig *)
            let* w := get in
            match mem w !! newMevConfig, mem w !! MevConfig h with
            | Some (CConfig ch), Some (CConfig _) =>
                modify (with_mem (<[MevConfig h := CConfig ch]>)) >> ret h
            | _, _ => panic
            end
        end
    end.

(** [h.FetchHotTokens()], lines 618-707, given what the ranking service
    returned ([inl] when the request failed, the status was not 200, or the
    body could not be read or decoded) and what the pool service returns
    for the accumulator at each index.  The request header is filled from
    [h.AgentConfig.Ave.Token] before anything is sent. *)
Definition FetchHotTokens (h : HotTokensTracker) (api : error + APIResponse)
    (pools : nat → option SolscanPoolResponse) : M (HotTokensTracker * option error) :=
  match AgentConfig h with
  | None => panic
  | Some _ =>
      match api with
      | inl err => ret (h, Some err)
      | inr apiResp =>
          match rankHotTokens apiResp with
          | inl err => ret (h, Some err)
          | inr tokens =>
              let infos := TokenPoolsInfos h ++ (newTokenPoolsInfo <$> tokens) in
              let infos := imap (λ i, FetchPoolsForToken strings_ToLower (pools i)) infos in
              let* h := HotTokensTracker_UpdateConfig_run
                          (MkHotTokensTracker tokens infos (MevConfig h) (AgentConfig h)) in
              ret (h, None)
          end
      end
  end.

Lemma SaveToFile_ok c path e w v :
  read_config (mem w) c = Some v → marshal_err e = None → write_result e = WriteOk →
  path ≠ "" →
  SaveToFile c path e w = Done None (with_disk <[path := FileToml v]> w) [ESaveToFile path].
Proof.
  intros Hread Hm Hw Hpath. unfold SaveToFile, os_WriteFile.
  unfold bind, emit, ask, get, modify, ret. simpl.
  rewrite Hread, Hm, decide_False by done. by rewrite Hw.
Qed.

Lemma SaveToFile_mem c path e w o w' tr :
  SaveToFile c path e w = Done o w' tr →
  mem w' = mem w ∧ agent w' = agent w ∧ proc w' = proc w ∧ ws w' = ws w ∧
  tr = [ESaveToFile path] ∧
  (o ≠ None → (∀ werr n, write_result e ≠ WriteFailed werr n) → disk w' = disk w).
Proof.
  unfold SaveToFile, os_WriteFile, bind, emit, ask, get, modify, ret. simpl.
  destruct (read_config (mem w) c); [|done].
  destruct (marshal_err e); [intros [= <- <- <-]; by repeat split|].
  destruct (decide (path = "")); [intros [= <- <- <-]; by repeat split|].
  destruct (write_result e) eqn:Hw; intros [= <- <- <-]; repeat split; try done.
  intros _ Hno. by destruct (Hno e0 written).
Qed.

(** The tracker writes its result through the pointer it was given.  When
    the accumulators yield a configuration and the file can be written,
    [h.UpdateConfig] leaves the struct at [h.MevConfig] reading as that
    configuration and the file [config.toml] holding it, and it does so
    without the agent: the agent, its lock, the worker handle and the
    socket server are not touched, and the run consists of the copy and
    the save.  (The value is the one [HotTokensTracker_UpdateConfig] gives
    for the JSON round trip of what the struct held.) *)
Theorem tracker_overwrites_config_in_place h e w v v' :
  read_config (mem w) (MevConfig h) = Some v →
  HotTokensTracker_UpdateConfig (json_roundtrip v) (TokenPoolsInfos h) = Some v' →
  marshal_err e = None → write_result e = WriteOk →
  ∃ c w',
    HotTokensTracker_UpdateConfig_run h e w
      = Done (set_TokenPoolsInfos (sortTokenPoolsInfos (TokenPoolsInfos h)) h) w'
          [ECopy (MevConfig h) c; ESaveToFile "config.toml"] ∧
    read_config (mem w') (MevConfig h) = Some v' ∧
    disk w' = <["config.toml" := FileToml v']> (disk w) ∧
    agent w' = agent w ∧ proc w' = proc w ∧ ws w' = ws w ∧
    (∀ p x, p ≠ MevConfig h → mem w !! p = Some x → mem w' !! p = Some x).
Proof.
  intros Hv Hsome Hm Hw.
  assert (Hl : ∃ chv, mem w !! MevConfig h = Some (CConfig chv)).
  { revert Hv. unfold read_config. destruct (mem w !! MevConfig h) as [[]|]; try done. eauto. }
  destruct Hl as [chv Hl].
  revert Hsome. unfold HotTokensTracker_UpdateConfig, HotTokensTracker_UpdateConfig_run.
  case_bool_decide as Hlen; [done|]. case_bool_decide as Hvalid; [done|]. intros [= <-].
  simpl.
  destruct (Config_Copy_run (MevConfig h) e w)
    as (c & w1 & ch & Hrun & Hag & Hsub & Hfresh & Hc & Hmc & Hread).
  rewrite Hv in Hread.
  assert (Hrest : disk w1 = disk w ∧ proc w1 = proc w ∧ ws w1 = ws w).
  { revert Hrun. unfold Config_Copy. rewrite bind_get, bind_ask.
    destruct (new_config _ _ _). rewrite bind_modify. unfold bind, emit, ret. simpl.
    by intros [= _ <-]. }
  destruct Hrest as (Hd & Hpr & Hws).
  assert (HreadH : read_configH (mem w1) ch = Some (json_roundtrip v)).
  { revert Hread. unfold read_config. by rewrite Hc. }
  assert (Hne : MevConfig h ≠ c) by (intros Heq; by rewrite Heq, Hfresh in Hl).
  exists c.
  rewrite (bind_Done _ _ _ _ _ _ _ Hrun), bind_get, Hread.
  destruct (new_mints _ 0 (mem w1)) as [s hp] eqn:Hnew.
  pose proof (new_mints_read _ _ _ _ _ Hnew) as Hroutes.
  apply new_mints_spec in Hnew as [Hsub2 _].
  go_norm.
  erewrite (bind_Done (assign _ _)); cycle 1.
  { apply assign_run. simpl. by eapply lookup_weaken. }
  rewrite after_events_nil.
  set (v' := set_MintConfigList _ (json_roundtrip v)).
  set (w2 := with_mem _ (with_mem _ w1)).
  assert (HreadH2 : read_configH (mem w2) (set_MintConfigList s ch) = Some v').
  { subst w2. simpl. apply read_configH_put; [by eapply no_array_mono|].
    apply read_configH_set_mints; [by eapply read_configH_mono|done]. }
  assert (Hread2 : read_config (mem w2) c = Some v').
  { unfold read_config. subst w2. simpl. by rewrite lookup_insert_eq. }
  rewrite (bind_Done _ _ _ _ _ _ _ (SaveToFile_ok c "config.toml" e w2 v' Hread2 Hm Hw
             ltac:(done))).
  rewrite bind_get. simpl. rewrite lookup_insert_eq.
  rewrite lookup_insert_ne by done.
  rewrite (lookup_weaken _ _ _ _ Hl (transitivity Hsub (Hsub2 : mem w1 ⊆ hp))).
  rewrite bind_modify. unfold ret. simpl.
  eexists. split; [reflexivity|]. simpl.
  split; [|rewrite Hd, Hag, Hpr, Hws; repeat split; try done].
  - apply read_config_put; [|done].
    subst w2. simpl. unfold no_array. rewrite lookup_insert_ne by done.
    by rewrite (lookup_weaken _ _ _ _ Hl (transitivity Hsub (Hsub2 : mem w1 ⊆ hp))).
  - intros p x Hp Hx. rewrite lookup_insert_ne by done.
    rewrite lookup_insert_ne by (intros <-; by rewrite Hfresh in Hx).
    eapply lookup_weaken; [exact Hx|]. by etrans.
Qed.

(** The tracker value [h.UpdateConfig] returns with: the accumulators
    sorted, nothing else. *)
Lemma UpdateConfig_run_returns h :
  returns (if bool_decide (length (TokenPoolsInfos h) = 0) then h
           else set_TokenPoolsInfos (sortTokenPoolsInfos (TokenPoolsInfos h)) h)
          (HotTokensTracker_UpdateConfig_run h).
Proof.
  unfold HotTokensTracker_UpdateConfig_run.
  case_bool_decide; [apply returns_ret|].
  case_bool_decide; [apply returns_ret|].
  apply returns_bind; intros c. apply returns_bind; intros w1.
  destruct (read_config _ _); [|apply returns_panic].
  destruct (new_mints _ _ _).
  do 3 (apply returns_bind; intros ?).
  match goal with |- returns _ (match ?o with _ => _ end) => destruct o end;
    [apply returns_ret|].
  apply returns_bind; intros w2.
  destruct (mem w2 !! c) as [[]|]; try apply returns_panic.
  destruct (mem w2 !! _) as [[]|]; try apply returns_panic.
  apply returns_bind; intros ?. apply returns_ret.
Qed.

Lemma fmap_imap_address (f : nat → TokenPoolsInfo.t → TokenPoolsInfo.t) l :
  (∀ i x, TokenPoolsInfo.TokenAddress (f i x) = TokenPoolsInfo.TokenAddress x) →
  TokenPoolsInfo.TokenAddress <$> imap f l = TokenPoolsInfo.TokenAddress <$> l.
Proof.
  revert f. induction l as [|x l IH]; intros f Hf; csimpl; [done|].
  rewrite Hf. f_equal. apply IH. intros i y. apply Hf.
Qed.

(** Nothing empties [h.TokenPoolsInfos].  A fetch that fails (the request,
    the status, the body, the validation of the response) changes nothing.
    A fetch that goes through replaces [h.HotTokens] by the ranked tokens
    and adds one accumulator for each of them behind those of all earlier
    cycles, which stay: afterwards the accumulators are, up to order, the
    old ones and the new ones, tokens of earlier cycles included whether
    the service still lists them or not. *)
Theorem accumulators_are_never_reset h api pools e w h' o w' tr :
  FetchHotTokens h api pools e w = Done (h', o) w' tr →
  match o with
  | Some _ => h' = h ∧ w' = w ∧ tr = []
  | None =>
      ∃ apiResp tokens,
        api = inr apiResp ∧ rankHotTokens apiResp = inr tokens ∧
        HotTokens h' = tokens ∧ MevConfig h' = MevConfig h ∧
        AgentConfig h' = AgentConfig h ∧
        length (TokenPoolsInfos h') = length (TokenPoolsInfos h) + length tokens ∧
        TokenPoolsInfo.TokenAddress <$> TokenPoolsInfos h'
          ≡ₚ (TokenPoolsInfo.TokenAddress <$> TokenPoolsInfos h)
             ++ (HotToken.TargetToken <$> tokens)
  end.
Proof.
  unfold FetchHotTokens. destruct (AgentConfig h) as [settings|] eqn:Hsettings; [|done].
  destruct api as [err|apiResp]; [by intros [= <- <- <- <-]|].
  destruct (rankHotTokens apiResp) as [err|tokens] eqn:Hrank; [by intros [= <- <- <- <-]|].
  unfold bind.
  set (infos := imap _ _).
  destruct (HotTokensTracker_UpdateConfig_run _ e w) as [h1 w1 tr1| |] eqn:Hrun; [|done..].
  apply UpdateConfig_run_returns in Hrun. simpl in Hrun.
  intros [= <- <- <- <-]. exists apiResp, tokens.
  assert (Hinfos : length infos = length (TokenPoolsInfos h) + length tokens ∧
            TokenPoolsInfo.TokenAddress <$> infos
            = (TokenPoolsInfo.TokenAddress <$> TokenPoolsInfos h)
              ++ (HotToken.TargetToken <$> tokens)).
  { subst infos. rewrite length_imap, length_app, length_fmap. split; [done|].
    rewrite fmap_imap_address.
    - rewrite fmap_app, <-list_fmap_compose. done.
    - intros i x. apply FetchPoolsForToken_address. }
  destruct Hinfos as [Hlen Haddr].
  rewrite Hrun. case_bool_decide; simpl.
  - by rewrite Haddr.
  - unfold sortTokenPoolsInfos.
    rewrite (Permutation_length (sort_Slice_perm _ _)), (sort_Slice_perm _ _).
    by rewrite Haddr.
Qed.

End TrackerObject.

Section TrackerWithoutSettings.
Context `{Codec} `{SortSlice}.
Variable strings_ToLower : string → string.

(** When the agent settings cannot be loaded, the tracker that [Start]
    makes from the agent's fields has a nil [AgentConfig]: at any point of
    any run, its [FetchHotTokens] dereferences nil while it fills the
    request header, whatever the services would have returned, and has
    changed nothing by then. *)
Theorem missing_settings_stop_the_tracker path agentPath cfg err fs w0 ls w trs api pools e :
  NewAgent path agentPath (inr cfg) (inl err) fs = inr w0 →
  exec ls w0 = Some (w, trs) →
  FetchHotTokens strings_ToLower
    (NewHotTokensTracker (mevConfig (agent w)) (agentConfig (agent w))) api pools e w
  = Panicked w [].
Proof.
  intros Hnew Hexec.
  assert (Hnil : agentConfig (agent w0) = None).
  { revert Hnew. unfold NewAgent. destruct (new_config _ _ _). by intros [= <-]. }
  rewrite <-(kept_settings _ _ (exec_kept _ _ _ _ Hexec)) in Hnil.
  unfold FetchHotTokens. simpl. by rewrite Hnil.
Qed.

End TrackerWithoutSettings.

(** [strings.ToLower] on ASCII text. *)
Definition asciiLower_char (a : Ascii.ascii) : Ascii.ascii :=
  let n := Ascii.nat_of_ascii a in
  if bool_decide (65 ≤ n ≤ 90) then Ascii.ascii_of_nat (n + 32) else a.

Fixpoint asciiLower (s : string) : string :=
  match s with
  | EmptyString => EmptyString
  | String a rest => String (asciiLower_char a) (asciiLower rest)
  end.

(** What the pool service knows of So1pump: a Pump pool and a Raydium
    pool. *)
Definition so1Pools : SolscanPoolResponse :=
  MkSolscanPoolResponse true
    [Pool.Mk "poolP" "progP"; Pool.Mk "poolR" "progR"; Pool.Mk "curve" "progP"]
    {["poolP" := Account.Mk "Pump.fun AMM (SO1-SOL)" "account";
      "curve" := Account.Mk "Pump.fun Bonding Curve" "account";
      "progR" := Account.Mk "Raydium Liquidity Pool V4" "program"]}.

Definition firstCycle : APIResponse := MkAPIResponse 1 1 1 40 [token "So1" (9 # 1)].
Definition secondCycle : APIResponse := MkAPIResponse 1 1 1 40 [token "Zz9" (4 # 1)].

Definition so1Only (i : nat) : option SolscanPoolResponse :=
  match i with 0 => Some so1Pools | _ => None end.

Definition tracker_after {A} (r : Res (HotTokensTracker * A)) (h : HotTokensTracker)
    : HotTokensTracker :=
  match r with Done (h', _) _ _ => h' | _ => h end.

(** The tracker as [Start] makes it for [startedWorld]. *)
Definition newTracker : HotTokensTracker :=
  NewHotTokensTracker 3 (Some (MkFlashAgentConfig "ave" "secret")).

Definition cycle1 : Res (HotTokensTracker * option error) :=
  @FetchHotTokens plainCodec stableSlice asciiLower
    newTracker (inr firstCycle) so1Only okEnv startedWorld.
Definition cycle2 : Res (HotTokensTracker * option error) :=
  @FetchHotTokens plainCodec stableSlice asciiLower
    (tracker_after cycle1 newTracker) (inr secondCycle) so1Only okEnv
    (world_of cycle1).

(** Two cycles.  The first finds So1pump with two kinds of pools and
    rewrites the agent's configuration where it lies; the second is about
    another token, yet So1pump is looked up again, its pools are added a
    second time, and the configuration is rewritten with them.  No event
    of the agent occurs. *)
Example two_tracking_cycles :
  read_config (mem (world_of cycle1)) (mevConfig (agent startedWorld))
    = Some (set_MintConfigList
              [MkMintConfig "So1pump" ["poolP"] ["poolR"] [] [] ["lut1"] 500] liveConfig) ∧
  TokenPoolsInfos (tracker_after cycle2 newTracker)
    = [TokenPoolsInfo.Mk "So1pump" "So1" (9 # 1) ["poolP"; "poolP"] [] ["poolR"; "poolR"] [];
       TokenPoolsInfo.Mk "Zz9pump" "Zz9" (4 # 1) [] [] [] []] ∧
  read_config (mem (world_of cycle2)) (mevConfig (agent startedWorld))
    = Some (set_MintConfigList
              [MkMintConfig "So1pump" ["poolP"; "poolP"] ["poolR"; "poolR"] [] []
                 ["lut1"] 500] liveConfig) ∧
  agent (world_of cycle2) = agent startedWorld ∧
  trace_of cycle1 ++ trace_of cycle2
    = [ECopy 3 7; ESaveToFile "config.toml"; ECopy 3 16; ESaveToFile "config.toml"].
Proof. vm_compute. repeat split; reflexivity. Qed.

Lemma tracker_overwrites_config_in_place_witness :
  ∃ c w',
    @HotTokensTracker_UpdateConfig_run plainCodec stableSlice
      (tracker_after cycle1 newTracker) okEnv startedWorld
    = Done (tracker_after cycle1 newTracker) w'
        [ECopy 3 c; ESaveToFile "config.toml"] ∧
    read_config (mem w') 3
    = Some (set_MintConfigList
              [MkMintConfig "So1pump" ["poolP"] ["poolR"] [] [] ["lut1"] 500] liveConfig) ∧
    mevConfig (agent w') = 3.
Proof.
  destruct (@tracker_overwrites_config_in_place plainCodec stableSlice
              (tracker_after cycle1 newTracker) okEnv startedWorld liveConfig
              (set_MintConfigList
                 [MkMintConfig "So1pump" ["poolP"] ["poolR"] [] [] ["lut1"] 500] liveConfig))
    as (c & w' & Hrun & Hread & _ & Hag & _); [vm_compute; reflexivity..|].
  exists c, w'. split; [exact Hrun|]. split; [exact Hread|]. by rewrite Hag.
Defined.

Lemma accumulators_are_never_reset_witness :
  length (TokenPoolsInfos (tracker_after cycle2 newTracker)) = 2 ∧
  TokenPoolsInfo.TokenAddress <$> TokenPoolsInfos (tracker_after cycle2 newTracker)
    ≡ₚ ["So1pump"; "Zz9pump"].
Proof.
  destruct (@accumulators_are_never_reset plainCodec stableSlice asciiLower
              (tracker_after cycle1 newTracker) (inr secondCycle) so1Only
              okEnv (world_of cycle1)
              (tracker_after cycle2 newTracker) None (world_of cycle2)
              (trace_of cycle2))
    as (apiResp & tokens & Hapi & Hrank & _ & _ & _ & Hlen & Haddr).
  - vm_compute. reflexivity.
  - injection Hapi as <-. injection Hrank as <-. split; [exact Hlen|exact Haddr].
Defined.

Lemma missing_settings_stop_the_tracker_witness :
  @FetchHotTokens plainCodec stableSlice asciiLower
    (NewHotTokensTracker 3 None) (inr firstCycle) so1Only okEnv
    (world_after (okRun [LStart]) bareWorld)
  = Panicked (world_after (okRun [LStart]) bareWorld) [].
Proof.
  apply (@missing_settings_stop_the_tracker plainCodec stableSlice asciiLower
           "config.toml" "config.yaml" liveConfig "配置文件 config.yaml 不存在"
           {["config.toml" := FileToml liveConfig]} bareWorld (okRun [LStart])
           (world_after (okRun [LStart]) bareWorld)
           (events_after (okRun [LStart]) bareWorld) (inr firstCycle) so1Only okEnv);
    vm_compute; reflexivity.
Defined.

Lemma FetchPoolsForToken_example :
  FetchPoolsForToken asciiLower (Some so1Pools)
    (TokenPoolsInfo.Mk "So1pump" "So1" (9 # 1) ["old"] [] [] [])
  = TokenPoolsInfo.Mk "So1pump" "So1" (9 # 1) ["old"; "poolP"] [] ["poolR"] [].
Proof. vm_compute. reflexivity. Qed.

Section DecodedPatches.
Context `{Codec}.

(** With a payload that decodes and a persist step that succeeds:
    [update] makes the decoded configuration the agent's configuration as
    it is, without reading the previous one; [updateSection] adopts what
    the toml tree gives for the JSON round trip of the previous one with
    the path set, and when that step reports an error it returns the error
    with nothing persisted, the agent's pointer and the worker untouched. *)
Theorem decoded_patches_are_adopted cmd e w v :
  read_config (mem w) (mevConfig (agent w)) = Some v →
  persists e w →
  (∀ v', json_Unmarshal_Config (cmd_Value cmd) = inr v' →
     adopted w v' (handleConfigUpdate cmd e w)) ∧
  (∀ value, json_Unmarshal_value (cmd_Value cmd) = inr value →
     match toml_set (cmd_Section cmd) (cmd_Key cmd) value (json_roundtrip v) with
     | (v', None) => adopted w v' (handleSectionUpdate cmd e w)
     | (_, Some err) =>
         ∃ w' c,
           handleSectionUpdate cmd e w = Done (Some err) w' [ECopy (mevConfig (agent w)) c] ∧
           agent w' = agent w ∧ disk w' = disk w ∧ proc w' = proc w ∧
           read_config (mem w') (mevConfig (agent w)) = Some v
     end).
Proof.
  intros Hv Hp. split.
  - intros v' Hdec. unfold handleConfigUpdate. rewrite Hdec, bind_get, bind_ask.
    destruct (new_config v' (spare_cap e) (mem w)) as [p h1] eqn:Hnew.
    pose proof (new_config_read _ _ _ _ _ Hnew) as Hread.
    apply new_config_spec in Hnew as (Hsub & Hfresh & _).
    rewrite bind_modify.
    set (w1 := with_mem (λ _, h1) w).
    assert (Hp1 : persists e w1) by done.
    destruct (UpdateConfig_persisted p e w1 v' Hread Hp1) as (Hcalls & Hdisk & Hptr & Hmem & _).
    unfold adopted. rewrite Hptr, Hmem, Hdisk. simpl.
    repeat split; try done. rewrite Hv. by eapply read_config_mono.
  - intros value Hdec.
    destruct (Config_Copy_run (mevConfig (agent w)) e w)
      as (c & w1 & ch & Hrun & Hag & Hsub & Hfresh & Hc & Hm & Hread).
    rewrite Hv in Hread.
    assert (Hrest : disk w1 = disk w ∧ proc w1 = proc w).
    { revert Hrun. unfold Config_Copy. rewrite bind_get, bind_ask.
      destruct (new_config _ _ _). rewrite bind_modify. unfold bind, emit, ret. simpl.
      by intros [= _ <-]. }
    destruct Hrest as [Hd Hpr].
    unfold handleSectionUpdate. rewrite bind_get, (bind_Done _ _ _ _ _ _ _ Hrun), Hdec.
    unfold Config_UpdateSection, store_config.
    rewrite bind_assoc, bind_get, Hread.
    destruct (toml_set _ _ _ _) as [v' err].
    go_norm.
    destruct (new_configH v' (spare_cap e) (mem w1)) as [ch' h2] eqn:Hnew.
    pose proof (new_configH_read _ _ _ _ _ Hnew) as Hread'.
    apply new_configH_spec in Hnew as [Hsub2 _].
    go_norm.
    assert (Hsub3 : mem w ⊆ <[c := CConfig ch']> h2).
    { apply insert_subseteq_r; [done|]. by etrans. }
    destruct err as [err|].
    + eexists _, c. split; [reflexivity|]. simpl. repeat split; try done.
      by eapply read_config_mono.
    + eapply patched_copy_is_adopted; try done.
      simpl. apply read_config_put; [by eapply no_array_mono|done].
Qed.

End DecodedPatches.

Lemma decoded_patches_are_adopted_witness :
  adopted configuredWorld (set_RPC_URL "https://rpc.two" zeroConfig)
    (@handleConfigUpdate wordCodec (MkCommand "config" "update" "" "" "https://rpc.two")
       okEnv configuredWorld) ∧
  adopted configuredWorld (set_RPC_URL "https://rpc.two" liveConfig)
    (@handleSectionUpdate wordCodec
       (MkCommand "config" "updateSection" "rpc" "url" "https://rpc.two")
       okEnv configuredWorld).
Proof.
  split.
  - destruct (@decoded_patches_are_adopted wordCodec
                (MkCommand "config" "update" "" "" "https://rpc.two") okEnv configuredWorld
                liveConfig) as [Hupdate _];
      [vm_compute; reflexivity|exact configuredWorld_persists|].
    by apply Hupdate.
  - destruct (@decoded_patches_are_adopted wordCodec
                (MkCommand "config" "updateSection" "rpc" "url" "https://rpc.two")
                okEnv configuredWorld liveConfig) as [_ Hsection];
      [vm_compute; reflexivity|exact configuredWorld_persists|].
    by apply (Hsection "https://rpc.two").
Defined.

(** ** The monitor at work *)

Lemma chan_send_room {A} (x : A) c :
  length (chan_buf c) < chan_cap c →
  chan_send x c = Some (Chan (chan_buf c ++ [x]) (chan_cap c)).
Proof. unfold chan_send. intros. by rewrite decide_True. Qed.

(** The worker dies on its own while the flag is clear; the next tick of a
    monitor restarts it.  With the executable in place and the process
    started, the worker runs again under the new pid and the clients are
    told so; with the executable missing the worker stays down, the
    failure is broadcast, and the monitor is back in its [select] for the
    next tick. *)
Theorem crashed_worker_is_restarted_by_a_tick e1 e2 e3 w i :
  p_isRunning (proc w) = true →
  manuallyStopped (agent w) = false →
  monitors w !! i = Some MonSelect →
  length (chan_buf (ws_broadcast (ws w))) < chan_cap (ws_broadcast (ws w)) →
  ∃ w' trs,
    exec [(LProcExit, e1); (LTickRead i, e2); (LTickAct i, e3)] w = Some (w', trs) ∧
    monitors w' = monitors w ∧ manuallyStopped (agent w') = false ∧
    (stat_not_exist e3 = false → spawn_err e3 = None →
       p_isRunning (proc w') = true ∧ p_cmd (proc w') = CmdProcess (new_pid e3) ∧
       chan_buf (ws_broadcast (ws w'))
         = chan_buf (ws_broadcast (ws w)) ++ ["MEV Bot已自动重启"]) ∧
    (stat_not_exist e3 = true →
       p_isRunning (proc w') = false ∧
       chan_buf (ws_broadcast (ws w'))
         = chan_buf (ws_broadcast (ws w))
           ++ ["MEV Bot重启失败: 找不到可执行文件: " +:+ p_executable (proc w)]).
Proof.
  intros Hrun Hflag Hi Hroom.
  assert (Hsend : ∀ m, chan_send m (ws_broadcast (ws w))
                       = Some (Chan (chan_buf (ws_broadcast (ws w)) ++ [m])
                                    (chan_cap (ws_broadcast (ws w))))).
  { intros m. by apply chan_send_room. }
  assert (Hlt : i < length (monitors w)) by (by eapply lookup_lt_Some).
  clear Hroom. revert Hrun Hflag Hi Hsend Hlt.
  go_destruct_world w; go_destruct_env e1; go_destruct_env e2; go_destruct_env e3.
  simpl. intros -> -> Hi Hsend Hlt.
  unfold exec, step, finished. go_unfold. simpl. rewrite Hi. simpl.
  rewrite list_lookup_insert_eq by done. simpl.
  destruct noexe1; simpl; rewrite ?Hsend; simpl.
  - do 2 eexists. split; [reflexivity|]. simpl.
    rewrite list_insert_insert_eq, list_insert_id by done. by repeat split.
  - destruct spawn1; simpl; rewrite ?Hsend; simpl;
      do 2 eexists; (split; [reflexivity|]); simpl;
      rewrite list_insert_insert_eq, list_insert_id by done; by repeat split.
Qed.

Lemma crashed_worker_is_restarted_by_a_tick_witness :
  (λ r : World * list (Label * list Event), (p_isRunning (proc r.1), p_cmd (proc r.1)))
    <$> exec [(LProcExit, okEnv); (LTickRead 0, okEnv);
              (LTickAct 0, MkEnv false None 4343 None None false None WriteOk None 0)]
             startedWorld
  = Some (true, CmdProcess 4343).
Proof.
  destruct (crashed_worker_is_restarted_by_a_tick okEnv okEnv
              (MkEnv false None 4343 None None false None WriteOk None 0) startedWorld 0)
    as (w' & trs & Hexec & _ & _ & Hok & _);
    [vm_compute; reflexivity..|vm_compute; lia|].
  rewrite Hexec. simpl. by destruct (Hok eq_refl eq_refl) as (-> & -> & _).
Defined.

(** The message of a status check (agent.go 275-291). *)
Definition status_text (w : World) : string :=
  let running := p_isRunning (proc w) in
  let status := if running then "运行中" else "已停止" in
  let manualStatus :=
    if running then ""
    else if manuallyStopped (agent w) then " (手动停止)" else " (意外停止)" in
  "MEV Bot状态: " +:+ status +:+ manualStatus.

Section StatusRoundTrip.
Context `{Codec}.

(** A [bot]/[status] command from one client, with no check pending and
    nothing waiting to be broadcast: the sender gets its response; the
    monitor that takes the check broadcasts the state of the worker
    (running, stopped by hand, or stopped unexpectedly); the broadcaster
    writes that message as a notification to every registered client and
    drops the clients whose write failed.  Afterwards no check is pending
    and the broadcast queue is empty again. *)
Theorem status_request_reaches_every_client c cmd e w i failed :
  cmd_Type cmd = "bot" → cmd_Action cmd = "status" →
  statusChecks (agent w) = Chan [] 1 →
  chan_buf (ws_broadcast (ws w)) = [] → 0 < chan_cap (ws_broadcast (ws w)) →
  monitors w !! i = Some MonSelect → 0 < ws_fanouts (ws w) →
  ∃ w1 w2 w3,
    handleCommand c cmd e w = Done tt w1 [EWriteJSON c status_response] ∧
    step (LStatusCheck i) e w1
      = Some (w2, [ERLock; ERUnlock; EBroadcast (status_text w)]) ∧
    step (LFanOut failed) e w2
      = Some (w3, (λ cl, EWriteJSON cl (FNotification (status_text w)))
                    <$> elements (ws_clients (ws w))) ∧
    statusChecks (agent w3) = Chan [] 1 ∧
    ws_clients (ws w3) = ws_clients (ws w) ∖ failed ∧
    chan_buf (ws_broadcast (ws w3)) = [] ∧
    proc w3 = proc w ∧ manuallyStopped (agent w3) = manuallyStopped (agent w).
Proof.
  intros Hty Hact Hchecks Hbuf Hcap Hi Hfan.
  unfold handleCommand. rewrite Hty, Hact. simpl.
  revert Hchecks Hbuf Hcap Hi Hfan. unfold status_text.
  go_destruct_world w; go_destruct_env e. simpl.
  destruct bcast as [buf cap]. simpl. intros -> -> Hcap Hi Hfan.
  destruct fanouts as [|fanouts]; [lia|].
  unfold bind, get, modify, ret, emit. simpl.
  do 3 eexists. split; [reflexivity|].
  unfold step, finished. simpl. rewrite Hi.
  unfold monitor_status_check, BroadcastMessage, ProcessManager_IsRunning.
  unfold bind, get, modify, ret, emit. simpl.
  unfold chan_send. simpl. rewrite decide_True by done. simpl.
  split; [reflexivity|]. simpl.
  split; [reflexivity|]. done.
Qed.

End StatusRoundTrip.

Lemma status_request_reaches_every_client_witness :
  ∃ w1 w2 w3,
    @handleCommand plainCodec 7 statusCommand okEnv oneClientWorld
      = Done tt w1 [EWriteJSON 7 status_response] ∧
    step (LStatusCheck 0) okEnv w1
      = Some (w2, [ERLock; ERUnlock; EBroadcast "MEV Bot状态: 运行中"]) ∧
    step (LFanOut ∅) okEnv w2
      = Some (w3, [EWriteJSON 7 (FNotification "MEV Bot状态: 运行中")]).
Proof.
  destruct (@status_request_reaches_every_client plainCodec 7 statusCommand okEnv
              oneClientWorld 0 ∅)
    as (w1 & w2 & w3 & H1 & H2 & H3 & _); [vm_compute; reflexivity..|vm_compute; lia|
      vm_compute; reflexivity|vm_compute; lia|].
  exists w1, w2, w3. split; [exact H1|]. split; [exact H2|].
  rewrite H3. f_equal.
Defined.

(** ** Loading the agent settings (part_001, lines 392-462) *)

Record LogConfig := MkLogConfig {
  OutputPath : string;
  MaxSize : Z;
  MaxBackups : Z;
  MaxAge : Z;
  Compress : bool;
  LocalTime : bool
}.

(** The defaults set after decoding, lines 447-459. *)
Definition withLogDefaults (c : LogConfig) : LogConfig :=
  let c := if String.eqb (OutputPath c) ""
           then MkLogConfig "flash.log" (MaxSize c) (MaxBackups c) (MaxAge c)
                            (Compress c) (LocalTime c)
           else c in
  let c := if bool_decide (MaxSize c ≤ 0)%Z
           then MkLogConfig (OutputPath c) 100 (MaxBackups c) (MaxAge c)
                            (Compress c) (LocalTime c)
           else c in
  let c := if bool_decide (MaxBackups c ≤ 0)%Z
           then MkLogConfig (OutputPath c) (MaxSize c) 10 (MaxAge c)
                            (Compress c) (LocalTime c)
           else c in
  if bool_decide (MaxAge c ≤ 0)%Z
  then MkLogConfig (OutputPath c) (MaxSize c) (MaxBackups c) 30 (Compress c) (LocalTime c)
  else c.

(** [LoadFlashAgentConfig(path)], lines 429-462, given whether the file
    exists, what reading it returns and what the YAML decoder makes of the
    bytes: the logging section and the rest. *)
Definition LoadFlashAgentConfig (path : string) (missing : bool) (read : error + string)
    (yaml_Unmarshal : string → error + LogConfig * FlashAgentConfig)
    : error + LogConfig * FlashAgentConfig :=
  if missing then inl ("配置文件 " +:+ path +:+ " 不存在") else
  match read with
  | inl err => inl ("读取配置文件失败: " +:+ err)
  | inr data =>
      match yaml_Unmarshal data with
      | inl err => inl ("解析YAML配置失败: " +:+ err)
      | inr (logging, rest) => inr (withLogDefaults logging, rest)
      end
  end.

(** A logging section the log rotation can work with. *)
Definition usable (c : LogConfig) : Prop :=
  OutputPath c ≠ "" ∧ (0 < MaxSize c)%Z ∧ (0 < MaxBackups c)%Z ∧ (0 < MaxAge c)%Z.

(** Settings that load have a usable logging section, whatever the file
    said: an empty path and sizes that are zero or negative are replaced
    (flash.log, 100, 10, 30), every other value is kept, the two switches
    are never touched, and a section that was usable comes back as it
    was.  Everything outside the logging section is passed on as decoded. *)
Theorem loaded_logging_is_usable path missing read yaml_Unmarshal logging rest :
  LoadFlashAgentConfig path missing read yaml_Unmarshal = inr (logging, rest) →
  usable logging ∧
  ∃ data decoded,
    read = inr data ∧ yaml_Unmarshal data = inr (decoded, rest) ∧
    logging = withLogDefaults decoded ∧
    Compress logging = Compress decoded ∧ LocalTime logging = LocalTime decoded ∧
    (OutputPath decoded ≠ "" → OutputPath logging = OutputPath decoded) ∧
    ((0 < MaxSize decoded)%Z → MaxSize logging = MaxSize decoded) ∧
    ((0 < MaxBackups decoded)%Z → MaxBackups logging = MaxBackups decoded) ∧
    ((0 < MaxAge decoded)%Z → MaxAge logging = MaxAge decoded) ∧
    (usable decoded → logging = decoded) ∧
    withLogDefaults logging = logging.
Proof.
  unfold LoadFlashAgentConfig. destruct missing; [done|].
  destruct read as [err|data]; [done|].
  destruct (yaml_Unmarshal data) as [err|[decoded rest']] eqn:Hy; [done|].
  intros [= <- <-].
  assert (Hall : ∀ c, usable (withLogDefaults c) ∧
    Compress (withLogDefaults c) = Compress c ∧ LocalTime (withLogDefaults c) = LocalTime c ∧
    (OutputPath c ≠ "" → OutputPath (withLogDefaults c) = OutputPath c) ∧
    ((0 < MaxSize c)%Z → MaxSize (withLogDefaults c) = MaxSize c) ∧
    ((0 < MaxBackups c)%Z → MaxBackups (withLogDefaults c) = MaxBackups c) ∧
    ((0 < MaxAge c)%Z → MaxAge (withLogDefaults c) = MaxAge c) ∧
    (usable c → withLogDefaults c = c)).
  { intros [p s b a z t]. unfold withLogDefaults, usable. simpl.
    destruct (String.eqb_spec p "") as [->|Hp]; simpl;
      repeat (case_bool_decide; simpl in *); repeat split; try done; try lia;
      try (intros (? & ? & ? & ?); first [done | exfalso; lia]). }
  destruct (Hall decoded) as (Hu & Hc & Hl & Hp & Hs & Hb & Ha & Hid).
  split; [done|]. exists data, decoded.
  repeat split; try done. by apply (Hall (withLogDefaults decoded)).
Qed.

Lemma loaded_logging_is_usable_witness :
  usable (MkLogConfig "flash.log" 100 10 7 false false).
Proof.
  apply (loaded_logging_is_usable "config.yaml" false (inr "logging: {max_age: 7}")
           (λ _, inr (MkLogConfig "" 0 (-3) 7 false false, MkFlashAgentConfig "ave" "secret"))
           (MkLogConfig "flash.log" 100 10 7 false false)
           (MkFlashAgentConfig "ave" "secret")).
  reflexivity.
Defined.

(** ** The whole program: agent, socket and tracker together

    [step] has the critical sections of agent.go.  The program also serves
    the socket (a handshake, a command of a connection, the end of a
    connection) and runs, for each [Start] that got as far as line 98, a
    tracker made by [NewHotTokensTracker(a.mevConfig, a.agentConfig, a)];
    a cycle of a tracker is one [FetchHotTokens], and the [RestartMEVBot]
    that follows it is a step of the agent.  A step that panics ends the
    program, and one that waits has not happened.  Commands and cycles are
    taken for any connection and at any time, which is more than the
    program does. *)

Record System := MkSystem {
  sys_world : World;
  sys_trackers : list HotTokensTracker       (* in the order they were started *)
}.

Inductive Activity :=
| OfAgent (l : Label)
| Handshake (r : Request)                    (* handleConnections *)
| Message (c : conn) (cmd : Command)         (* handleMessages: a command is read and handled *)
| Hangup (c : conn)                          (* handleMessages: the read fails, the deferred cleanup *)
| Tracking (i : nat) (api : error + APIResponse)
           (pools : nat → option SolscanPoolResponse).   (* tracker i: FetchHotTokens *)

(** What the events of a program that cannot be reconfigured look like: a
    configuration is saved to the empty path (where the open fails) or to
    config.toml, and [a.mevConfig] is not assigned. *)
Definition no_reconfiguration (ev : Event) : Prop :=
  match ev with
  | ESaveToFile f => f = "" ∨ f = "config.toml"
  | ESetMevConfig _ => False
  | _ => True
  end.

(** The agent has no path to save to, and keeps its pointer to the
    configuration and its settings. *)
Definition unsaved (w w' : World) : Prop :=
  mevConfigPath (agent w') = "" ∧
  mevConfig (agent w') = mevConfig (agent w) ∧
  agentConfig (agent w') = agentConfig (agent w).

(** The trackers of a system all hold the pointer [p] and the settings
    [ac]. *)
Definition trackers_hold (p : loc) (ac : option FlashAgentConfig) (s : System) : Prop :=
  Forall (λ h, MevConfig h = p ∧ AgentConfig h = ac) (sys_trackers s).

Section WholeProgram.
Context `{Codec} `{SortSlice}.
Variable strings_ToLower : string → string.

Definition act (a : Activity) (e : Env) (s : System) : option (System * list Event) :=
  let w := sys_world s in
  match a with
  | OfAgent l =>
      match step l e w with
      | Some (w', tr) =>
          (* only the [Start] that launches the goroutines counts a tracker *)
          let started := bool_decide (trackers w' = S (trackers w)) in
          Some (MkSystem w'
                  (if started
                   then sys_trackers s
                          ++ [NewHotTokensTracker (mevConfig (agent w)) (agentConfig (agent w))]
                   else sys_trackers s), tr)
      | None => None
      end
  | Handshake r =>
      match handleConnections r e w with
      | Done _ w' tr => Some (MkSystem w' (sys_trackers s), tr)
      | _ => None
      end
  | Message c cmd =>
      match handleCommand c cmd e w with
      | Done _ w' tr => Some (MkSystem w' (sys_trackers s), tr)
      | _ => None
      end
  | Hangup c =>
      Some (MkSystem (with_ws (λ s0, set_ws_clients (ws_clients s0 ∖ {[c]}) s0) w)
              (sys_trackers s), [])
  | Tracking i api pools =>
      match sys_trackers s !! i with
      | Some h =>
          match FetchHotTokens strings_ToLower h api pools e w with
          | Done (h', _) w' tr => Some (MkSystem w' (<[i := h']> (sys_trackers s)), tr)
          | _ => None
          end
      | None => None
      end
  end.

Fixpoint run (acts : list (Activity * Env)) (s : System)
    : option (System * list (Activity * list Event)) :=
  match acts with
  | [] => Some (s, [])
  | (a, e) :: rest =>
      match act a e s with
      | None => None
      | Some (s1, tr) =>
          match run rest s1 with
          | None => None
          | Some (s2, trs) => Some (s2, (a, tr) :: trs)
          end
      end
  end.

(** A body that, run without a path, leaves the agent without one and does
    nothing that reconfigures it, however it ends. *)
Definition keeps {A} (m : M A) : Prop :=
  ∀ e w, mevConfigPath (agent w) = "" →
         unsaved w (world_of (m e w)) ∧ Forall no_reconfiguration (trace_of (m e w)).

Lemma unsaved_refl w : mevConfigPath (agent w) = "" → unsaved w w.
Proof. by intros Hp. Qed.

Lemma unsaved_trans w1 w2 w3 : unsaved w1 w2 → unsaved w2 w3 → unsaved w1 w3.
Proof. intros (? & ? & ?) (? & ? & ?). repeat split; congruence. Qed.

Lemma keeps_ret {A} (a : A) : keeps (ret a).
Proof. intros e w Hp. by split. Qed.
Lemma keeps_get : keeps get.
Proof. intros e w Hp. by split. Qed.
Lemma keeps_ask : keeps ask.
Proof. intros e w Hp. by split. Qed.
Lemma keeps_panic {A} : keeps (@panic A).
Proof. intros e w Hp. by split. Qed.
Lemma keeps_block {A} : keeps (@block A).
Proof. intros e w Hp. by split. Qed.

Lemma keeps_emit ev : no_reconfiguration ev → keeps (emit ev).
Proof. intros Hev e w Hp. split; [done|]. by repeat constructor. Qed.

Lemma keeps_modify f :
  (∀ w, mevConfigPath (agent w) = "" → unsaved w (f w)) → keeps (modify f).
Proof. intros Hf e w Hp. split; [by apply Hf|constructor]. Qed.

Lemma keeps_bind {A B} (m : M A) (k : A → M B) :
  keeps m → (∀ a, keeps (k a)) → keeps (bind m k).
Proof.
  intros Hm Hk e w Hp. unfold bind. destruct (Hm e w Hp) as [Hu Htr].
  destruct (m e w) as [a w1 tr1| |]; [|done..]. simpl in Hu, Htr.
  destruct (Hk a e w1) as [Hu2 Htr2]; [by destruct Hu|].
  destruct (k a e w1); simpl in *.
  all: split; [by eapply unsaved_trans|by apply Forall_app].
Qed.

(** One step through a body: the sequencing, the case splits, the events,
    and the operations on memory, on the disk and on the socket. *)
Ltac keeps_step :=
  match goal with
  | |- keeps (bind _ _) => apply keeps_bind; [|intros ?]
  | |- keeps (ret _) => apply keeps_ret
  | |- keeps get => apply keeps_get
  | |- keeps ask => apply keeps_ask
  | |- keeps panic => apply keeps_panic
  | |- keeps block => apply keeps_block
  | |- keeps (emit (ESaveToFile "config.toml")) => apply keeps_emit; by right
  | |- keeps (emit _) => apply keeps_emit; exact I
  | |- keeps (modify (with_mem _)) => apply keeps_modify; by intros ??
  | |- keeps (modify (with_disk _)) => apply keeps_modify; by intros ??
  | |- keeps (modify (with_ws _)) => apply keeps_modify; by intros ??
  | |- keeps (modify (with_agent (set_statusChecks _))) => apply keeps_modify; by intros ??
  | |- keeps (match ?x with _ => _ end) => destruct x eqn:?
  end.

Lemma keeps_Copy c : keeps (Config_Copy c).
Proof. unfold Config_Copy. repeat keeps_step. Qed.

Lemma keeps_store c v : keeps (store_config c v).
Proof. unfold store_config. repeat keeps_step. Qed.

Lemma keeps_UpdateSection c section key value :
  keeps (Config_UpdateSection c section key value).
Proof. unfold Config_UpdateSection. repeat first [apply keeps_store | keeps_step]. Qed.

Lemma keeps_assign c f : keeps (assign c f).
Proof. unfold assign. repeat keeps_step. Qed.

Lemma keeps_append c m : keeps (append_mint c m).
Proof. unfold append_mint. repeat keeps_step. Qed.

(** With no path, [UpdateConfig] returns at the failed open. *)
Lemma keeps_UpdateConfig p : keeps (Agent_UpdateConfig p).
Proof.
  intros e w. unfold unsaved.
  go_eval (Agent_UpdateConfig p) e w.
  all: simpl; intros Hp; try done.
  all: subst; split; [done|]; repeat constructor.
Qed.

Lemma keeps_Restart : keeps Agent_RestartMEVBot.
Proof.
  intros e w. unfold unsaved.
  go_eval Agent_RestartMEVBot e w.
  all: simpl; intros Hp; split; [done|]; repeat constructor.
Qed.

Ltac keeps_body :=
  repeat first [ apply keeps_Copy | apply keeps_UpdateSection | apply keeps_assign
               | apply keeps_append | apply keeps_UpdateConfig | apply keeps_Restart
               | keeps_step ].

Lemma keeps_handleCommand c cmd : keeps (handleCommand c cmd).
Proof.
  unfold handleCommand, handleConfigUpdate, handleSectionUpdate, handleAddMint,
    handleRemoveMint, handleUpdateRPC, handleToggleFeature, with_data.
  keeps_body.
Qed.

Lemma keeps_handleConnections r : keeps (handleConnections r).
Proof. unfold handleConnections. keeps_body. Qed.

Lemma keeps_SaveToFile c : keeps (SaveToFile c "config.toml").
Proof. unfold SaveToFile, os_WriteFile. keeps_body. Qed.

Lemma keeps_tracker_UpdateConfig h : keeps (HotTokensTracker_UpdateConfig_run h).
Proof.
  unfold HotTokensTracker_UpdateConfig_run.
  repeat first [ apply keeps_SaveToFile | keeps_body ].
Qed.

Lemma keeps_FetchHotTokens h api pools :
  keeps (FetchHotTokens strings_ToLower h api pools).
Proof.
  unfold FetchHotTokens.
  repeat first [ apply keeps_tracker_UpdateConfig | keeps_body ].
Qed.

Lemma step_unsaved l e w w' tr :
  mevConfigPath (agent w) = "" →
  step l e w = Some (w', tr) →
  unsaved w w' ∧ Forall no_reconfiguration tr.
Proof.
  unfold unsaved. destruct l; unfold step, finished.
  all: go_destruct_world w; go_destruct_env e; simpl; intros ->.
  all: repeat match goal with
       | |- context [match ?l !! ?i with _ => _ end] => destruct (l !! i) as [[]|] eqn:?
       end; try done.
  all: go_run; try done; intros [= <- <-]; simpl; (split; [done|]).
  all: try (by repeat constructor).
  all: apply Forall_fmap, Forall_forall; by intros ??.
Qed.

(** A cycle hands the tracker on with the pointer and the settings it was
    made with. *)
Lemma FetchHotTokens_same_pointers h api pools e w h' o w' tr :
  FetchHotTokens strings_ToLower h api pools e w = Done (h', o) w' tr →
  MevConfig h' = MevConfig h ∧ AgentConfig h' = AgentConfig h.
Proof.
  unfold FetchHotTokens. destruct (AgentConfig h) as [settings|] eqn:Hsettings; [|done].
  destruct api as [err|apiResp]; [by intros [= <- <- <- <-]|].
  destruct (rankHotTokens apiResp) as [err|tokens]; [by intros [= <- <- <- <-]|].
  unfold bind.
  destruct (HotTokensTracker_UpdateConfig_run _ e w) as [h1 w1 tr1| |] eqn:Hrun; [|done..].
  apply UpdateConfig_run_returns in Hrun. simpl in Hrun.
  intros [= <- <- <- <-]. rewrite Hrun. by case_bool_decide.
Qed.

Lemma act_unsaved a e s s' tr :
  mevConfigPath (agent (sys_world s)) = "" →
  act a e s = Some (s', tr) →
  unsaved (sys_world s) (sys_world s') ∧ Forall no_reconfiguration tr ∧
  (trackers_hold (mevConfig (agent (sys_world s))) (agentConfig (agent (sys_world s))) s →
   trackers_hold (mevConfig (agent (sys_world s))) (agentConfig (agent (sys_world s))) s').
Proof.
  destruct s as [w ts]. unfold trackers_hold. simpl. intros Hpath.
  destruct a as [l|r|c cmd|c|i api pools]; simpl.
  - destruct (step l e w) as [[w' tr']|] eqn:Hstep; [|done]. intros [= <- <-].
    destruct (step_unsaved _ _ _ _ _ Hpath Hstep) as [Hu Htr].
    split; [done|]. split; [done|]. simpl. intros Hts.
    case_bool_decide; [|done]. apply Forall_app. split; [done|]. by repeat constructor.
  - destruct (keeps_handleConnections r e w Hpath) as [Hu Htr].
    destruct (handleConnections r e w) as [[] w' tr'| |]; [|done..].
    by intros [= <- <-].
  - destruct (keeps_handleCommand c cmd e w Hpath) as [Hu Htr].
    destruct (handleCommand c cmd e w) as [[] w' tr'| |]; [|done..].
    by intros [= <- <-].
  - intros [= <- <-]. by repeat split.
  - destruct (ts !! i) as [h|] eqn:Hi; [|done].
    destruct (keeps_FetchHotTokens h api pools e w Hpath) as [Hu Htr].
    destruct (FetchHotTokens strings_ToLower h api pools e w)
      as [[h' o] w' tr'| |] eqn:Hrun; [|done..].
    intros [= <- <-]. split; [done|]. split; [done|]. simpl. intros Hts.
    apply FetchHotTokens_same_pointers in Hrun as [Hp Ha].
    apply Forall_insert; [done|]. rewrite Hp, Ha.
    by eapply (Forall_lookup_1 _ _ _ _ Hts).
Qed.

Lemma run_unsaved acts s s' trs :
  run acts s = Some (s', trs) →
  mevConfigPath (agent (sys_world s)) = "" →
  trackers_hold (mevConfig (agent (sys_world s))) (agentConfig (agent (sys_world s))) s →
  unsaved (sys_world s) (sys_world s') ∧
  trackers_hold (mevConfig (agent (sys_world s))) (agentConfig (agent (sys_world s))) s' ∧
  Forall (λ atr : Activity * list Event, Forall no_reconfiguration atr.2) trs.
Proof.
  revert s s' trs. induction acts as [|[a e] acts IH]; intros s s' trs; simpl.
  { intros [= <- <-] Hp Hts. by repeat split. }
  destruct (act a e s) as [[s1 tr]|] eqn:Hact; [|done].
  destruct (run acts s1) as [[s2 trs']|] eqn:Hrun; [|done].
  intros [= <- <-] Hp Hts.
  destruct (act_unsaved _ _ _ _ _ Hp Hact) as (H1 & Htr & Hts1). specialize (Hts1 Hts).
  pose proof H1 as (Hp1 & Hc1 & Ha1).
  rewrite <-Hc1, <-Ha1 in Hts1.
  destruct (IH _ _ _ Hrun Hp1 Hts1) as (H2 & Hts2 & Htrs).
  rewrite Hc1, Ha1 in Hts2.
  split; [by eapply unsaved_trans|]. split; [done|]. by constructor.
Qed.

(** No code assigns [mevConfigPath], and [NewAgent] leaves it empty.  So in
    every run of the whole program from the state [NewAgent] builds (the
    agent's methods and goroutines, handshakes, commands of any connection,
    disconnections, cycles of the trackers with any answers of the two
    services) the path is empty at the end; the agent keeps its settings
    and still points to the struct that [NewAgent] loaded, [a.mevConfig]
    having never been assigned: no configuration command has installed its
    copy.  Every tracker writes through that same pointer.  And every
    configuration saved in the run went to the empty path, where the open
    fails, or to config.toml in the working directory, which the tracker
    names, whatever path [NewAgent] was given. *)
Theorem nothing_sets_the_config_path path agentPath loaded loadedAgent fs w0 acts s trs :
  NewAgent path agentPath loaded loadedAgent fs = inr w0 →
  run acts (MkSystem w0 []) = Some (s, trs) →
  mevConfigPath (agent (sys_world s)) = "" ∧
  mevConfig (agent (sys_world s)) = mevConfig (agent w0) ∧
  agentConfig (agent (sys_world s)) = agentConfig (agent w0) ∧
  trackers_hold (mevConfig (agent w0)) (agentConfig (agent w0)) s ∧
  Forall (λ atr : Activity * list Event, Forall no_reconfiguration atr.2) trs.
Proof.
  intros Hnew Hrun.
  assert (Hpath : mevConfigPath (agent w0) = "").
  { revert Hnew. unfold NewAgent. destruct loaded; [done|].
    destruct (new_config _ _ _). by intros [= <-]. }
  destruct (run_unsaved _ _ _ _ Hrun Hpath) as ((? & ? & ?) & Hts & Htrs).
  { constructor. }
  done.
Qed.

End WholeProgram.

(** A start, a client that connects and asks for another RPC address, a
    cycle of the tracker, the restart that follows it, and the client
    leaving. *)
Definition busyRun : list (Activity * Env) :=
  (λ a, (a, okEnv)) <$>
    [OfAgent LStart; Handshake (MkRequest "secret" (inr 7)); Message 7 rpcCommand;
     Tracking 0 (inr firstCycle) so1Only; OfAgent LRestartMEVBot; Hangup 7].

Definition system_after (acts : list (Activity * Env)) (s : System) : System :=
  match @run plainCodec stableSlice asciiLower acts s with
  | Some (s', _) => s'
  | None => s
  end.

Definition traces_after (acts : list (Activity * Env)) (s : System)
    : list (Activity * list Event) :=
  match @run plainCodec stableSlice asciiLower acts s with
  | Some (_, trs) => trs
  | None => []
  end.

Lemma nothing_sets_the_config_path_witness :
  let s := system_after busyRun (MkSystem freshWorld []) in
  let trs := traces_after busyRun (MkSystem freshWorld []) in
  (RPC_URL <$> read_config (mem (sys_world s)) 3 = Some "https://rpc.one" ∧
   (ESaveToFile "" ∈ mjoin (snd <$> trs) ∧ ESaveToFile "config.toml" ∈ mjoin (snd <$> trs)) ∧
   disk (sys_world s) !! "config.toml" ≠ Some (FileToml liveConfig)) ∧
  mevConfigPath (agent (sys_world s)) = "" ∧
  mevConfig (agent (sys_world s)) = mevConfig (agent freshWorld) ∧
  agentConfig (agent (sys_world s)) = agentConfig (agent freshWorld) ∧
  trackers_hold (mevConfig (agent freshWorld)) (agentConfig (agent freshWorld)) s ∧
  Forall (λ atr : Activity * list Event, Forall no_reconfiguration atr.2) trs.
Proof.
  intros s trs. split.
  - split; [vm_compute; reflexivity|]. split.
    + split; vm_compute; repeat constructor.
    + vm_compute. discriminate.
  - apply (@nothing_sets_the_config_path plainCodec stableSlice asciiLower
             "config.toml" "config.yaml" (inr liveConfig)
             (inr (MkFlashAgentConfig "ave" "secret"))
             {["config.toml" := FileToml liveConfig]} freshWorld busyRun s trs);
      vm_compute; reflexivity.
Defined.
